(** * Distribution-plot commands of EDA_Tool ([src/dist.py])

    A shallow embedding of the two command handlers [show_dist] and
    [show_biv_dist], of the plot builders they call, and of the libraries
    they drive:

    - [argparse] (CPython 3.11): token classification, the alternation of
      positionals and optionals, [nargs], [choices], defaults, the usage
      errors and the help action;
    - the part of pandas the handlers touch: a frame with named columns,
      [set_index] (which returns a new object) and assignment to [.index];
    - seaborn's [displot], as the record of the call that built a figure;
    - the file system and the viewer, as a map from paths to images and a log.

    [utils.get_numericals] and [utils.check_valid_png] belong to a module of
    the repository that is not part of [src/dist.py]; the handlers take them
    as parameters. *)

From Stdlib Require Import ZArith String Ascii List Bool Lia.
From stdpp Require Import base option list gmap strings.

Local Open Scope string_scope.
Local Open Scope list_scope.

(** ** Python values *)

(** The values an [argparse] namespace of these parsers can hold: [None],
    a [str], or a list of [str]. *)
Inductive pyval :=
  | PNone
  | PStr (s : string)
  | PList (l : list string).

#[global] Instance pyval_eq_dec : EqDecision pyval.
Proof. solve_decision. Defined.

(** A cell of a data frame: a string, an integer, or a missing value
    (NaN / None). *)
Inductive scalar :=
  | SStr (s : string)
  | SInt (z : Z)
  | SNaN.

#[global] Instance scalar_eq_dec : EqDecision scalar.
Proof. solve_decision. Defined.

(** ** String helpers (the [str] methods argparse uses) *)

Definition in_list (s : string) (l : list string) : bool := bool_decide (s ∈ l).

(** [s.startswith(p)] *)
Definition startswith (s p : string) : bool := String.prefix p s.

(** [c in s] for a one-character [c] *)
Fixpoint contains_char (c : ascii) (s : string) : bool :=
  match s with
  | EmptyString => false
  | String d s' => if Ascii.eqb c d then true else contains_char c s'
  end.

(** [s.split(c, 1)] when [c] occurs in [s]: the text before the first [c]
    and the text after it. *)
Fixpoint split_once (c : ascii) (s : string) : option (string * string) :=
  match s with
  | EmptyString => None
  | String d s' =>
      if Ascii.eqb c d then Some (EmptyString, s')
      else match split_once c s' with
           | Some (l, r) => Some (String d l, r)
           | None => None
           end
  end.

Definition is_digit (c : ascii) : bool :=
  let n := nat_of_ascii c in (48 <=? n)%nat && (n <=? 57)%nat.

Fixpoint all_digits (s : string) : bool :=
  match s with
  | EmptyString => true
  | String c s' => is_digit c && all_digits s'
  end.

Definition digits1 (s : string) : bool :=
  match s with EmptyString => false | _ => all_digits s end.

(** Drops one final newline: [$] of a Python regex also matches just before
    a newline that ends the string. *)
Fixpoint chomp (s : string) : string :=
  match s with
  | EmptyString => EmptyString
  | String c EmptyString => if Ascii.eqb c "010"%char then EmptyString else s
  | String c s' => String c (chomp s')
  end.

(** [_negative_number_matcher]: [^-\d+$|^-\d*\.\d+$] (ASCII digits). *)
Definition negative_number (s : string) : bool :=
  match chomp s with
  | String "-"%char r =>
      digits1 r ||
      match split_once "."%char r with
      | Some (l, f) => all_digits l && digits1 f
      | None => false
      end
  | _ => false
  end.

(** [s.lstrip('-')] and [s.replace('-', '_')], used to infer [dest]. *)
Fixpoint lstrip_dash (s : string) : string :=
  match s with
  | String "-"%char s' => lstrip_dash s'
  | _ => s
  end.

Fixpoint dash_to_underscore (s : string) : string :=
  match s with
  | EmptyString => EmptyString
  | String c s' => String (if Ascii.eqb c "-"%char then "_"%char else c) (dash_to_underscore s')
  end.

Definition starts_with_dash (s : string) : bool :=
  match s with String "-"%char _ => true | _ => false end.

(** The second character is a prefix character ([option_string[1] in chars]). *)
Definition second_is_dash (s : string) : bool :=
  match s with String _ (String "-"%char _) => true | _ => false end.

(** ** argparse *)

Module argparse.

Inductive nargs_t :=
  | NargsNone        (* nargs=None: exactly one argument *)
  | NargsOptional    (* nargs='?' *)
  | NargsZeroOrMore  (* nargs='*' *)
  | NargsZero.       (* nargs=0, the help action *)

#[global] Instance nargs_eq_dec : EqDecision nargs_t.
Proof. solve_decision. Defined.

Inductive action_kind := Store | Help.

Record Action := mkAction {
  option_strings : list string;
  dest : option string;            (* None is SUPPRESS *)
  nargs : nargs_t;
  const : pyval;
  default : option pyval;          (* None is SUPPRESS *)
  choices : option (list string);
  required : bool;
  kind : action_kind
}.

(** A parser is the list of its actions in the order they were added
    ([_actions]); an action object is referred to by its position there.
    [prefix_chars] is '-', [allow_abbrev] and [exit_on_error] are on. *)
Record ArgumentParser := mkParser { actions : list Action }.

Definition help_action : Action :=
  {| option_strings := ["-h"; "--help"]; dest := None; nargs := NargsZero;
     const := PNone; default := None; choices := None; required := false;
     kind := Help |}.

(** [ArgumentParser()]: [add_help] is on. *)
Definition ArgumentParser_new : ArgumentParser := {| actions := [help_action] |}.

(** [dest] of an optional: the first long option string, else the first
    option string, without its dashes and with '-' turned into '_'. *)
Definition infer_dest (names : list string) : string :=
  let long := filter (fun s => second_is_dash s = true) names in
  match long, names with
  | l :: _, _ => dash_to_underscore (lstrip_dash l)
  | [], n :: _ => dash_to_underscore (lstrip_dash n)
  | [], [] => EmptyString
  end.

(** [parser.add_argument(name, ..., nargs=, default=, choices=)].
    One name without a leading '-' declares a positional, which is required
    unless its nargs is '?' or '*'; otherwise the names are option strings. *)
Definition add_argument (names : list string) (n : nargs_t) (dflt : pyval)
    (ch : option (list string)) (p : ArgumentParser) : ArgumentParser :=
  let a :=
    match names with
    | [name] =>
        if starts_with_dash name then
          {| option_strings := names; dest := Some (infer_dest names); nargs := n;
             const := PNone; default := Some dflt; choices := ch;
             required := false; kind := Store |}
        else
          {| option_strings := []; dest := Some name; nargs := n;
             const := PNone; default := Some dflt; choices := ch;
             required := match n with
                         | NargsOptional | NargsZeroOrMore => false
                         | _ => true
                         end;
             kind := Store |}
    | _ =>
        {| option_strings := names; dest := Some (infer_dest names); nargs := n;
           const := PNone; default := Some dflt; choices := ch;
           required := false; kind := Store |}
    end in
  {| actions := actions p ++ [a] |}.

(** The same parser with every [choices=] left out. *)
Definition strip_action (a : Action) : Action :=
  {| option_strings := option_strings a; dest := dest a; nargs := nargs a;
     const := const a; default := default a; choices := None;
     required := required a; kind := kind a |}.

Definition strip_choices (p : ArgumentParser) : ArgumentParser :=
  {| actions := map strip_action (actions p) |}.

Definition is_positional_action (a : Action) : bool :=
  match option_strings a with [] => true | _ => false end.

(** [_option_string_actions], in insertion order. *)
Definition option_string_actions (p : ArgumentParser) : list (string * nat) :=
  flat_map (fun ia => map (fun s => (s, fst ia)) (option_strings (snd ia)))
           (imap (fun i a => (i, a)) (actions p)).

Fixpoint assoc (s : string) (l : list (string * nat)) : option nat :=
  match l with
  | [] => None
  | (k, v) :: l' => if String.eqb s k then Some v else assoc s l'
  end.

(** [_get_positional_actions] *)
Definition get_positional_actions (p : ArgumentParser) : list nat :=
  flat_map (fun ia => if is_positional_action (snd ia) then [fst ia] else [])
           (imap (fun i a => (i, a)) (actions p)).

(** [_get_action_name]: the option strings joined by '/', else the dest. *)
Definition get_action_name (a : Action) : string :=
  match option_strings a with
  | [] => match dest a with Some d => d | None => EmptyString end
  | o :: os => fold_left (fun acc s => (acc +:+ "/" +:+ s)) os o
  end.

Inductive error :=
  | InvalidChoice (argument : string) (value : pyval)
  | RequiredMissing (names : list string)
  | UnrecognizedArguments (extras : list string)
  | AmbiguousOption (option : string) (matches : list string)
  | IgnoredExplicitArgument (argument : string) (explicit_arg : string)
  | ExpectedOneArgument (argument : string)
  | HelpRequested.

(** What [parser.exit] hands to [SystemExit]: 0 after help, 2 after [error]. *)
Definition exit_status (e : error) : Z :=
  match e with HelpRequested => 0%Z | _ => 2%Z end.

(** A call of the parser either returns or ends in [parser.error] /
    [parser.exit]. *)
Inductive result (A : Type) :=
  | Ok (a : A)
  | Error (e : error).
Arguments Ok {A} a.
Arguments Error {A} e.

(** Whether a call returned, and what it returned. *)
Definition is_Ok {A} (r : result A) : bool :=
  match r with Ok _ => true | Error _ => false end.

Definition from_Ok {A} (d : A) (r : result A) : A :=
  match r with Ok a => a | Error _ => d end.

#[global] Instance result_ret : MRet result := fun A a => Ok a.
#[global] Instance result_bind : MBind result := fun A B f m =>
  match m with Ok a => f a | Error e => Error e end.
#[global] Instance result_fmap : FMap result := fun A B f m =>
  match m with Ok a => Ok (f a) | Error e => Error e end.

(** *** Classifying the argument strings *)

(** The characters of [arg_strings_pattern]. *)
Inductive pchar := PA | PO | PDash.

#[global] Instance pchar_eq_dec : EqDecision pchar.
Proof. solve_decision. Defined.

(** What the first pass records about one argument string: an argument
    ('A'), the separator '--' ('-'), or an option ('O') with the tuple
    [(action, option_string, explicit_arg)] of [option_string_indices]. *)
Inductive arg_class :=
  | ClsA
  | ClsDash
  | ClsO (act : option nat) (option_string : string) (explicit_arg : option string).

Definition pattern_of (c : arg_class) : pchar :=
  match c with ClsA => PA | ClsDash => PDash | ClsO _ _ _ => PO end.

Definition has_negative_number_optionals (p : ArgumentParser) : bool :=
  existsb (fun kv => negative_number (fst kv)) (option_string_actions p).

(** [_get_option_tuples], called on strings of two or more characters that
    start with '-'. *)
Definition get_option_tuples (p : ArgumentParser) (option_string : string)
    : list (nat * string * option string) :=
  if second_is_dash option_string then
    let '(option_prefix, explicit_arg) :=
      match split_once "="%char option_string with
      | Some (l, r) => (l, Some r)
      | None => (option_string, None)
      end in
    flat_map (fun kv => if startswith (fst kv) option_prefix
                        then [(snd kv, fst kv, explicit_arg)] else [])
             (option_string_actions p)
  else
    let short_option_prefix := substring 0 2 option_string in
    let short_explicit_arg := substring 2 (String.length option_string - 2) option_string in
    flat_map (fun kv => if String.eqb (fst kv) short_option_prefix
                        then [(snd kv, fst kv, Some short_explicit_arg)]
                        else if startswith (fst kv) option_string
                        then [(snd kv, fst kv, None)] else [])
             (option_string_actions p).

(** [_parse_optional]: [Ok None] for a positional, [Ok (Some tuple)] for an
    option; an ambiguous abbreviation ends the parse. *)
Definition parse_optional (p : ArgumentParser) (arg_string : string)
    : result (option (option nat * string * option string)) :=
  if String.eqb arg_string EmptyString then Ok None
  else if negb (starts_with_dash arg_string) then Ok None
  else
    match assoc arg_string (option_string_actions p) with
    | Some i => Ok (Some (Some i, arg_string, None))
    | None =>
        if Nat.eqb (String.length arg_string) 1 then Ok None
        else
          let before_eq :=
            match split_once "="%char arg_string with
            | Some (os, ea) =>
                match assoc os (option_string_actions p) with
                | Some i => Some (Some i, os, Some ea)
                | None => None
                end
            | None => None
            end in
          match before_eq with
          | Some t => Ok (Some t)
          | None =>
              match get_option_tuples p arg_string with
              | (_ :: _ :: _) as l =>
                  Error (AmbiguousOption arg_string (map (fun t => snd (fst t)) l))
              | [(i, os, ea)] => Ok (Some (Some i, os, ea))
              | [] =>
                  if negative_number arg_string && negb (has_negative_number_optionals p)
                  then Ok None
                  else if contains_char " "%char arg_string then Ok None
                  else Ok (Some (None, arg_string, None))
              end
          end
    end.

(** The first loop of [_parse_known_args]: every string after '--' is an
    argument. *)
Fixpoint classify (p : ArgumentParser) (arg_strings : list string)
    : result (list (string * arg_class)) :=
  match arg_strings with
  | [] => Ok []
  | arg_string :: rest =>
      if String.eqb arg_string "--" then
        Ok ((arg_string, ClsDash) :: map (fun a => (a, ClsA)) rest)
      else
        o ← parse_optional p arg_string;
        items ← classify p rest;
        Ok ((arg_string,
             match o with
             | None => ClsA
             | Some (act, os, ea) => ClsO act os ea
             end) :: items)
  end.

(** An argument string the first pass reads as an argument ('A'): it is
    not the separator and [_parse_optional] finds no option in it. *)
Definition is_argument_string (p : ArgumentParser) (s : string) : bool :=
  negb (String.eqb s "--") &&
  match parse_optional p s with Ok None => true | _ => false end.

Definition pattern (items : list (string * arg_class)) : list pchar :=
  map (fun it => pattern_of (snd it)) items.

(** *** Matching nargs patterns *)

(** The length of the longest prefix of [pat] made of [ok] characters. *)
Fixpoint run_length (ok : pchar -> bool) (pat : list pchar) : nat :=
  match pat with
  | c :: pat' => if ok c then S (run_length ok pat') else 0
  | [] => 0
  end.

Definition is_dash (c : pchar) : bool := bool_decide (c = PDash).
Definition is_A (c : pchar) : bool := bool_decide (c = PA).
Definition is_A_or_dash (c : pchar) : bool := is_A c || is_dash c.

(** [hi, hi-1, ..., lo] *)
Definition descending (hi lo : nat) : list nat := rev (seq lo (S hi - lo)).

(** The lengths a positional's group can take at the head of [pat], longest
    first.  With d for a run of '-' characters, the groups are
    d A d (nargs=None), d A? d ('?'), d [A-]* ('*') and d d (0):
    their quantifiers are greedy, so the regex engine tries the longer
    alternatives first. *)
Definition candidates (n : nargs_t) (pat : list pchar) : list nat :=
  let d := run_length is_dash pat in
  let after := drop d pat in
  match n with
  | NargsNone =>
      match after with
      | PA :: tl => descending (d + 1 + run_length is_dash tl) (d + 1)
      | _ => []
      end
  | NargsOptional =>
      match after with
      | PA :: tl => descending (d + 1 + run_length is_dash tl) 0
      | _ => descending d 0
      end
  | NargsZeroOrMore => descending (run_length is_A_or_dash pat) 0
  | NargsZero => descending d 0
  end.

Fixpoint first_match (ks : list nat) (f : nat -> option (list nat)) : option (list nat) :=
  match ks with
  | [] => None
  | k :: ks' => match f k with Some r => Some r | None => first_match ks' f end
  end.

(** [re.match] of the concatenated groups of [ns] on [pat]: the group
    lengths of the first match in backtracking order. *)
Fixpoint match_groups (ns : list nargs_t) (pat : list pchar) : option (list nat) :=
  match ns with
  | [] => Some []
  | n :: ns' =>
      first_match (candidates n pat)
        (fun k => match match_groups ns' (drop k pat) with
                  | Some r => Some (k :: r)
                  | None => None
                  end)
  end.

Definition nargs_of (p : ArgumentParser) (i : nat) : nargs_t :=
  match actions p !! i with Some a => nargs a | None => NargsNone end.

(** [_match_arguments_partial]: the longest prefix of the remaining
    positionals whose groups match. *)
Fixpoint match_arguments_partial_from (p : ArgumentParser) (i : nat)
    (acts : list nat) (pat : list pchar) : list nat :=
  match i with
  | 0 => []
  | S i' =>
      match match_groups (map (nargs_of p) (take i acts)) pat with
      | Some r => r
      | None => match_arguments_partial_from p i' acts pat
      end
  end.

Definition match_arguments_partial (p : ArgumentParser) (acts : list nat)
    (pat : list pchar) : list nat :=
  match_arguments_partial_from p (length acts) acts pat.

(** [_match_argument] for an option: '--' is not allowed, so the groups are
    one A (nargs=None), at most one A ('?'), a run of A ('*') and nothing (0). *)
Definition match_argument (a : Action) (pat : list pchar) : result nat :=
  match nargs a with
  | NargsNone =>
      match pat with
      | PA :: _ => Ok 1
      | _ => Error (ExpectedOneArgument (get_action_name a))
      end
  | NargsOptional => match pat with PA :: _ => Ok 1 | _ => Ok 0 end
  | NargsZeroOrMore => Ok (run_length is_A pat)
  | NargsZero => Ok 0
  end.

(** *** Taking actions *)

(** The state [_parse_known_args] threads through its closures. *)
Record pstate := mkState {
  namespace : gmap string pyval;
  seen_actions : list nat;
  extras : list string;
  positionals : list nat
}.

Definition set_namespace (ns : gmap string pyval) (st : pstate) : pstate :=
  {| namespace := ns; seen_actions := seen_actions st;
     extras := extras st; positionals := positionals st |}.
Definition add_seen (i : nat) (st : pstate) : pstate :=
  {| namespace := namespace st; seen_actions := i :: seen_actions st;
     extras := extras st; positionals := positionals st |}.
Definition add_extras (l : list string) (st : pstate) : pstate :=
  {| namespace := namespace st; seen_actions := seen_actions st;
     extras := extras st ++ l; positionals := positionals st |}.
Definition set_positionals (l : list nat) (st : pstate) : pstate :=
  {| namespace := namespace st; seen_actions := seen_actions st;
     extras := extras st; positionals := l |}.

(** [_check_value]: [value not in action.choices]; the choices of these
    parsers are strings, so only a [str] can be among them. *)
Definition check_value (a : Action) (value : pyval) : result unit :=
  match choices a with
  | None => Ok tt
  | Some cs =>
      match value with
      | PStr s =>
          if in_list s cs then Ok tt
          else Error (InvalidChoice (get_action_name a) value)
      | _ => Error (InvalidChoice (get_action_name a) value)
      end
  end.

(** [list.remove(x)] where [x] occurs, the list itself otherwise. *)
Fixpoint remove_first (x : string) (l : list string) : list string :=
  match l with
  | [] => []
  | y :: l' => if String.eqb x y then l' else y :: remove_first x l'
  end.

Fixpoint check_values (a : Action) (vs : list string) : result unit :=
  match vs with
  | [] => Ok tt
  | v :: vs' => _ ← check_value a (PStr v); check_values a vs'
  end.

(** [_get_values] ([type] is the identity). *)
Definition get_values (a : Action) (arg_strings : list string) : result pyval :=
  let arg_strings := remove_first "--" arg_strings in
  let no_args := match arg_strings with [] => true | _ => false end in
  let as_list := _ ← check_values a arg_strings; Ok (PList arg_strings) in
  if no_args && bool_decide (nargs a = NargsOptional) then
    (* optional argument produces a default when not present *)
    let value :=
      if is_positional_action a
      then match default a with Some v => v | None => PNone end
      else const a in
    match value with
    | PStr _ => _ ← check_value a value; Ok value
    | _ => Ok value
    end
  else if no_args && bool_decide (nargs a = NargsZeroOrMore) && is_positional_action a then
    (* nargs='*' on a positional without arguments: the default unless it is None *)
    let value :=
      match default a with
      | Some PNone | None => PList arg_strings
      | Some v => v
      end in
    _ ← check_value a value; Ok value
  else
    match arg_strings with
    | [arg_string] =>
        if bool_decide (nargs a = NargsNone) || bool_decide (nargs a = NargsOptional)
        then _ ← check_value a (PStr arg_string); Ok (PStr arg_string)
        else as_list
    | _ => as_list
    end.

(** [take_action]: the action is noted as seen, its values are converted
    and checked, and the action is called: a store action sets its
    [dest], the help action prints the help and exits. *)
Definition take_action (p : ArgumentParser) (i : nat) (argument_strings : list string)
    (st : pstate) : result pstate :=
  match actions p !! i with
  | None => Ok st
  | Some a =>
      let st := add_seen i st in
      argument_values ← get_values a argument_strings;
      match kind a, dest a with
      | Help, _ => Error HelpRequested
      | Store, Some d => Ok (set_namespace (<[d := argument_values]> (namespace st)) st)
      | Store, None => Ok st
      end
  end.

Fixpoint take_actions (p : ArgumentParser) (tuples : list (nat * list string))
    (st : pstate) : result pstate :=
  match tuples with
  | [] => Ok st
  | (i, args) :: tuples' => st' ← take_action p i args st; take_actions p tuples' st'
  end.

(** The slices [consume_positionals] hands to the matched positionals. *)
Fixpoint slices (acts counts : list nat) (toks : list string) : list (nat * list string) :=
  match acts, counts with
  | i :: acts', c :: counts' => (i, take c toks) :: slices acts' counts' (drop c toks)
  | _, _ => []
  end.

(** [consume_positionals]: the new state and the number of strings used. *)
Definition consume_positionals (p : ArgumentParser) (st : pstate)
    (items : list (string * arg_class)) : result (pstate * nat) :=
  let arg_counts := match_arguments_partial p (positionals st) (pattern items) in
  st' ← take_actions p (slices (positionals st) arg_counts (map fst items)) st;
  Ok (set_positionals (drop (length arg_counts) (positionals st)) st',
      foldr Nat.add 0 arg_counts).

(** The tuple of an option without explicit argument: it takes the
    arguments that follow it. *)
Definition following_tuples (p : ArgumentParser) (rest : list (string * arg_class))
    (i : nat) : result (list (nat * list string) * nat) :=
  match actions p !! i with
  | None => Ok ([], 1)
  | Some a =>
      arg_count ← match_argument a (pattern rest);
      Ok ([(i, take arg_count (map fst rest))], 1 + arg_count)
  end.

(** The [while True] loop of [consume_optional] on an explicit argument
    (the text after '=' or glued to a one-letter option): an option that
    takes no argument passes the rest on as further one-letter options. *)
Fixpoint explicit_tuples (p : ArgumentParser) (rest : list (string * arg_class))
    (i : nat) (option_string explicit_arg : string) {struct explicit_arg}
    : result (list (nat * list string) * nat) :=
  match actions p !! i with
  | None => Ok ([], 1)
  | Some a =>
      arg_count ← match_argument a [PA];
      if Nat.eqb arg_count 0 && negb (second_is_dash option_string)
         && negb (String.eqb explicit_arg EmptyString)
      then
        match explicit_arg with
        | String c new_explicit_arg =>
            let option_string' := String "-"%char (String c EmptyString) in
            match assoc option_string' (option_string_actions p) with
            | Some j =>
                r ← match new_explicit_arg with
                    | EmptyString => following_tuples p rest j
                    | _ => explicit_tuples p rest j option_string' new_explicit_arg
                    end;
                Ok ((i, []) :: fst r, snd r)
            | None => Error (IgnoredExplicitArgument (get_action_name a) explicit_arg)
            end
        | EmptyString => Error (IgnoredExplicitArgument (get_action_name a) explicit_arg)
        end
      else if Nat.eqb arg_count 1 then Ok ([(i, [explicit_arg])], 1)
      else Error (IgnoredExplicitArgument (get_action_name a) explicit_arg)
  end.

(** [consume_optional] at an option string: the new state and the number
    of strings used (the option string and its arguments). *)
Definition consume_optional (p : ArgumentParser) (st : pstate)
    (items : list (string * arg_class)) : result (pstate * nat) :=
  match items with
  | (arg_string, ClsO act option_string explicit_arg) :: rest =>
      match act with
      | None => Ok (add_extras [arg_string] st, 1)
      | Some i =>
          r ← match explicit_arg with
              | Some e => explicit_tuples p rest i option_string e
              | None => following_tuples p rest i
              end;
          st' ← take_actions p (fst r) st;
          Ok (st', snd r)
      end
  | _ => Ok (st, 1)
  end.

(** *** The main loop *)

Definition is_option (it : string * arg_class) : bool :=
  match snd it with ClsO _ _ _ => true | _ => false end.

(** The number of strings before the next option string. *)
Fixpoint before_option (items : list (string * arg_class)) : nat :=
  match items with
  | it :: items' => if is_option it then 0 else S (before_option items')
  | [] => 0
  end.

(** [while start_index <= max_option_string_index]: positionals and
    optionals are consumed in turn until no option string is left.  Every
    round uses at least one string, so [fuel] need only bound the number
    of strings left. *)
Fixpoint parse_loop (p : ArgumentParser) (fuel : nat) (st : pstate)
    (items : list (string * arg_class)) : result (pstate * list (string * arg_class)) :=
  if negb (existsb is_option items) then Ok (st, items)
  else
    match fuel with
    | 0 => Ok (st, items)
    | S fuel' =>
        match before_option items with
        | 0 =>
            r ← consume_optional p st items;
            parse_loop p fuel' (fst r) (drop (snd r) items)
        | S _ as k =>
            r ← consume_positionals p st items;
            match snd r with
            | S _ as n => parse_loop p fuel' (fst r) (drop n items)
            | 0 =>
                let st' := add_extras (map fst (take k items)) (fst r) in
                r' ← consume_optional p st' (drop k items);
                parse_loop p fuel' (fst r') (drop (snd r') (drop k items))
            end
        end
    end.

(** The namespace [parse_known_args] starts from: every default whose
    [dest] is not yet set. *)
Definition initial_namespace (p : ArgumentParser) : gmap string pyval :=
  fold_left (fun ns a =>
               match dest a, default a with
               | Some d, Some v =>
                   match ns !! d with Some _ => ns | None => <[d := v]> ns end
               | _, _ => ns
               end)
            (actions p) ∅.

Definition required_actions (p : ArgumentParser) (seen : list nat) : list string :=
  flat_map (fun ia => if negb (bool_decide (fst ia ∈ seen)) && required (snd ia)
                      then [get_action_name (snd ia)] else [])
           (imap (fun i a => (i, a)) (actions p)).

(** [parse_known_args]: the namespace and the strings left over. *)
Definition parse_known_args (p : ArgumentParser) (args : list string)
    : result (gmap string pyval * list string) :=
  let st0 := {| namespace := initial_namespace p; seen_actions := [];
                extras := []; positionals := get_positional_actions p |} in
  items ← classify p args;
  r ← parse_loop p (length items) st0 items;
  r' ← consume_positionals p (fst r) (snd r);
  let st := add_extras (map fst (drop (snd r') (snd r))) (fst r') in
  match required_actions p (seen_actions st) with
  | [] => Ok (namespace st, extras st)
  | names => Error (RequiredMissing names)
  end.

(** [parse_args]: left-over strings are an error. *)
Definition parse_args (p : ArgumentParser) (args : list string)
    : result (gmap string pyval) :=
  r ← parse_known_args p args;
  match snd r with
  | [] => Ok (fst r)
  | argv => Error (UnrecognizedArguments argv)
  end.

End argparse.

(** ** Data frames (pandas) *)

(** An index entry: a scalar, or the tuple of a MultiIndex. *)
Inductive label :=
  | LScalar (v : scalar)
  | LTuple (t : list scalar).

#[global] Instance label_eq_dec : EqDecision label.
Proof. solve_decision. Defined.

(** A frame: its column labels, its index (one entry per row) and its rows,
    each row holding one cell per column. *)
Record DataFrame := mkFrame {
  columns : list string;
  index : list label;
  rows : list (list scalar)
}.

#[global] Instance DataFrame_eq_dec : EqDecision DataFrame.
Proof. solve_decision. Defined.

Fixpoint position (c : string) (cols : list string) : option nat :=
  match cols with
  | [] => None
  | c' :: cols' => if String.eqb c c' then Some 0 else S <$> position c cols'
  end.

(** The cell of [row] under column [c]; a cell that is not there reads as
    a missing value. *)
Definition cell (cols : list string) (row : list scalar) (c : string) : scalar :=
  match position c cols with
  | Some i => match row !! i with Some v => v | None => SNaN end
  | None => SNaN
  end.

(** [df[c]]: the values of column [c], one per row. *)
Definition column_values (df : DataFrame) (c : string) : list scalar :=
  map (fun row => cell (columns df) row c) (rows df).

(** The cells of [row] whose column is not among [keys]. *)
Fixpoint drop_cells (keys cols : list string) (row : list scalar) : list scalar :=
  match cols, row with
  | c :: cols', v :: row' =>
      if in_list c keys then drop_cells keys cols' row'
      else v :: drop_cells keys cols' row'
  | _, _ => []
  end.

(** The index [set_index] builds from the key columns: their values for
    one key, the tuples of a MultiIndex for several. *)
Definition index_of_keys (df : DataFrame) (keys : list string) : list label :=
  map (fun row =>
         match keys with
         | [k] => LScalar (cell (columns df) row k)
         | _ => LTuple (map (cell (columns df) row) keys)
         end)
      (rows df).

(** The frame [df.set_index(keys)] returns ([drop=True], [inplace=False]):
    the key columns become the index and leave the columns. *)
Definition set_index_frame (df : DataFrame) (keys : list string) : DataFrame :=
  {| columns := filter (fun c => in_list c keys = false) (columns df);
     index := index_of_keys df keys;
     rows := map (drop_cells keys (columns df)) (rows df) |}.

(** ['_'.join(row)]: every item must be a [str]. *)
Fixpoint join_strs (sep : string) (l : list string) : string :=
  match l with
  | [] => EmptyString
  | [s] => s
  | s :: l' => s +:+ sep +:+ join_strs sep l'
  end.

Definition as_str (v : scalar) : option string :=
  match v with SStr s => Some s | _ => None end.

Fixpoint chars (s : string) : list string :=
  match s with
  | EmptyString => []
  | String c s' => String c EmptyString :: chars s'
  end.

(** ['_'.join(row)] for an entry of [index.values]; [None] stands for the
    TypeError Python raises on an item that is not a [str] (a [str] entry is
    itself a sequence of one-character strings). *)
Definition join_label (sep : string) (row : label) : option string :=
  match row with
  | LTuple t => join_strs sep <$> mapM as_str t
  | LScalar (SStr s) => Some (join_strs sep (chars s))
  | LScalar _ => None
  end.

(** ** Figures (seaborn) *)

(** An f-string, by its parts: literal text, and values formatted in place
    (a [str] as it is, a list by its [repr]). *)
Inductive fpart :=
  | FLit (s : string)
  | FVal (v : pyval).

(** The [col] argument of [displot]: a column name or a vector of values. *)
Inductive col_spec :=
  | ColName (c : string)
  | ColVector (v : list label).

(** What a figure-level plot retains of the call that built it. *)
Record Figure := mkFigure {
  fig_data : DataFrame;            (* data= *)
  fig_x : pyval;                   (* x= *)
  fig_y : option pyval;            (* y=, when given *)
  fig_kind : string;               (* kind=, 'hist' when not given *)
  fig_kde : bool;                  (* kde= *)
  fig_bins : option string;        (* bins= *)
  fig_color : option string;       (* color= *)
  fig_col : option (list label);   (* the facet variable, one value per row *)
  fig_col_wrap : option nat;       (* col_wrap= *)
  fig_titles : option (list fpart);
  fig_suptitle : option (list fpart);
  fig_top : option (nat * nat)     (* subplots_adjust(top=n/d) *)
}.

#[global] Instance fpart_eq_dec : EqDecision fpart.
Proof. solve_decision. Defined.
#[global] Instance Figure_eq_dec : EqDecision Figure.
Proof. solve_decision. Defined.

Definition notnull (v : label) : bool :=
  match v with LScalar SNaN => false | _ => true end.

(** [vector.unique()]: the distinct items, each where it first occurs. *)
Fixpoint unique (l : list label) : list label :=
  match l with
  | [] => []
  | x :: l' => x :: filter (fun y => y <> x) (unique l')
  end.

Definition is_number (x : label) : bool :=
  match x with LScalar (SInt _) => true | _ => false end.

Definition level_leb (x y : label) : bool :=
  match x, y with
  | LScalar (SInt a), LScalar (SInt b) => Z.leb a b
  | _, _ => true
  end.

(** [np.sort] on numbers. *)
Fixpoint insert_level (x : label) (l : list label) : list label :=
  match l with
  | [] => [x]
  | y :: l' => if level_leb x y then x :: l else y :: insert_level x l'
  end.

Definition sort_levels (l : list label) : list label := foldr insert_level [] l.

(** The levels of a facet variable ([categorical_order]): its distinct
    values in the order they first occur, sorted when they are all numbers,
    missing values left out. *)
Definition category_levels (v : list label) : list label :=
  let order := unique (filter (fun x => notnull x = true) v) in
  if forallb is_number order then sort_levels order else order.

(** A grid needs a panel: the facet variable has a level. *)
Definition has_levels (v : list label) : bool :=
  match category_levels v with [] => false | _ :: _ => true end.

(** The panels of the grid: one per level of the facet variable. *)
Definition facet_names (fig : Figure) : list label :=
  match fig_col fig with
  | Some v => category_levels v
  | None => []
  end.

(** The number of subplots of the figure: one per facet, a single plot
    when the figure is not faceted. *)
Definition subplots (fig : Figure) : nat :=
  match fig_col fig with
  | Some _ => length (facet_names fig)
  | None => 1
  end.

(** ** The interpreter state *)

Definition loc := positive.

Inductive event :=
  | EvDisplot (fig : Figure)              (* a plot was built *)
  | EvSavefig (path : string) (fig : Figure)
  | EvOpen (path : string)
  | EvShow (img : Figure).

(** The frames on the heap, the image files on disk (a file holds the figure
    it was rendered from), and what happened so far, latest last. *)
Record World := mkWorld {
  heap : gmap loc DataFrame;
  files : gmap string Figure;
  log : list event
}.

Inductive exn :=
  | SystemExit (code : Z) (why : argparse.error)
  | TypeError
  | ValueError
  | KeyError
  | IndexError
  | AttributeError
  | FileNotFoundError.

Inductive outcome (A : Type) :=
  | Returned (a : A)
  | Raised (e : exn).
Arguments Returned {A} a.
Arguments Raised {A} e.

(** A computation: from a world to an outcome and the world it leaves. *)
Definition M (A : Type) : Type := World -> outcome A * World.

#[global] Instance M_ret : MRet M := fun A a w => (Returned a, w).
#[global] Instance M_bind : MBind M := fun A B f m w =>
  match m w with
  | (Returned a, w') => f a w'
  | (Raised e, w') => (Raised e, w')
  end.

Definition raise {A} (e : exn) : M A := fun w => (Raised e, w).

Definition emit (ev : event) : M unit := fun w =>
  (Returned tt, {| heap := heap w; files := files w; log := log w ++ [ev] |}).

(** Reading the frame an object reference points to. *)
Definition deref (l : loc) : M DataFrame := fun w =>
  match heap w !! l with
  | Some df => (Returned df, w)
  | None => (Raised AttributeError, w)
  end.

(** A new frame object. *)
Definition alloc (df : DataFrame) : M loc := fun w =>
  let l := fresh (dom (heap w)) in
  (Returned l, {| heap := <[l := df]> (heap w); files := files w; log := log w |}).

Definition store (l : loc) (df : DataFrame) : M unit := fun w =>
  (Returned tt, {| heap := <[l := df]> (heap w); files := files w; log := log w |}).

(** *** pandas operations on frame objects *)

(** [data.set_index(keys)]: KeyError unless every key is a column.  Without
    [inplace=True] the result is a new object and [data] is left alone. *)
Definition set_index (data : loc) (keys : list string) : M loc :=
  df ← deref data;
  if forallb (fun k => in_list k (columns df)) keys
  then alloc (set_index_frame df keys)
  else raise KeyError.

(** [frame.index.values] *)
Definition index_values (frame : loc) : M (list label) :=
  df ← deref frame; mret (index df).

(** [frame.index = labels]: the object itself changes; pandas refuses a
    list whose length is not the number of rows. *)
Definition assign_index (frame : loc) (labels : list label) : M unit :=
  df ← deref frame;
  if Nat.eqb (length labels) (length (rows df))
  then store frame {| columns := columns df; index := labels; rows := rows df |}
  else raise ValueError.

(** [['_'.join(row) for row in values]]: the first row with an item that
    is not a [str] raises TypeError. *)
Fixpoint join_rows (values : list label) : M (list string) :=
  match values with
  | [] => mret []
  | row :: values' =>
      match join_label "_" row with
      | Some s => labels ← join_rows values'; mret (s :: labels)
      | None => raise TypeError
      end
  end.

(** *** seaborn and the figure *)

(** A value given for [x] or [y] is accepted when it is [None] or an empty
    vector (both are ignored: no variable), the name of a column of the
    frame, or a vector with one item per row. *)
Definition is_variable (df : DataFrame) (v : pyval) : bool :=
  match v with
  | PNone => true
  | PStr name => in_list name (columns df)
  | PList [] => true
  | PList l => Nat.eqb (length l) (length (rows df))
  end.

(** The values of a variable are numbers (a missing value counts as one),
    or there is no variable. *)
Definition is_numeric (df : DataFrame) (v : pyval) : bool :=
  match v with
  | PNone => true
  | PStr name =>
      forallb (fun c => match c with SStr _ => false | _ => true end) (column_values df name)
  | PList [] => true
  | PList _ => false
  end.

(** A plot of kind 'kde' takes numeric variables only. *)
Definition kde_accepts (df : DataFrame) (kind : option string) (x : pyval) (y : option pyval)
    : bool :=
  match kind with
  | Some k =>
      negb (String.eqb k "kde") ||
      (is_numeric df x && match y with Some v => is_numeric df v | None => true end)
  | None => true
  end.

(** [sns.displot(data=, x=, y=, kind=, kde=, bins=, color=, col=, col_wrap=)].
    What is given for [x] and [y] must be variables of the plot, a name
    given for [col] must be a column of [data], and a vector given for
    [col] must have one value per row (ValueError otherwise).  The figure
    is faceted on the values of [col], one panel per level; a facet
    variable without a level (a frame without rows, a column of missing
    values) leaves the grid without a panel, which matplotlib refuses
    (ValueError).  Once the grid is there, a plot of kind 'kde' is refused
    for a variable that is not numeric (TypeError). *)
Definition displot (data : loc) (x : pyval) (y : option pyval)
    (kind : option string) (kde : bool) (bins color : option string)
    (col : option col_spec) (col_wrap : option nat) : M Figure :=
  df ← deref data;
  if negb (is_variable df x) then raise ValueError
  else if negb (match y with Some v => is_variable df v | None => true end)
  then raise ValueError
  else
    facet ← match col with
            | None => mret None
            | Some (ColName c) =>
                if in_list c (columns df)
                then mret (Some (map LScalar (column_values df c)))
                else raise ValueError
            | Some (ColVector v) =>
                if Nat.eqb (length v) (length (rows df))
                then mret (Some v)
                else raise ValueError
            end;
    if negb (match facet with Some v => has_levels v | None => true end)
    then raise ValueError
    else if negb (kde_accepts df kind x y) then raise TypeError
    else
    let plot :=
      {| fig_data := df; fig_x := x; fig_y := y;
         fig_kind := match kind with Some k => k | None => "hist" end;
         fig_kde := kde; fig_bins := bins; fig_color := color;
         fig_col := facet; fig_col_wrap := col_wrap;
         fig_titles := None; fig_suptitle := None; fig_top := None |} in
    _ ← emit (EvDisplot plot);
    mret plot.

Definition set_titles (t : list fpart) (plot : Figure) : Figure :=
  {| fig_data := fig_data plot; fig_x := fig_x plot; fig_y := fig_y plot;
     fig_kind := fig_kind plot; fig_kde := fig_kde plot; fig_bins := fig_bins plot;
     fig_color := fig_color plot; fig_col := fig_col plot;
     fig_col_wrap := fig_col_wrap plot;
     fig_titles := Some t; fig_suptitle := fig_suptitle plot; fig_top := fig_top plot |}.

Definition suptitle (t : list fpart) (plot : Figure) : Figure :=
  {| fig_data := fig_data plot; fig_x := fig_x plot; fig_y := fig_y plot;
     fig_kind := fig_kind plot; fig_kde := fig_kde plot; fig_bins := fig_bins plot;
     fig_color := fig_color plot; fig_col := fig_col plot;
     fig_col_wrap := fig_col_wrap plot;
     fig_titles := fig_titles plot; fig_suptitle := Some t; fig_top := fig_top plot |}.

Definition subplots_adjust (top : nat * nat) (plot : Figure) : Figure :=
  {| fig_data := fig_data plot; fig_x := fig_x plot; fig_y := fig_y plot;
     fig_kind := fig_kind plot; fig_kde := fig_kde plot; fig_bins := fig_bins plot;
     fig_color := fig_color plot; fig_col := fig_col plot;
     fig_col_wrap := fig_col_wrap plot;
     fig_titles := fig_titles plot; fig_suptitle := fig_suptitle plot;
     fig_top := Some top |}.

(** [plot.figure.savefig(fname)]: the file [fname] now holds the figure.
    A name that is not a [str] cannot be written to.  This is matplotlib on
    a name it writes as given: one that ends in the extension of a format
    it knows, in a directory that exists (it adds '.png' to a name without
    an extension, and fails on an unknown format or a missing directory). *)
Definition savefig (plot : Figure) (fname : pyval) : M unit :=
  match fname with
  | PStr path => fun w =>
      (Returned tt,
       {| heap := heap w; files := <[path := plot]> (files w);
          log := log w ++ [EvSavefig path plot] |})
  | _ => raise TypeError
  end.

(** [Image.open(fp)]: the image the file holds, FileNotFoundError when
    there is no such file. *)
Definition Image_open (fp : pyval) : M Figure :=
  match fp with
  | PStr path => fun w =>
      match files w !! path with
      | Some img =>
          (Returned img,
           {| heap := heap w; files := files w; log := log w ++ [EvOpen path] |})
      | None => (Raised FileNotFoundError, w)
      end
  | _ => raise AttributeError
  end.

(** [img.show()] *)
Definition Image_show (img : Figure) : M unit := emit (EvShow img).

(** *** Reading the parsed arguments *)

(** [parser.parse_args(args)]: a usage error or the help action ends in
    [SystemExit].  The exit is kept with the error that caused it; the text
    the parser writes before it exits (usage line, message, help) is not,
    and writing it is taken to succeed. *)
Definition parse_args (parser : argparse.ArgumentParser) (args : list string)
    : M (gmap string pyval) :=
  match argparse.parse_args parser args with
  | argparse.Ok ns => mret ns
  | argparse.Error e => raise (SystemExit (argparse.exit_status e) e)
  end.

(** [parsed_args.name] *)
Definition getattr (ns : gmap string pyval) (name : string) : M pyval :=
  match ns !! name with
  | Some v => mret v
  | None => raise AttributeError
  end.

(** [len(categoricals)] and [categoricals[0]] need a list ([len(None)]
    is a TypeError); argparse stores a list for [nargs='*']. *)
Definition expect_list (v : pyval) : M (list string) :=
  match v with PList l => mret l | _ => raise TypeError end.

(** ** Sample data *)

(** Modelled from the spec: [utils.get_numericals] is not part of
    [src/dist.py]; the spec calls a column numerical when it holds
    quantitative values, so this instance keeps the columns whose cells are
    all integers. *)
Definition sample_get_numericals (df : DataFrame) : list string :=
  filter (fun c => forallb (fun v => match v with SInt _ => true | _ => false end)
                           (column_values df c) = true)
         (columns df).

Fixpoint ends_with (suffix s : string) : bool :=
  String.eqb suffix s ||
  match s with
  | EmptyString => false
  | String _ s' => ends_with suffix s'
  end.

(** Modelled from the spec: [utils.check_valid_png] is not part of
    [src/dist.py]; the spec has it return -1 for a name without a recognized
    image extension, and the handlers call it to check that the output file
    is a png.  This instance accepts the names that end in [.png]. *)
Definition sample_check_valid_png (name : pyval) : Z :=
  match name with
  | PStr s => if ends_with ".png" s then 0%Z else (-1)%Z
  | _ => (-1)%Z
  end.

(** A small frame: two measurements, two string-valued groupings, a year,
    and a measurement whose name starts with a dash. *)
Definition penguins : DataFrame :=
  {| columns := ["bill"; "mass"; "species"; "sex"; "year"; "-dG"];
     index := [LScalar (SInt 0); LScalar (SInt 1); LScalar (SInt 2); LScalar (SInt 3)];
     rows := [ [SInt 39; SInt 3750; SStr "Adelie"; SStr "m"; SInt 2007; SInt 1];
               [SInt 46; SInt 4100; SStr "Gentoo"; SStr "f"; SInt 2007; SInt 2];
               [SInt 38; SInt 3800; SStr "Adelie"; SStr "m"; SInt 2008; SInt 3];
               [SInt 49; SInt 5200; SStr "Gentoo"; SStr "m"; SInt 2008; SInt 4] ] |}.

Definition data0 : loc := 1%positive.

(** A world whose only object is the frame, with no file on disk. *)
Definition world0 : World :=
  {| heap := {[ data0 := penguins ]}; files := ∅; log := [] |}.


(** ** Notions used by the statements *)

(** [sim r' r]: whenever the parser without choices returns [x], the parser
    with choices returns [x] too or stops on an invalid choice. *)
Definition sim {A} (r' r : argparse.result A) : Prop :=
  forall x, r' = argparse.Ok x ->
    r = argparse.Ok x \/ exists a v, r = argparse.Error (argparse.InvalidChoice a v).


(** The state of [parse_known_args] on its way through the argument
    strings: after [rounds] rounds of its loop and, once no option string is
    left, after the positionals that follow the last option.  What the
    parser checks at the end (missing and unrecognized arguments) is not
    part of it. *)
Definition read_state (p : argparse.ArgumentParser) (rounds : nat) (args : list string)
    : argparse.result argparse.pstate :=
  let st0 := {| argparse.namespace := argparse.initial_namespace p;
                argparse.seen_actions := [];
                argparse.extras := [];
                argparse.positionals := argparse.get_positional_actions p |} in
  items ← argparse.classify p args;
  r ← argparse.parse_loop p rounds st0 items;
  if existsb argparse.is_option (snd r) then argparse.Ok (fst r)
  else r' ← argparse.consume_positionals p (fst r) (snd r); argparse.Ok (fst r').

(** The names the parser has read by then. *)
Definition names_read (p : argparse.ArgumentParser) (rounds : nat) (args : list string)
    : argparse.result (gmap string pyval) :=
  argparse.namespace <$> read_state p rounds args.

(** Every value of the namespace is the default of an action with that
    [dest], or what [_get_values] returned for such an action. *)
Definition ns_justified (p : argparse.ArgumentParser) (ns : gmap string pyval) : Prop :=
  forall d v, ns !! d = Some v ->
    exists a, a ∈ argparse.actions p /\ argparse.dest a = Some d /\
      (argparse.default a = Some v \/ exists args, argparse.get_values a args = argparse.Ok v).


(** The composite labels of the rows of [df]: the values of the
    categoricals of each row, joined by underscores ([None] when some value
    is not a [str]). *)
Definition composite_labels (df : DataFrame) (categoricals : list string)
    : option (list string) :=
  mapM (join_label "_") (index_of_keys df categoricals).

(** The frame [plot_data] holds once its index is the composite labels. *)
Definition reindexed (df : DataFrame) (categoricals labels : list string) : DataFrame :=
  {| columns := columns (set_index_frame df categoricals);
     index := map (fun s => LScalar (SStr s)) labels;
     rows := rows (set_index_frame df categoricals) |}.

Definition with_heap (h : gmap loc DataFrame) (w : World) : World :=
  {| heap := h; files := files w; log := log w |}.
Definition with_event (ev : event) (w : World) : World :=
  {| heap := heap w; files := files w; log := log w ++ [ev] |}.

(** The figure a [displot] call returns. *)
Definition displot_figure (df : DataFrame) (x : pyval) (y : option pyval) (kind : option string)
    (kde : bool) (bins color : option string) (facet : option (list label))
    (col_wrap : option nat) : Figure :=
  {| fig_data := df; fig_x := x; fig_y := y;
     fig_kind := match kind with Some k => k | None => "hist" end;
     fig_kde := kde; fig_bins := bins; fig_color := color;
     fig_col := facet; fig_col_wrap := col_wrap;
     fig_titles := None; fig_suptitle := None; fig_top := None |}.

(** The facet variable [displot] derives from its [col] argument ([None]
    when seaborn rejects the argument). *)
Definition facet_of (df : DataFrame) (col : option col_spec) : option (option (list label)) :=
  match col with
  | None => Some None
  | Some (ColName c) =>
      if in_list c (columns df) && has_levels (map LScalar (column_values df c))
      then Some (Some (map LScalar (column_values df c))) else None
  | Some (ColVector v) =>
      if Nat.eqb (length v) (length (rows df)) && has_levels v then Some (Some v) else None
  end.

(** What the builders add to the figure of a grid by categoricals. *)
Definition decorate (title : list fpart) (plot : Figure) : Figure :=
  suptitle title (subplots_adjust (9, 10) plot).

Definition str_labels (labels : list string) : list label :=
  map (fun s => LScalar (SStr s)) labels.

(** What follows the builder in both handlers: the figure is saved, the
    file is opened and the image is shown. *)
Definition save_and_show (build : M Figure) (outfile : pyval) : M unit :=
  plot ← build;
  _ ← savefig plot outfile;
  img ← Image_open outfile;
  Image_show img.

(** What a plot builder may do to the world: objects that exist stay as
    they are, no file changes, and the log grows by the figure built, if any. *)
Definition builds_only (data : loc) (df : DataFrame) (w : World) (m : M Figure) : Prop :=
  heap w ⊆ heap (snd (m w)) /\
  heap (snd (m w)) !! data = Some df /\
  files (snd (m w)) = files w /\
  match fst (m w) with
  | Returned plot => exists raw, log (snd (m w)) = log w ++ [EvDisplot raw]
  | Raised _ => log (snd (m w)) = log w
  end.

(** Every value of the listed columns is a [str]. *)
Definition all_strings (df : DataFrame) (categoricals : list string) : Prop :=
  forall c, c ∈ categoricals -> forall x, x ∈ column_values df c -> exists s, x = SStr s.

(** Every value of the column is a number. *)
Definition all_numbers (df : DataFrame) (c : string) : Prop :=
  forall x, x ∈ column_values df c -> exists z, x = SInt z.

(** What a handler may do to the world, whatever its arguments: the
    objects that exist stay as they are; a call that returns has either
    done nothing, or built one figure, saved it, opened that file and
    shown its image, in this order; a call that raises has written no file. *)
Definition handler_effect (data : loc) (w : World) (r : outcome unit * World) : Prop :=
  heap w ⊆ heap (snd r) /\
  heap (snd r) !! data = heap w !! data /\
  match fst r with
  | Returned _ =>
      snd r = w \/
      exists raw plot path,
        files (snd r) = <[path := plot]> (files w) /\
        log (snd r) = log w ++ [EvDisplot raw; EvSavefig path plot; EvOpen path; EvShow plot]
  | Raised _ =>
      files (snd r) = files w /\
      (log (snd r) = log w \/ exists raw, log (snd r) = log w ++ [EvDisplot raw])
  end.

(** The distinct values of a column, missing values left out. *)
Definition distinct_values (df : DataFrame) (c : string) : list scalar :=
  remove_dups (filter (fun v => v <> SNaN) (column_values df c)).

(** [label] is the strings of [strs] with an underscore between each two. *)
Inductive underscore_joined : list string -> string -> Prop :=
  | joined_none : underscore_joined [] EmptyString
  | joined_one s : underscore_joined [s] s
  | joined_more s s' strs label :
      underscore_joined (s' :: strs) label ->
      underscore_joined (s :: s' :: strs) (s +:+ "_" +:+ label).

(** [label] is the values of the listed columns in [row], all of them
    strings, joined by underscores. *)
Definition joined_row (df : DataFrame) (categoricals : list string)
    (row : list scalar) (label : string) : Prop :=
  exists strs,
    map (cell (columns df) row) categoricals = map SStr strs /\
    underscore_joined strs label.

(** The frame the univariate grid is plotted from: the re-indexed copy,
    without the categorical columns, for two or more categoricals, the
    frame itself for one. *)
Definition univariate_frame (df : DataFrame) (categoricals : list string) : DataFrame :=
  if Nat.ltb 1 (length categoricals) then set_index_frame df categoricals else df.

(** ** The handlers of [dist.py] *)

Inductive command := Univariate | Bivariate.

(** The [dest]s of the required numerical variables of a command. *)
Definition variables_of (c : command) : list string :=
  match c with
  | Univariate => ["var"]
  | Bivariate => ["v1"; "v2"]
  end.

Section dist.

(** [utils.get_numericals(data)]: the names of the numerical columns. *)
Variable get_numericals : DataFrame -> list string.

(** [utils.check_valid_png(name)]: -1 when [name] does not end in a
    recognized image extension. *)
Variable check_valid_png : pyval -> Z.

(** [__plot_dist(data, var)] *)
Definition __plot_dist (data : loc) (var : pyval) : M Figure :=
  plot ← displot data var None None true (Some "sqrt") (Some "r") None None;
  mret (set_titles [FLit "DISTRIBUTION OF "; FVal var] plot).

(** [__plot_dist_by_categoricals(data, var, categoricals)] *)
Definition __plot_dist_by_categoricals (data : loc) (var : pyval)
    (categoricals : list string) : M Figure :=
  plot ←
    (if Nat.ltb 1 (length categoricals) then
       plot_data ← set_index data categoricals;
       values ← index_values plot_data;
       labels ← join_rows values;
       _ ← assign_index plot_data (map (fun s => LScalar (SStr s)) labels);
       col ← index_values plot_data;
       displot plot_data var None None true (Some "sqrt") None
               (Some (ColVector col)) (Some 3)
     else
       match categoricals with
       | c :: _ =>
           displot data var None None true (Some "sqrt") None
                   (Some (ColName c)) (Some 3)
       | [] => raise IndexError
       end);
  mret (suptitle [FLit "DISTRIBUTION OF "; FVal var; FLit " BY ";
                  FVal (PList categoricals)]
          (subplots_adjust (9, 10) plot)).

(** The parser [show_dist] builds. *)
Definition show_dist_parser (df : DataFrame) : argparse.ArgumentParser :=
  let parser := argparse.ArgumentParser_new in
  let parser := argparse.add_argument ["var"] argparse.NargsNone PNone
                  (Some (get_numericals df)) parser in
  let parser := argparse.add_argument ["-o"; "--outfile"] argparse.NargsOptional
                  (PStr "output.png") None parser in
  let parser := argparse.add_argument ["-c"; "--categoricals"] argparse.NargsZeroOrMore
                  (PList []) (Some (columns df)) parser in
  parser.

(** [show_dist(data, args)] *)
Definition show_dist (data : loc) (args : list string) : M unit :=
  df ← deref data;
  parsed_args ← parse_args (show_dist_parser df) args;
  outfile ← getattr parsed_args "outfile";
  if Z.eqb (check_valid_png outfile) (-1) then mret tt
  else
    categoricals ← getattr parsed_args "categoricals";
    var ← getattr parsed_args "var";
    plot ← (if bool_decide (categoricals = PList [])
            then __plot_dist data var
            else cs ← expect_list categoricals;
                 __plot_dist_by_categoricals data var cs);
    _ ← savefig plot outfile;
    img ← Image_open outfile;
    Image_show img.

(** [kind = 'kde' if (plot_type == 'gaussian') else 'hist'] *)
Definition kind_of (plot_type : pyval) : string :=
  if bool_decide (plot_type = PStr "gaussian") then "kde" else "hist".

(** [__plot_biv_dist(data, v1, v2, plot_type)] *)
Definition __plot_biv_dist (data : loc) (v1 v2 plot_type : pyval) : M Figure :=
  let kind := kind_of plot_type in
  plot ← displot data v1 (Some v2) (Some kind) false None None None None;
  mret (set_titles [FLit "DISTRIBUTION OF "; FVal v1; FLit ", "; FVal v2] plot).

(** [__plot_biv_dist_by_categoricals(data, v1, v2, plot_type, categoricals)] *)
Definition __plot_biv_dist_by_categoricals (data : loc) (v1 v2 plot_type : pyval)
    (categoricals : list string) : M Figure :=
  let kind := kind_of plot_type in
  plot ←
    (if Nat.ltb 1 (length categoricals) then
       plot_data ← set_index data categoricals;
       values ← index_values plot_data;
       labels ← join_rows values;
       _ ← assign_index plot_data (map (fun s => LScalar (SStr s)) labels);
       col ← index_values plot_data;
       displot data v1 (Some v2) (Some kind) false None None
               (Some (ColVector col)) (Some 3)
     else
       match categoricals with
       | c :: _ =>
           displot data v1 (Some v2) (Some kind) false None None
                   (Some (ColName c)) (Some 3)
       | [] => raise IndexError
       end);
  mret (suptitle [FLit "DISTRIBUTION OF "; FVal v1; FLit ", "; FVal v2;
                  FLit " BY "; FVal (PList categoricals)]
          (subplots_adjust (9, 10) plot)).

(** The parser [show_biv_dist] builds. *)
Definition show_biv_dist_parser (df : DataFrame) : argparse.ArgumentParser :=
  let parser := argparse.ArgumentParser_new in
  let parser := argparse.add_argument ["v1"] argparse.NargsNone PNone
                  (Some (get_numericals df)) parser in
  let parser := argparse.add_argument ["v2"] argparse.NargsNone PNone
                  (Some (get_numericals df)) parser in
  let parser := argparse.add_argument ["plot_type"] argparse.NargsOptional
                  (PStr "heatmap") (Some ["heatmap"; "gaussian"]) parser in
  let parser := argparse.add_argument ["-o"; "--outfile"] argparse.NargsOptional
                  (PStr "output.png") None parser in
  let parser := argparse.add_argument ["-c"; "--categoricals"] argparse.NargsZeroOrMore
                  (PList []) (Some (columns df)) parser in
  parser.

(** [show_biv_dist(data, args)] *)
Definition show_biv_dist (data : loc) (args : list string) : M unit :=
  df ← deref data;
  parsed_args ← parse_args (show_biv_dist_parser df) args;
  outfile ← getattr parsed_args "outfile";
  if Z.eqb (check_valid_png outfile) (-1) then mret tt
  else
    categoricals ← getattr parsed_args "categoricals";
    v1 ← getattr parsed_args "v1";
    v2 ← getattr parsed_args "v2";
    plot_type ← getattr parsed_args "plot_type";
    plot ← (if bool_decide (categoricals = PList [])
            then __plot_biv_dist data v1 v2 plot_type
            else cs ← expect_list categoricals;
                 __plot_biv_dist_by_categoricals data v1 v2 plot_type cs);
    _ ← savefig plot outfile;
    img ← Image_open outfile;
    Image_show img.

(** The two commands of the module, and what each one runs. *)
Definition parser_of (c : command) (df : DataFrame) : argparse.ArgumentParser :=
  match c with
  | Univariate => show_dist_parser df
  | Bivariate => show_biv_dist_parser df
  end.

Definition handle (c : command) : loc -> list string -> M unit :=
  match c with
  | Univariate => show_dist
  | Bivariate => show_biv_dist
  end.

(** A namespace names an invalid variable or categorical when a required
    variable of the command is a name outside the numerical columns, or the
    categoricals hold a name that is not a column. *)
Definition invalid_names (c : command) (df : DataFrame) (ns : gmap string pyval) : Prop :=
  (exists d v, d ∈ variables_of c /\ ns !! d = Some (PStr v) /\ v ∉ get_numericals df) \/
  (exists cs x, ns !! "categoricals" = Some (PList cs) /\ x ∈ cs /\ x ∉ columns df).

(** The namespace of a univariate call that gives only the variable: the
    defaults, and the variable. *)
Definition uni_ns (df : DataFrame) (var : string) : gmap string pyval :=
  <["var" := PStr var]> (argparse.initial_namespace (show_dist_parser df)).

(** The namespace of a bivariate call that gives the two variables and a
    plot type ('heatmap' when the call gives none). *)
Definition biv_ns (df : DataFrame) (v1 v2 plot_type : string) : gmap string pyval :=
  <["plot_type" := PStr plot_type]>
    (<["v2" := PStr v2]>
       (<["v1" := PStr v1]> (argparse.initial_namespace (show_biv_dist_parser df)))).


(** ** The help message *)

Definition tab : string := String (ascii_of_nat 9) EmptyString.
Definition newline : string := String (ascii_of_nat 10) EmptyString.

(** [print(s)]: standard output, the text written to it so far, receives
    [s] and a newline. *)
Definition print (s : string) (stdout : string) : string := stdout +:+ s +:+ newline.

(** [print_help()] *)
Definition print_help (stdout : string) : string :=
  let stdout := print "FOR UNIVARIATE DIST:" stdout in
  let stdout := print (tab +:+ "usage: dist [U/univ] [var] [-o/--outfile] [-c/--categoricals]") stdout in
  let stdout := print (tab +:+ tab +:+ "var                   Numerical variable to show dist for") stdout in
  let stdout := print (tab +:+ tab +:+ "-o/--outfile          Name of .png file to save outputted plot image to, if so desired") stdout in
  let stdout := print (tab +:+ tab +:+ "-c/--categoricals     List of categorical variables to categorize datapoints on (default: None). No categorization if none provided") stdout in
  let stdout := print newline stdout in
  let stdout := print "FOR BIVARIATE DIST:" stdout in
  let stdout := print (tab +:+ "usage: dist [B/biv] [v1] [v2] [plot_type] [-o/--outfile] [-c/--categoricals]") stdout in
  let stdout := print (tab +:+ tab +:+ "v1, v2                Numerical variables to show dist for") stdout in
  let stdout := print (tab +:+ tab +:+ "plot_type                  Type of plot to generate, 'gaussian' or 'heatmap' (default: 'heatmap')") stdout in
  let stdout := print (tab +:+ tab +:+ "-o/--outfile          Name of .png file to save outputted plot image to, if so desired") stdout in
  let stdout := print (tab +:+ tab +:+ "-c/--categoricals     List of categorical variables to categorize datapoints on (default: None). No categorization if none provided") stdout in
  let stdout := print newline stdout in
  stdout.

(** ** Notions used by the further statements *)

(** [sub] occurs in [s]. *)
Fixpoint occurs (sub s : string) : bool :=
  String.prefix sub s ||
  match s with
  | EmptyString => false
  | String _ s' => occurs sub s'
  end.

(** The text of [s] before, and after, the first occurrence of [marker]
    (all of [s], and nothing, when there is none). *)
Fixpoint before (marker s : string) : string :=
  if String.prefix marker s then EmptyString
  else match s with
       | EmptyString => EmptyString
       | String c s' => String c (before marker s')
       end.

Fixpoint after (marker s : string) : string :=
  if String.prefix marker s
  then substring (String.length marker) (String.length s - String.length marker) s
  else match s with
       | EmptyString => EmptyString
       | String _ s' => after marker s'
       end.

(** The part of the help message about a command: what follows its
    heading, up to the next heading. *)
Definition help_of (c : command) (text : string) : string :=
  match c with
  | Univariate => before "FOR BIVARIATE DIST:" (after "FOR UNIVARIATE DIST:" text)
  | Bivariate => after "FOR BIVARIATE DIST:" text
  end.

Definition is_store (a : argparse.Action) : bool :=
  match argparse.kind a with argparse.Store => true | argparse.Help => false end.

(** The arguments of a parser as a usage line shows them: the name of each
    one that stores a value, between brackets, in the order they were
    added. *)
Definition usage_of (p : argparse.ArgumentParser) : string :=
  join_strs " "
    (map (fun a => "[" +:+ argparse.get_action_name a +:+ "]")
         (filter (fun a => is_store a = true) (argparse.actions p))).

(** The tokens [vars] give a command its variables: each is read as an
    argument, and they are a numerical column for the univariate command,
    two numerical columns and, at will, a plot type for the bivariate one. *)
Definition gives_variables (c : command) (df : DataFrame) (vars : list string) : Prop :=
  Forall (fun v => argparse.is_argument_string (parser_of c df) v = true) vars /\
  match c, vars with
  | Univariate, [v] => v ∈ get_numericals df
  | Bivariate, [v1; v2] => v1 ∈ get_numericals df /\ v2 ∈ get_numericals df
  | Bivariate, [v1; v2; t] =>
      v1 ∈ get_numericals df /\ v2 ∈ get_numericals df /\ t ∈ ["heatmap"; "gaussian"]
  | _, _ => False
  end.

(** The names [vars] are variables of a command, however they are spelled:
    the same as above, without asking that a name be read as an argument;
    the second variable of the bivariate command is not the separator. *)
Definition names_variables (c : command) (df : DataFrame) (vars : list string) : Prop :=
  match c, vars with
  | Univariate, [v] => v ∈ get_numericals df
  | Bivariate, [v1; v2] => v1 ∈ get_numericals df /\ v2 ∈ get_numericals df /\ v2 <> "--"
  | Bivariate, [v1; v2; t] =>
      v1 ∈ get_numericals df /\ v2 ∈ get_numericals df /\ v2 <> "--" /\
      t ∈ ["heatmap"; "gaussian"]
  | _, _ => False
  end.

(** The namespace of a call that gives only these variables. *)
Definition variables_ns (c : command) (df : DataFrame) (vars : list string)
    : gmap string pyval :=
  match c, vars with
  | Univariate, [v] => uni_ns df v
  | Bivariate, [v1; v2] => biv_ns df v1 v2 "heatmap"
  | Bivariate, [v1; v2; t] => biv_ns df v1 v2 t
  | _, _ => argparse.initial_namespace (parser_of c df)
  end.

(** What reading the variables adds to a namespace. *)
Definition store_variables (c : command) (vars : list string) (ns : gmap string pyval)
    : gmap string pyval :=
  match c, vars with
  | Univariate, [v] => <["var" := PStr v]> ns
  | Bivariate, [v1; v2] =>
      <["plot_type" := PStr "heatmap"]> (<["v2" := PStr v2]> (<["v1" := PStr v1]> ns))
  | Bivariate, [v1; v2; t] =>
      <["plot_type" := PStr t]> (<["v2" := PStr v2]> (<["v1" := PStr v1]> ns))
  | _, _ => ns
  end.

(** The state of the parser once the variables are read: every positional
    of the command has been seen. *)
Definition parsed_variables (c : command) (ns : gmap string pyval) : argparse.pstate :=
  {| argparse.namespace := ns;
     argparse.seen_actions := match c with Univariate => [1] | Bivariate => [3; 2; 1] end;
     argparse.extras := [];
     argparse.positionals := [] |}.

(** The builder calls of a command for the variables of a namespace:
    the single plot, and the grid by categoricals. *)
Definition plot_of (c : command) (data : loc) (ns : gmap string pyval) : M Figure :=
  match c with
  | Univariate =>
      var ← getattr ns "var";
      __plot_dist data var
  | Bivariate =>
      v1 ← getattr ns "v1";
      v2 ← getattr ns "v2";
      plot_type ← getattr ns "plot_type";
      __plot_biv_dist data v1 v2 plot_type
  end.

Definition grid_of (c : command) (data : loc) (ns : gmap string pyval)
    (categoricals : list string) : M Figure :=
  match c with
  | Univariate =>
      var ← getattr ns "var";
      __plot_dist_by_categoricals data var categoricals
  | Bivariate =>
      v1 ← getattr ns "v1";
      v2 ← getattr ns "v2";
      plot_type ← getattr ns "plot_type";
      __plot_biv_dist_by_categoricals data v1 v2 plot_type categoricals
  end.

(** The abbreviations of a long option string: its proper prefixes that
    hold at least one character after the two dashes. *)
Definition abbreviations (long : string) : list string :=
  map (fun k => substring 0 k long) (seq 3 (String.length long - 3)).

(** The combinations of values the listed columns take in the rows. *)
Definition combinations (df : DataFrame) (categoricals : list string) : list label :=
  remove_dups (index_of_keys df categoricals).

(** No value of the listed columns holds an underscore. *)
Definition underscore_free (df : DataFrame) (categoricals : list string) : Prop :=
  forall c s, c ∈ categoricals -> SStr s ∈ column_values df c -> contains_char "_" s = false.

(** A frame in which two rows differ in both groupings and still get the
    same composite label. *)
Definition merging : DataFrame :=
  {| columns := ["size"; "site"; "plot"];
     index := [LScalar (SInt 0); LScalar (SInt 1)];
     rows := [ [SInt 1; SStr "a_b"; SStr "c"];
               [SInt 2; SStr "a"; SStr "b_c"] ] |}.
(** * Properties *)

(** ** argparse: a parser and the same parser without [choices] *)

(** ** argparse: a parser and the same parser without [choices] *)

Section strip.
Import argparse.

Lemma flat_map_imap_ext {A B C} (F : B -> list C) (f g : nat -> A -> B) (l : list A) :
  (forall i a, F (f i a) = F (g i a)) ->
  flat_map F (imap f l) = flat_map F (imap g l).
Proof.
  revert f g. induction l as [|a l IH]; intros f g Hfg; [reflexivity|].
  cbn. rewrite Hfg. f_equal. apply IH. intros i b. apply Hfg.
Qed.

Lemma imap_map_strip {B} (f : nat -> Action -> B) (l : list Action) :
  imap f (map strip_action l) = imap (fun i a => f i (strip_action a)) l.
Proof.
  revert f. induction l as [|a l IH]; intros f; [reflexivity|].
  cbn. f_equal. apply IH.
Qed.

Lemma option_string_actions_strip p :
  option_string_actions (strip_choices p) = option_string_actions p.
Proof.
  unfold option_string_actions, strip_choices; cbn.
  rewrite imap_map_strip. apply flat_map_imap_ext. reflexivity.
Qed.

Lemma get_positional_actions_strip p :
  get_positional_actions (strip_choices p) = get_positional_actions p.
Proof.
  unfold get_positional_actions, strip_choices; cbn.
  rewrite imap_map_strip. apply flat_map_imap_ext. reflexivity.
Qed.

Lemma required_actions_strip p seen :
  required_actions (strip_choices p) seen = required_actions p seen.
Proof.
  unfold required_actions, strip_choices; cbn.
  rewrite imap_map_strip. apply flat_map_imap_ext. reflexivity.
Qed.

Lemma lookup_strip p i :
  actions (strip_choices p) !! i = strip_action <$> actions p !! i.
Proof. unfold strip_choices; cbn. apply list_lookup_fmap. Qed.

Lemma nargs_of_strip p i : nargs_of (strip_choices p) i = nargs_of p i.
Proof.
  unfold nargs_of. rewrite lookup_strip. destruct (actions p !! i); reflexivity.
Qed.

End strip.
Section simulation.
Import argparse.

Lemma sim_refl {A} (r : result A) : sim r r.
Proof. intros x Hx. left. exact Hx. Qed.

Lemma sim_bind {A B} (m' m : result A) (f' f : A -> result B) :
  sim m' m -> (forall x, sim (f' x) (f x)) -> sim (m' ≫= f') (m ≫= f).
Proof.
  intros Hm Hf y Hy. destruct m' as [x|e]; [|discriminate].
  destruct (Hm x eq_refl) as [->|(a & v & ->)].
  - apply Hf. exact Hy.
  - right. exists a, v. reflexivity.
Qed.

Lemma check_value_cases a v :
  check_value a v = Ok tt \/ exists n x, check_value a v = Error (InvalidChoice n x).
Proof.
  unfold check_value. destruct (choices a) as [cs|]; [|left; reflexivity].
  destruct v as [|s|l].
  - right. eexists _, _. reflexivity.
  - destruct (in_list s cs); [left; reflexivity | right; eexists _, _; reflexivity].
  - right. eexists _, _. reflexivity.
Qed.

Lemma check_value_strip a v : check_value (strip_action a) v = Ok tt.
Proof. reflexivity. Qed.

Lemma check_values_strip a vs : check_values (strip_action a) vs = Ok tt.
Proof. induction vs as [|v vs IH]; [reflexivity|]. cbn. exact IH. Qed.

Lemma check_values_cases a vs :
  check_values a vs = Ok tt \/ exists n x, check_values a vs = Error (InvalidChoice n x).
Proof.
  induction vs as [|v vs IH]; [left; reflexivity|].
  cbn [check_values]. destruct (check_value_cases a (PStr v)) as [->|(n & x & ->)].
  - exact IH.
  - right. exists n, x. reflexivity.
Qed.

Lemma sim_check_value a v : sim (check_value (strip_action a) v) (check_value a v).
Proof.
  intros [] _. destruct (check_value_cases a v) as [->|H]; [left; reflexivity | right; exact H].
Qed.

Lemma sim_check_values a vs : sim (check_values (strip_action a) vs) (check_values a vs).
Proof.
  intros [] _. destruct (check_values_cases a vs) as [->|H]; [left; reflexivity | right; exact H].
Qed.

Lemma sim_get_values a args : sim (get_values (strip_action a) args) (get_values a args).
Proof.
  unfold get_values.
  change (nargs (strip_action a)) with (nargs a).
  change (is_positional_action (strip_action a)) with (is_positional_action a).
  change (default (strip_action a)) with (default a).
  change (const (strip_action a)) with (const a).
  set (l := remove_first "--" args).
  assert (Hlist : sim (_ ← check_values (strip_action a) l; Ok (PList l))
                      (_ ← check_values a l; Ok (PList l))).
  { apply sim_bind; [apply sim_check_values | intros; apply sim_refl]. }
  assert (Hone : forall v, sim (_ ← check_value (strip_action a) v; Ok v)
                               (_ ← check_value a v; Ok v)).
  { intros v. apply sim_bind; [apply sim_check_value | intros; apply sim_refl]. }
  repeat match goal with
         | |- sim (if ?c then _ else _) (if ?c then _ else _) => destruct c
         | |- sim (match ?x with _ => _ end) (match ?x with _ => _ end) => destruct x
         end;
    first [ apply Hlist | apply Hone | apply sim_refl ].
Qed.

Lemma sim_take_action p i args st :
  sim (take_action (strip_choices p) i args st) (take_action p i args st).
Proof.
  unfold take_action. rewrite lookup_strip.
  destruct (actions p !! i) as [a|]; cbn [fmap option_fmap option_map]; [|apply sim_refl].
  apply sim_bind; [apply sim_get_values|]. intros v. apply sim_refl.
Qed.

Lemma sim_take_actions p tuples st :
  sim (take_actions (strip_choices p) tuples st) (take_actions p tuples st).
Proof.
  revert st. induction tuples as [|[i args] tuples IH]; intros st; [apply sim_refl|].
  cbn [take_actions]. apply sim_bind; [apply sim_take_action | intros; apply IH].
Qed.

Lemma match_arguments_partial_strip p acts pat :
  match_arguments_partial (strip_choices p) acts pat = match_arguments_partial p acts pat.
Proof.
  unfold match_arguments_partial. generalize (length acts) as n.
  induction n as [|n IH]; [reflexivity|].
  cbn [match_arguments_partial_from].
  rewrite (map_ext _ _ (nargs_of_strip p)), IH. reflexivity.
Qed.

Lemma sim_consume_positionals p st items :
  sim (consume_positionals (strip_choices p) st items) (consume_positionals p st items).
Proof.
  unfold consume_positionals. rewrite match_arguments_partial_strip.
  apply sim_bind; [apply sim_take_actions | intros; apply sim_refl].
Qed.

Lemma match_argument_strip a pat : match_argument (strip_action a) pat = match_argument a pat.
Proof. reflexivity. Qed.

Lemma following_tuples_strip p rest i :
  following_tuples (strip_choices p) rest i = following_tuples p rest i.
Proof.
  unfold following_tuples. rewrite lookup_strip.
  destruct (actions p !! i) as [a|]; reflexivity.
Qed.

Lemma explicit_tuples_strip p rest e : forall i os,
  explicit_tuples (strip_choices p) rest i os e = explicit_tuples p rest i os e.
Proof.
  induction e as [|c e IH]; intros i os; cbn [explicit_tuples];
    rewrite lookup_strip; destruct (actions p !! i) as [a|]; cbn [fmap option_fmap option_map];
    try reflexivity.
  rewrite match_argument_strip, option_string_actions_strip.
  destruct (match_argument a [PA]) as [n|err]; [|reflexivity].
  cbn [mbind result_bind].
  change (get_action_name (strip_action a)) with (get_action_name a).
  destruct (_ && _ && _); [|reflexivity].
  destruct (assoc _ _) as [j|]; [|reflexivity].
  destruct e; [rewrite following_tuples_strip | rewrite IH]; reflexivity.
Qed.

Lemma sim_consume_optional p st items :
  sim (consume_optional (strip_choices p) st items) (consume_optional p st items).
Proof.
  unfold consume_optional.
  destruct items as [|[tok [| |act os ea]] rest]; try apply sim_refl.
  destruct act as [i|]; [|apply sim_refl].
  apply sim_bind.
  - destruct ea; [rewrite explicit_tuples_strip | rewrite following_tuples_strip]; apply sim_refl.
  - intros r. apply sim_bind; [apply sim_take_actions | intros; apply sim_refl].
Qed.

Lemma sim_parse_loop p fuel : forall st items,
  sim (parse_loop (strip_choices p) fuel st items) (parse_loop p fuel st items).
Proof.
  induction fuel as [|fuel IH]; intros st items; cbn [parse_loop].
  - apply sim_refl.
  - destruct (negb (existsb is_option items)); [apply sim_refl|].
    destruct (before_option items) as [|k].
    + apply sim_bind; [apply sim_consume_optional | intros; apply IH].
    + apply sim_bind; [apply sim_consume_positionals|]. intros r.
      destruct (snd r); [|apply IH].
      apply sim_bind; [apply sim_consume_optional | intros; apply IH].
Qed.

Lemma parse_optional_strip p s : parse_optional (strip_choices p) s = parse_optional p s.
Proof.
  unfold parse_optional, get_option_tuples, has_negative_number_optionals.
  rewrite option_string_actions_strip. reflexivity.
Qed.

Lemma classify_strip p args : classify (strip_choices p) args = classify p args.
Proof.
  induction args as [|a args IH]; [reflexivity|].
  cbn [classify]. rewrite parse_optional_strip, IH. reflexivity.
Qed.

Lemma initial_namespace_strip p : initial_namespace (strip_choices p) = initial_namespace p.
Proof.
  unfold initial_namespace, strip_choices; cbn [actions].
  generalize (∅ : gmap string pyval) as ns.
  induction (actions p) as [|a l IH]; intros ns; [reflexivity|].
  cbn [map fold_left]. rewrite IH. reflexivity.
Qed.

Lemma sim_parse_known_args p args :
  sim (parse_known_args (strip_choices p) args) (parse_known_args p args).
Proof.
  unfold parse_known_args.
  rewrite classify_strip, initial_namespace_strip, get_positional_actions_strip.
  apply sim_bind; [apply sim_refl|]. intros items.
  apply sim_bind; [apply sim_parse_loop|]. intros r.
  apply sim_bind; [apply sim_consume_positionals|]. intros r'.
  rewrite required_actions_strip. apply sim_refl.
Qed.

(** Leaving the choices out cannot turn a rejected call into another
    accepted call: a call the permissive parser accepts is accepted with
    the same namespace, or rejected as an invalid choice. *)
Lemma sim_parse_args p args :
  sim (parse_args (strip_choices p) args) (parse_args p args).
Proof.
  unfold parse_args. apply sim_bind; [apply sim_parse_known_args | intros; apply sim_refl].
Qed.

End simulation.
(** ** argparse: where the values of a namespace come from *)

Section provenance.
Import argparse.

Lemma bind_Ok {A B} (m : result A) (f : A -> result B) (y : B) :
  m ≫= f = Ok y -> exists x, m = Ok x /\ f x = Ok y.
Proof. destruct m as [x|e]; [|discriminate]. intros H. exists x. split; [reflexivity | exact H]. Qed.

Lemma initial_namespace_justified p : ns_justified p (initial_namespace p).
Proof.
  unfold initial_namespace.
  assert (H : forall l ns, (forall a, a ∈ l -> a ∈ actions p) -> ns_justified p ns ->
            ns_justified p (fold_left
              (fun ns a => match dest a, default a with
                           | Some d, Some v =>
                               match ns !! d with Some _ => ns | None => <[d := v]> ns end
                           | _, _ => ns
                           end) l ns)).
  { induction l as [|a l IH]; intros ns Hl Hns; [exact Hns|].
    cbn [fold_left]. apply IH.
    - intros b Hb. apply Hl. right. exact Hb.
    - destruct (dest a) as [d|] eqn:Hd; [|exact Hns].
      destruct (default a) as [v|] eqn:Hv; [|exact Hns].
      destruct (ns !! d) eqn:Hlk; [exact Hns|].
      intros d' v' Hd'. destruct (decide (d = d')) as [<-|Hne].
      + rewrite lookup_insert_eq in Hd'. injection Hd' as <-.
        exists a. split; [apply Hl; left | split; [exact Hd | left; exact Hv]].
      + rewrite lookup_insert_ne in Hd' by exact Hne. apply Hns. exact Hd'. }
  apply H; [auto|]. intros d v Hd. rewrite lookup_empty in Hd. discriminate.
Qed.

(** A property of the namespace that holds at the start and that every
    store of a converted value preserves holds of the namespace returned. *)
Section invariant.
Variable p : ArgumentParser.
Variable P : gmap string pyval -> Prop.
Hypothesis P_store : forall i a args v d ns,
  actions p !! i = Some a -> get_values a args = Ok v -> dest a = Some d ->
  P ns -> P (<[d := v]> ns).

Lemma take_action_inv i args st st' :
  take_action p i args st = Ok st' -> P (namespace st) -> P (namespace st').
Proof.
  unfold take_action. destruct (actions p !! i) as [a|] eqn:Ha.
  - intros H Hns. apply bind_Ok in H as (v & Hv & H).
    destruct (kind a); [|discriminate].
    destruct (dest a) as [d|] eqn:Hd; injection H as <-; cbn; [|exact Hns].
    eapply P_store; eauto.
  - intros [= <-] Hns. exact Hns.
Qed.

Lemma take_actions_inv tuples : forall st st',
  take_actions p tuples st = Ok st' -> P (namespace st) -> P (namespace st').
Proof.
  induction tuples as [|[i args] tuples IH]; intros st st' H Hns; cbn [take_actions] in H.
  - injection H as <-. exact Hns.
  - apply bind_Ok in H as (st1 & H1 & H). eapply IH; [exact H|].
    eapply take_action_inv; [exact H1 | exact Hns].
Qed.

Lemma consume_positionals_inv st items r :
  consume_positionals p st items = Ok r -> P (namespace st) -> P (namespace (fst r)).
Proof.
  unfold consume_positionals. intros H Hns.
  apply bind_Ok in H as (st1 & H1 & H). injection H as <-. cbn.
  eapply take_actions_inv; [exact H1 | exact Hns].
Qed.

Lemma consume_optional_inv st items r :
  consume_optional p st items = Ok r -> P (namespace st) -> P (namespace (fst r)).
Proof.
  unfold consume_optional. intros H Hns.
  destruct items as [|[tok [| |act os ea]] rest]; try (injection H as <-; exact Hns).
  destruct act as [i|]; [|injection H as <-; exact Hns].
  apply bind_Ok in H as (t & _ & H). apply bind_Ok in H as (st1 & H1 & H).
  injection H as <-. cbn. eapply take_actions_inv; [exact H1 | exact Hns].
Qed.

Lemma parse_loop_inv fuel : forall st items r,
  parse_loop p fuel st items = Ok r -> P (namespace st) -> P (namespace (fst r)).
Proof.
  induction fuel as [|fuel IH]; intros st items r H Hns; cbn [parse_loop] in H.
  - destruct (negb _); injection H as <-; exact Hns.
  - destruct (negb _); [injection H as <-; exact Hns|].
    destruct (before_option items) as [|k].
    + apply bind_Ok in H as (r1 & H1 & H). eapply IH; [exact H|].
      eapply consume_optional_inv; [exact H1 | exact Hns].
    + apply bind_Ok in H as (r1 & H1 & H).
      pose proof (consume_positionals_inv _ _ _ H1 Hns) as Hns1.
      destruct (snd r1); [|eapply IH; [exact H | exact Hns1]].
      apply bind_Ok in H as (r2 & H2 & H). eapply IH; [exact H|].
      eapply consume_optional_inv; [exact H2 | exact Hns1].
Qed.

Lemma parse_args_inv args ns :
  P (initial_namespace p) -> parse_args p args = Ok ns -> P ns.
Proof.
  unfold parse_args, parse_known_args. intros H0 H.
  apply bind_Ok in H as (r & Hr & H).
  destruct (snd r) eqn:Hsnd; [|discriminate]. injection H as <-.
  apply bind_Ok in Hr as (items & _ & Hr).
  apply bind_Ok in Hr as (r1 & H1 & Hr).
  apply bind_Ok in Hr as (r2 & H2 & Hr).
  destruct (required_actions _ _); [|discriminate]. injection Hr as <-. cbn.
  eapply consume_positionals_inv; [exact H2|].
  eapply parse_loop_inv; [exact H1|]. exact H0.
Qed.

End invariant.

Lemma parse_args_justified p args ns :
  parse_args p args = Ok ns -> ns_justified p ns.
Proof.
  apply parse_args_inv; [|apply initial_namespace_justified].
  intros i a args' v d ns' Ha Hv Hd Hns d' v' Hd'.
  destruct (decide (d = d')) as [<-|Hne].
  - rewrite lookup_insert_eq in Hd'. injection Hd' as <-.
    exists a. split; [eapply list_elem_of_lookup_2; exact Ha|].
    split; [exact Hd | right; exists args'; exact Hv].
  - rewrite lookup_insert_ne in Hd' by exact Hne. apply Hns. exact Hd'.
Qed.

(** Every [dest] that has a default is set in the namespace returned. *)
Lemma parse_args_defaults p args ns d :
  parse_args p args = Ok ns -> is_Some (initial_namespace p !! d) -> is_Some (ns !! d).
Proof.
  intros H H0. revert H.
  apply (parse_args_inv p (fun ns => is_Some (ns !! d))); [|exact H0].
  intros i a args' v d' ns' _ _ _ Hns.
  destruct (decide (d' = d)) as [->|Hne].
  - rewrite lookup_insert_eq. eauto.
  - rewrite lookup_insert_ne by exact Hne. exact Hns.
Qed.

(** A [str] that [_get_values] returns for an action with choices is one
    of the choices. *)
Lemma check_value_str a s cs :
  check_value a (PStr s) = Ok tt -> choices a = Some cs -> s ∈ cs.
Proof.
  unfold check_value. intros H Hcs. rewrite Hcs in H. unfold in_list in H.
  destruct (bool_decide (s ∈ cs)) eqn:Hin; [|discriminate].
  apply bool_decide_eq_true in Hin. exact Hin.
Qed.

Lemma get_values_str a args s cs :
  get_values a args = Ok (PStr s) -> choices a = Some cs -> s ∈ cs.
Proof.
  unfold get_values. set (l := remove_first "--" args). intros H Hcs.
  assert (Hone : forall v, (_ ← check_value a v; Ok v) = Ok (PStr s) -> s ∈ cs).
  { intros v Hv. apply bind_Ok in Hv as ([] & Hc & Hv). injection Hv as ->.
    eapply check_value_str; [exact Hc | exact Hcs]. }
  assert (Hlist : (_ ← check_values a l; Ok (PList l)) = Ok (PStr s) -> s ∈ cs).
  { intros Hv. apply bind_Ok in Hv as ([] & _ & Hv). discriminate. }
  repeat match type of H with
         | (if ?c then _ else _) = _ => destruct c
         | match ?x with _ => _ end = _ => destruct x eqn:?
         end;
    try discriminate; try (apply Hone in H; exact H); try (apply Hlist in H; exact H).
Qed.

Lemma check_values_Forall a l cs :
  check_values a l = Ok tt -> choices a = Some cs -> Forall (fun x => x ∈ cs) l.
Proof.
  intros H Hcs. induction l as [|x l IH]; [constructor|].
  cbn [check_values] in H. apply bind_Ok in H as ([] & Hx & H).
  constructor; [eapply check_value_str; [exact Hx | exact Hcs] | apply IH; exact H].
Qed.

(** What [_get_values] returns for an option with [nargs='*'] is a list
    whose items are among the choices. *)
Lemma get_values_star a args v :
  get_values a args = Ok v -> nargs a = NargsZeroOrMore -> is_positional_action a = false ->
  exists l, v = PList l /\ forall cs, choices a = Some cs -> Forall (fun x => x ∈ cs) l.
Proof.
  unfold get_values. set (l := remove_first "--" args). intros H Hn Hp.
  rewrite Hn, Hp in H. rewrite andb_false_r in H.
  replace (bool_decide (NargsZeroOrMore = NargsOptional)) with false in H by reflexivity.
  replace (bool_decide (NargsZeroOrMore = NargsNone)) with false in H by reflexivity.
  rewrite andb_false_r in H. cbn in H.
  assert (Hl : (_ ← check_values a l; Ok (PList l)) = Ok v).
  { destruct l as [|x [|y l']]; exact H. }
  apply bind_Ok in Hl as ([] & Hc & Hv). injection Hv as <-.
  exists l. split; [reflexivity|]. intros cs Hcs. eapply check_values_Forall; eauto.
Qed.

(** *** The fuel of the main loop *)

Lemma following_tuples_pos p rest i r : following_tuples p rest i = Ok r -> 1 <= snd r.
Proof.
  unfold following_tuples. destruct (actions p !! i) as [a|].
  - intros H. apply bind_Ok in H as (n & _ & H). injection H as <-. cbn. lia.
  - intros [= <-]. cbn. lia.
Qed.

Lemma explicit_tuples_pos p rest e : forall i os r,
  explicit_tuples p rest i os e = Ok r -> 1 <= snd r.
Proof.
  induction e as [|c e IH]; intros i os r H; cbn [explicit_tuples] in H;
    destruct (actions p !! i) as [a|]; try (injection H as <-; cbn; lia);
    apply bind_Ok in H as (n & _ & H).
  - destruct (_ && _ && _); [discriminate|].
    destruct (Nat.eqb n 1); [injection H as <-; cbn; lia | discriminate].
  - destruct (_ && _ && _).
    + destruct (assoc _ _) as [j|]; [|discriminate].
      apply bind_Ok in H as (r1 & H1 & H). injection H as <-. cbn.
      destruct e; [eapply following_tuples_pos | eapply IH]; exact H1.
    + destruct (Nat.eqb n 1); [injection H as <-; cbn; lia | discriminate].
Qed.

Lemma consume_optional_pos p st items r : consume_optional p st items = Ok r -> 1 <= snd r.
Proof.
  unfold consume_optional. intros H.
  destruct items as [|[tok [| |act os ea]] rest]; try (injection H as <-; cbn; lia).
  destruct act as [i|]; [|injection H as <-; cbn; lia].
  apply bind_Ok in H as (t & Ht & H). apply bind_Ok in H as (st1 & _ & H).
  injection H as <-. cbn.
  destruct ea; [eapply explicit_tuples_pos | eapply following_tuples_pos]; exact Ht.
Qed.

(** Any fuel that bounds the number of strings left gives the same result:
    [parse_known_args] never runs out of it. *)
Lemma parse_loop_fuel p : forall f1 f2 st items,
  length items <= f1 -> length items <= f2 ->
  parse_loop p f1 st items = parse_loop p f2 st items.
Proof.
  induction f1 as [|f1 IH]; intros f2 st items H1 H2.
  - destruct items; [|cbn in H1; lia]. destruct f2; reflexivity.
  - destruct f2 as [|f2].
    { destruct items; [reflexivity | cbn in H2; lia]. }
    cbn [parse_loop]. destruct (negb _); [reflexivity|].
    destruct (before_option items) as [|k].
    + destruct (consume_optional p st items) as [r|e] eqn:Hr; [|reflexivity].
      cbn [mbind result_bind]. apply consume_optional_pos in Hr.
      apply IH; rewrite length_drop; lia.
    + destruct (consume_positionals p st items) as [r|e] eqn:Hr; [|reflexivity].
      cbn [mbind result_bind]. destruct (snd r) as [|n].
      * destruct (consume_optional _ _ _) as [r'|e] eqn:Hr'; [|reflexivity].
        cbn [mbind result_bind]. apply consume_optional_pos in Hr'.
        apply IH; rewrite !length_drop; lia.
      * apply IH; rewrite length_drop; lia.
Qed.

End provenance.

(** ** argparse: the names read on the way *)

Section reading.
Import argparse.

Lemma sim_fmap {A B} (f : A -> B) (r' r : result A) : sim r' r -> sim (f <$> r') (f <$> r).
Proof.
  intros H y Hy. destruct r' as [x|e]; [|discriminate Hy]. injection Hy as <-.
  destruct (H x eq_refl) as [->|(a & v & ->)]; [left; reflexivity | right; eauto].
Qed.

Lemma sim_read_state p rounds args :
  sim (read_state (strip_choices p) rounds args) (read_state p rounds args).
Proof.
  unfold read_state.
  rewrite classify_strip, initial_namespace_strip, get_positional_actions_strip.
  apply sim_bind; [apply sim_refl|]. intros items.
  apply sim_bind; [apply sim_parse_loop|]. intros r.
  destruct (existsb is_option (snd r)); [apply sim_refl|].
  apply sim_bind; [apply sim_consume_positionals | intros; apply sim_refl].
Qed.

Lemma justified_store p i a args v d ns :
  actions p !! i = Some a -> get_values a args = Ok v -> dest a = Some d ->
  ns_justified p ns -> ns_justified p (<[d := v]> ns).
Proof.
  intros Ha Hv Hd Hns d' v' Hd'.
  destruct (decide (d = d')) as [<-|Hne].
  - rewrite lookup_insert_eq in Hd'. injection Hd' as <-.
    exists a. split; [eapply list_elem_of_lookup_2; exact Ha|].
    split; [exact Hd | right; exists args; exact Hv].
  - rewrite lookup_insert_ne in Hd' by exact Hne. apply Hns. exact Hd'.
Qed.

(** Whatever the parser has read so far passed its checks. *)
Lemma read_state_justified p rounds args st :
  read_state p rounds args = Ok st -> ns_justified p (namespace st).
Proof.
  unfold read_state. intros H.
  apply bind_Ok in H as (items & _ & H). apply bind_Ok in H as (r & Hr & H).
  assert (Hj : ns_justified p (namespace (fst r))).
  { eapply (parse_loop_inv p (ns_justified p) (justified_store p)); [exact Hr|].
    apply initial_namespace_justified. }
  destruct (existsb is_option (snd r)); [injection H as <-; exact Hj|].
  apply bind_Ok in H as (r' & Hr' & H). injection H as <-.
  eapply (consume_positionals_inv p (ns_justified p) (justified_store p)); eassumption.
Qed.

(** More rounds do not undo an error, nor a loop that has come to its end. *)
Lemma parse_loop_error_more p e : forall k k' st items,
  k <= k' -> parse_loop p k st items = Error e -> parse_loop p k' st items = Error e.
Proof.
  induction k as [|k IH]; intros k' st items Hle H.
  - cbn [parse_loop] in H. destruct (negb _); discriminate H.
  - destruct k' as [|k']; [lia|]. cbn [parse_loop] in *.
    destruct (negb _); [discriminate H|].
    destruct (before_option items) as [|n].
    + destruct (consume_optional p st items) as [r|e']; [|exact H].
      cbn [mbind result_bind] in *. apply IH; [lia | exact H].
    + destruct (consume_positionals p st items) as [r|e']; [|exact H].
      cbn [mbind result_bind] in *. destruct (snd r); [|apply IH; [lia | exact H]].
      destruct (consume_optional _ _ _) as [r'|e']; [|exact H].
      cbn [mbind result_bind] in *. apply IH; [lia | exact H].
Qed.

Lemma parse_loop_done_more p r : forall k k' st items,
  k <= k' -> parse_loop p k st items = Ok r -> existsb is_option (snd r) = false ->
  parse_loop p k' st items = Ok r.
Proof.
  induction k as [|k IH]; intros k' st items Hle H Hdone.
  - assert (Hr : r = (st, items)).
    { cbn [parse_loop] in H. destruct (negb _); injection H as <-; reflexivity. }
    subst r. cbn [snd] in Hdone. destruct k'; cbn [parse_loop]; rewrite Hdone; reflexivity.
  - destruct k' as [|k']; [lia|]. cbn [parse_loop] in *.
    destruct (negb _); [exact H|].
    destruct (before_option items) as [|n].
    + destruct (consume_optional p st items) as [r1|e']; [|discriminate H].
      cbn [mbind result_bind] in *. apply (IH k'); [lia | exact H | exact Hdone].
    + destruct (consume_positionals p st items) as [r1|e']; [|discriminate H].
      cbn [mbind result_bind] in *.
      destruct (snd r1); [|apply (IH k'); [lia | exact H | exact Hdone]].
      destruct (consume_optional _ _ _) as [r2|e']; [|discriminate H].
      cbn [mbind result_bind] in *. apply (IH k'); [lia | exact H | exact Hdone].
Qed.

(** With the fuel of [parse_known_args] the loop comes to its end. *)
Lemma parse_loop_exhausts p : forall f st items r,
  length items <= f -> parse_loop p f st items = Ok r -> existsb is_option (snd r) = false.
Proof.
  induction f as [|f IH]; intros st items r Hlen H.
  - destruct items; [|cbn in Hlen; lia]. cbn in H. injection H as <-. reflexivity.
  - cbn [parse_loop] in H.
    destruct (existsb is_option items) eqn:Hex; cbn [negb] in H;
      [|injection H as <-; exact Hex].
    destruct (before_option items) as [|n].
    + destruct (consume_optional p st items) as [r1|e'] eqn:H1; [|discriminate H].
      cbn [mbind result_bind] in H. apply consume_optional_pos in H1.
      eapply IH; [|exact H]. rewrite length_drop.
      destruct items; [discriminate Hex | cbn [length] in *; lia].
    + destruct (consume_positionals p st items) as [r1|e'] eqn:H1; [|discriminate H].
      cbn [mbind result_bind] in H. destruct (snd r1) as [|m].
      * destruct (consume_optional _ _ _) as [r2|e'] eqn:H2; [|discriminate H].
        cbn [mbind result_bind] in H. apply consume_optional_pos in H2.
        eapply IH; [|exact H]. rewrite !length_drop.
        destruct items; [discriminate Hex | cbn [length] in *; lia].
      * eapply IH; [|exact H]. rewrite length_drop.
        destruct items; [discriminate Hex | cbn [length] in *; lia].
Qed.

(** An error met on the way is the error of the whole parse. *)
Lemma read_state_error p rounds args e :
  read_state p rounds args = Error e -> parse_known_args p args = Error e.
Proof.
  unfold read_state, parse_known_args. intros H.
  destruct (classify p args) as [items|e']; cbn [mbind result_bind] in *;
    [|injection H as <-; reflexivity].
  set (st0 := {| namespace := initial_namespace p; seen_actions := []; extras := [];
                 positionals := get_positional_actions p |}) in *.
  destruct (parse_loop p rounds st0 items) as [r|e'] eqn:Hr.
  - cbn [mbind result_bind] in H.
    destruct (existsb is_option (snd r)) eqn:Hdone; [discriminate H|].
    assert (Hfull : parse_loop p (length items) st0 items = Ok r).
    { destruct (Nat.le_ge_cases rounds (length items)) as [Hle|Hge].
      - eapply parse_loop_done_more; eassumption.
      - rewrite <- Hr. apply parse_loop_fuel; lia. }
    rewrite Hfull. cbn [mbind result_bind].
    destruct (consume_positionals p (fst r) (snd r)) as [r'|e']; [discriminate H|].
    injection H as <-. reflexivity.
  - cbn [mbind result_bind] in H. injection H as <-.
    assert (Hfull : parse_loop p (length items) st0 items = Error e').
    { destruct (Nat.le_ge_cases rounds (length items)) as [Hle|Hge].
      - eapply parse_loop_error_more; eassumption.
      - rewrite <- Hr. apply parse_loop_fuel; lia. }
    rewrite Hfull. reflexivity.
Qed.

(** Names the parser itself cannot have read, read when the choices are
    left out: the parser stops on an invalid choice. *)
Lemma read_invalid_choice p rounds args ns :
  names_read (strip_choices p) rounds args = Ok ns ->
  ~ ns_justified p ns ->
  exists argument value, parse_args p args = Error (InvalidChoice argument value).
Proof.
  intros Hread Hbad. unfold names_read in Hread.
  destruct (sim_fmap namespace _ _ (sim_read_state p rounds args) _ Hread)
    as [Hok|(a & x & Herr)].
  - exfalso. destruct (read_state p rounds args) as [st|e] eqn:Hst; [|discriminate Hok].
    injection Hok as <-. apply Hbad. eapply read_state_justified. exact Hst.
  - destruct (read_state p rounds args) as [st|e] eqn:Hst; [discriminate Herr|].
    injection Herr as ->. exists a, x.
    unfold parse_args. rewrite (read_state_error _ _ _ _ Hst). reflexivity.
Qed.

(** A parse that returns has read its namespace by the end of the loop. *)
Lemma names_read_of_parse_args p args ns :
  parse_args p args = Ok ns -> names_read p (length args) args = Ok ns.
Proof.
  unfold parse_args, parse_known_args, names_read, read_state. intros H.
  apply bind_Ok in H as (r & Hr & H).
  destruct (snd r) eqn:Hsnd; [|discriminate]. injection H as <-.
  apply bind_Ok in Hr as (items & Hc & Hr). rewrite Hc. cbn [mbind result_bind].
  assert (Hlen : length items = length args).
  { clear -Hc. revert items Hc. induction args as [|a args IH]; intros items Hc.
    - injection Hc as <-. reflexivity.
    - cbn [classify] in Hc. destruct (String.eqb a "--").
      + injection Hc as <-. cbn [length]. rewrite length_map. reflexivity.
      + apply bind_Ok in Hc as (o & _ & Hc). apply bind_Ok in Hc as (its & Hits & Hc).
        injection Hc as <-. cbn [length]. rewrite (IH _ Hits). reflexivity. }
  rewrite <- Hlen.
  apply bind_Ok in Hr as (r1 & H1 & Hr). rewrite H1. cbn [mbind result_bind].
  rewrite (parse_loop_exhausts _ _ _ _ _ (Nat.le_refl _) H1).
  apply bind_Ok in Hr as (r2 & H2 & Hr). rewrite H2. cbn [mbind result_bind fmap result_fmap].
  destruct (required_actions _ _); [|discriminate]. injection Hr as <-. reflexivity.
Qed.

End reading.
(** ** The plot builders, step by step *)

Section builders.

Lemma join_rows_spec values w :
  join_rows values w =
  match mapM (join_label "_") values with
  | Some labels => (Returned labels, w)
  | None => (Raised TypeError, w)
  end.
Proof.
  induction values as [|row values IH]; [reflexivity|].
  cbn [join_rows mapM]. destruct (join_label "_" row) as [s|]; [|reflexivity].
  cbn. unfold mbind at 1, M_bind. rewrite IH.
  destruct (mapM (join_label "_") values); reflexivity.
Qed.

Lemma composite_labels_length df cats labels :
  composite_labels df cats = Some labels -> length labels = length (rows df).
Proof.
  unfold composite_labels, index_of_keys. intros H.
  apply length_mapM in H. rewrite length_map in H. symmetry. exact H.
Qed.

(** The steps from [set_index] to the composite index, before the call of
    [displot]. *)
Lemma fuse_index_spec {A} data cats (k : loc -> list label -> M A) w df :
  heap w !! data = Some df ->
  (plot_data ← set_index data cats;
   values ← index_values plot_data;
   labels ← join_rows values;
   _ ← assign_index plot_data (map (fun s => LScalar (SStr s)) labels);
   col ← index_values plot_data;
   k plot_data col) w =
  if forallb (fun c => in_list c (columns df)) cats then
    let plot_data := fresh (dom (heap w)) in
    match composite_labels df cats with
    | Some labels =>
        k plot_data (map (fun s => LScalar (SStr s)) labels)
          (with_heap (<[plot_data := reindexed df cats labels]> (heap w)) w)
    | None =>
        (Raised TypeError,
         with_heap (<[plot_data := set_index_frame df cats]> (heap w)) w)
    end
  else (Raised KeyError, w).
Proof.
  intros Hdf. unfold mbind, M_bind, set_index, deref, mbind, M_bind. rewrite Hdf.
  destruct (forallb _ cats); [|reflexivity].
  unfold alloc, index_values, deref, mbind, M_bind. cbn [heap].
  rewrite lookup_insert_eq. cbn [mret M_ret].
  rewrite join_rows_spec. cbn [index set_index_frame].
  fold (composite_labels df cats).
  destruct (composite_labels df cats) as [labels|] eqn:Hl; [|reflexivity].
  unfold assign_index, deref, mbind, M_bind, store. cbn [heap].
  rewrite lookup_insert_eq. cbn [rows].
  cbn [rows set_index_frame].
  rewrite !length_map, (composite_labels_length _ _ _ Hl), Nat.eqb_refl.
  cbn [heap]. rewrite lookup_insert_eq, insert_insert_eq. reflexivity.
Qed.

Lemma displot_spec data x y kind kde bins color col col_wrap w df :
  heap w !! data = Some df ->
  displot data x y kind kde bins color col col_wrap w =
  if negb (is_variable df x) then (Raised ValueError, w)
  else if negb (match y with Some v => is_variable df v | None => true end)
  then (Raised ValueError, w)
  else match facet_of df col with
       | Some facet =>
           if kde_accepts df kind x y then
             let plot := displot_figure df x y kind kde bins color facet col_wrap in
             (Returned plot, with_event (EvDisplot plot) w)
           else (Raised TypeError, w)
       | None => (Raised ValueError, w)
       end.
Proof.
  intros Hdf. unfold displot, mbind, M_bind, deref. rewrite Hdf.
  destruct (negb (is_variable df x)); [reflexivity|].
  destruct (negb _); [reflexivity|].
  unfold facet_of. destruct col as [[c|v]|]; cbn [mret M_ret].
  - destruct (in_list c (columns df)); [|reflexivity]. cbn [mret M_ret andb].
    destruct (has_levels _); [|reflexivity]. cbn [negb].
    destruct (kde_accepts df kind x y); reflexivity.
  - destruct (Nat.eqb _ _); [|reflexivity]. cbn [mret M_ret andb].
    destruct (has_levels _); [|reflexivity]. cbn [negb].
    destruct (kde_accepts df kind x y); reflexivity.
  - cbn [negb]. destruct (kde_accepts df kind x y); reflexivity.
Qed.

Lemma fresh_loc_ne (w : World) data df :
  heap w !! data = Some df -> fresh (dom (heap w)) <> data.
Proof.
  intros Hdf Heq. apply (is_fresh (dom (heap w))). rewrite Heq.
  apply elem_of_dom. exists df. exact Hdf.
Qed.

Lemma plot_dist_spec data var w df :
  heap w !! data = Some df ->
  __plot_dist data var w =
  if is_variable df var then
    let raw := displot_figure df var None None true (Some "sqrt") (Some "r") None None in
    (Returned (set_titles [FLit "DISTRIBUTION OF "; FVal var] raw),
     with_event (EvDisplot raw) w)
  else (Raised ValueError, w).
Proof.
  intros Hdf. unfold __plot_dist, mbind, M_bind.
  rewrite (displot_spec _ _ _ _ _ _ _ _ _ _ _ Hdf).
  destruct (is_variable df var); reflexivity.
Qed.

Lemma plot_biv_dist_spec data v1 v2 plot_type w df :
  heap w !! data = Some df ->
  __plot_biv_dist data v1 v2 plot_type w =
  if is_variable df v1 && is_variable df v2 then
    if kde_accepts df (Some (kind_of plot_type)) v1 (Some v2) then
      let raw := displot_figure df v1 (Some v2) (Some (kind_of plot_type)) false
                   None None None None in
      (Returned (set_titles [FLit "DISTRIBUTION OF "; FVal v1; FLit ", "; FVal v2] raw),
       with_event (EvDisplot raw) w)
    else (Raised TypeError, w)
  else (Raised ValueError, w).
Proof.
  intros Hdf. unfold __plot_biv_dist, mbind, M_bind.
  rewrite (displot_spec _ _ _ _ _ _ _ _ _ _ _ Hdf).
  destruct (is_variable df v1), (is_variable df v2); try reflexivity.
  cbn [negb andb facet_of]. destruct (kde_accepts _ _ _ _); reflexivity.
Qed.

(** [__plot_dist_by_categoricals], case by case. *)
Lemma plot_dist_by_categoricals_spec data var cats w df :
  heap w !! data = Some df ->
  __plot_dist_by_categoricals data var cats w =
  let title := [FLit "DISTRIBUTION OF "; FVal var; FLit " BY "; FVal (PList cats)] in
  if Nat.ltb 1 (length cats) then
    if forallb (fun c => in_list c (columns df)) cats then
      let plot_data := fresh (dom (heap w)) in
      match composite_labels df cats with
      | Some labels =>
          let pdf := reindexed df cats labels in
          let w1 := with_heap (<[plot_data := pdf]> (heap w)) w in
          if is_variable pdf var && has_levels (str_labels labels) then
            let raw := displot_figure pdf var None None true (Some "sqrt") None
                         (Some (str_labels labels)) (Some 3) in
            (Returned (decorate title raw), with_event (EvDisplot raw) w1)
          else (Raised ValueError, w1)
      | None =>
          (Raised TypeError,
           with_heap (<[plot_data := set_index_frame df cats]> (heap w)) w)
      end
    else (Raised KeyError, w)
  else
    match cats with
    | c :: _ =>
        if is_variable df var && in_list c (columns df)
           && has_levels (map LScalar (column_values df c)) then
          let raw := displot_figure df var None None true (Some "sqrt") None
                       (Some (map LScalar (column_values df c))) (Some 3) in
          (Returned (decorate title raw), with_event (EvDisplot raw) w)
        else (Raised ValueError, w)
    | [] => (Raised IndexError, w)
    end.
Proof.
  intros Hdf. unfold __plot_dist_by_categoricals. unfold mbind at 1, M_bind at 1.
  destruct (Nat.ltb 1 (length cats)).
  - rewrite (fuse_index_spec _ _ _ _ _ Hdf).
    destruct (forallb _ cats); [|reflexivity].
    destruct (composite_labels df cats) as [labels|] eqn:Hl; [|reflexivity].
    cbn zeta.
    erewrite displot_spec by (cbn [heap with_heap]; apply lookup_insert_eq).
    destruct (is_variable (reindexed df cats labels) var); [|reflexivity].
    cbn [negb facet_of]. fold (str_labels labels). unfold str_labels at 1.
    cbn [rows reindexed set_index_frame].
    rewrite !length_map, (composite_labels_length _ _ _ Hl), Nat.eqb_refl.
    fold (str_labels labels). cbn [andb]. destruct (has_levels _); [|reflexivity].
    first [reflexivity | destruct (kde_accepts _ _ _ _); reflexivity].
  - destruct cats as [|c cats']; [reflexivity|].
    rewrite (displot_spec _ _ _ _ _ _ _ _ _ _ _ Hdf).
    destruct (is_variable df var); [|reflexivity].
    cbn [negb facet_of andb]. destruct (in_list c (columns df)); [|reflexivity].
    cbn [andb]. destruct (has_levels _); [|reflexivity].
    first [reflexivity | destruct (kde_accepts _ _ _ _); reflexivity].
Qed.

(** [__plot_biv_dist_by_categoricals], case by case: the figure is built
    from the frame of [data] itself. *)
Lemma plot_biv_dist_by_categoricals_spec data v1 v2 plot_type cats w df :
  heap w !! data = Some df ->
  __plot_biv_dist_by_categoricals data v1 v2 plot_type cats w =
  let title := [FLit "DISTRIBUTION OF "; FVal v1; FLit ", "; FVal v2;
                FLit " BY "; FVal (PList cats)] in
  if Nat.ltb 1 (length cats) then
    if forallb (fun c => in_list c (columns df)) cats then
      let plot_data := fresh (dom (heap w)) in
      match composite_labels df cats with
      | Some labels =>
          let pdf := reindexed df cats labels in
          let w1 := with_heap (<[plot_data := pdf]> (heap w)) w in
          if is_variable df v1 && is_variable df v2 && has_levels (str_labels labels) then
            if kde_accepts df (Some (kind_of plot_type)) v1 (Some v2) then
              let raw := displot_figure df v1 (Some v2) (Some (kind_of plot_type)) false
                           None None (Some (str_labels labels)) (Some 3) in
              (Returned (decorate title raw), with_event (EvDisplot raw) w1)
            else (Raised TypeError, w1)
          else (Raised ValueError, w1)
      | None =>
          (Raised TypeError,
           with_heap (<[plot_data := set_index_frame df cats]> (heap w)) w)
      end
    else (Raised KeyError, w)
  else
    match cats with
    | c :: _ =>
        if is_variable df v1 && is_variable df v2 && in_list c (columns df)
           && has_levels (map LScalar (column_values df c)) then
          if kde_accepts df (Some (kind_of plot_type)) v1 (Some v2) then
            let raw := displot_figure df v1 (Some v2) (Some (kind_of plot_type)) false
                         None None (Some (map LScalar (column_values df c))) (Some 3) in
            (Returned (decorate title raw), with_event (EvDisplot raw) w)
          else (Raised TypeError, w)
        else (Raised ValueError, w)
    | [] => (Raised IndexError, w)
    end.
Proof.
  intros Hdf. unfold __plot_biv_dist_by_categoricals. unfold mbind at 1, M_bind at 1.
  destruct (Nat.ltb 1 (length cats)).
  - rewrite (fuse_index_spec _ _ _ _ _ Hdf).
    destruct (forallb _ cats); [|reflexivity].
    destruct (composite_labels df cats) as [labels|] eqn:Hl; [|reflexivity].
    cbn zeta.
    erewrite displot_spec
      by (cbn [heap with_heap]; rewrite lookup_insert_ne by (eapply fresh_loc_ne; exact Hdf);
          exact Hdf).
    destruct (is_variable df v1); [|reflexivity].
    destruct (is_variable df v2); [|reflexivity].
    cbn [negb facet_of andb]. fold (str_labels labels). unfold str_labels at 1.
    rewrite !length_map, (composite_labels_length _ _ _ Hl), Nat.eqb_refl.
    fold (str_labels labels). cbn [andb]. destruct (has_levels _); [|reflexivity].
    first [reflexivity | destruct (kde_accepts _ _ _ _); reflexivity].
  - destruct cats as [|c cats']; [reflexivity|].
    rewrite (displot_spec _ _ _ _ _ _ _ _ _ _ _ Hdf).
    destruct (is_variable df v1); [|reflexivity].
    destruct (is_variable df v2); [|reflexivity].
    cbn [negb facet_of andb]. destruct (in_list c (columns df)); [|reflexivity].
    cbn [andb]. destruct (has_levels _); [|reflexivity].
    first [reflexivity | destruct (kde_accepts _ _ _ _); reflexivity].
Qed.

(** The kind the bivariate builders ask for is accepted when the plot type
    is not 'gaussian', or the two variables are numeric. *)
Lemma kde_accepts_kind_of df plot_type v1 v2 :
  (plot_type = PStr "gaussian" -> is_numeric df v1 = true /\ is_numeric df v2 = true) ->
  kde_accepts df (Some (kind_of plot_type)) v1 (Some v2) = true.
Proof.
  intros H. unfold kind_of.
  destruct (bool_decide (plot_type = PStr "gaussian")) eqn:Hg; [|reflexivity].
  apply bool_decide_eq_true in Hg. destruct (H Hg) as [H1 H2].
  unfold kde_accepts. rewrite H1, H2. reflexivity.
Qed.

Lemma all_numbers_numeric df x : all_numbers df x -> is_numeric df (PStr x) = true.
Proof.
  intros H. cbn [is_numeric]. apply forallb_forall. intros v Hv.
  destruct (H v (proj2 (list_elem_of_In _ _) Hv)) as [z ->]. reflexivity.
Qed.

(** A check of [all_numbers] by computation. *)
Lemma all_numbers_check df x :
  forallb (fun v => match v with SInt _ => true | _ => false end) (column_values df x) = true ->
  all_numbers df x.
Proof.
  intros H v Hv. rewrite forallb_forall in H.
  specialize (H v (proj1 (list_elem_of_In _ _) Hv)). destruct v; try discriminate H. eauto.
Qed.

End builders.
(** ** The handlers, step by step *)

Section handlers.

Lemma show_dist_unfold data args w :
  show_dist data args w =
  match heap w !! data with
  | None => (Raised AttributeError, w)
  | Some df =>
      match argparse.parse_args (show_dist_parser df) args with
      | argparse.Error e => (Raised (SystemExit (argparse.exit_status e) e), w)
      | argparse.Ok ns =>
          match ns !! "outfile" with
          | None => (Raised AttributeError, w)
          | Some outfile =>
              if Z.eqb (check_valid_png outfile) (-1) then (Returned tt, w)
              else
                match ns !! "categoricals", ns !! "var" with
                | Some categoricals, Some var =>
                    save_and_show
                      (if bool_decide (categoricals = PList [])
                       then __plot_dist data var
                       else cs ← expect_list categoricals;
                            __plot_dist_by_categoricals data var cs)
                      outfile w
                | _, _ => (Raised AttributeError, w)
                end
          end
      end
  end.
Proof.
  unfold show_dist, save_and_show, mbind, M_bind, deref, parse_args, getattr.
  destruct (heap w !! data) as [df|]; [|reflexivity].
  destruct (argparse.parse_args _ args) as [ns|e]; [|reflexivity].
  cbn [mret M_ret]. destruct (ns !! "outfile") as [o|]; [|reflexivity].
  cbn [mret M_ret]. destruct (Z.eqb _ _); [reflexivity|].
  destruct (ns !! "categoricals") as [cats|]; [|reflexivity].
  destruct (ns !! "var") as [v|]; reflexivity.
Qed.

Lemma show_biv_dist_unfold data args w :
  show_biv_dist data args w =
  match heap w !! data with
  | None => (Raised AttributeError, w)
  | Some df =>
      match argparse.parse_args (show_biv_dist_parser df) args with
      | argparse.Error e => (Raised (SystemExit (argparse.exit_status e) e), w)
      | argparse.Ok ns =>
          match ns !! "outfile" with
          | None => (Raised AttributeError, w)
          | Some outfile =>
              if Z.eqb (check_valid_png outfile) (-1) then (Returned tt, w)
              else
                match ns !! "categoricals", ns !! "v1", ns !! "v2", ns !! "plot_type" with
                | Some categoricals, Some v1, Some v2, Some plot_type =>
                    save_and_show
                      (if bool_decide (categoricals = PList [])
                       then __plot_biv_dist data v1 v2 plot_type
                       else cs ← expect_list categoricals;
                            __plot_biv_dist_by_categoricals data v1 v2 plot_type cs)
                      outfile w
                | _, _, _, _ => (Raised AttributeError, w)
                end
          end
      end
  end.
Proof.
  unfold show_biv_dist, save_and_show, mbind, M_bind, deref, parse_args, getattr.
  destruct (heap w !! data) as [df|]; [|reflexivity].
  destruct (argparse.parse_args _ args) as [ns|e]; [|reflexivity].
  cbn [mret M_ret]. destruct (ns !! "outfile") as [o|]; [|reflexivity].
  cbn [mret M_ret]. destruct (Z.eqb _ _); [reflexivity|].
  destruct (ns !! "categoricals") as [cats|]; [|reflexivity].
  destruct (ns !! "v1") as [v1|]; [|reflexivity].
  destruct (ns !! "v2") as [v2|]; [|reflexivity].
  destruct (ns !! "plot_type") as [pt|]; reflexivity.
Qed.

Lemma fresh_loc_None (w : World) : heap w !! fresh (dom (heap w)) = None.
Proof. apply not_elem_of_dom. apply is_fresh. Qed.

Lemma builds_only_raise data df w e :
  heap w !! data = Some df -> builds_only data df w (raise e).
Proof. intros Hdf. unfold builds_only, raise; cbn. auto. Qed.

Ltac builds_only_leaf Hdf :=
  cbn [fst snd heap files log with_heap with_event];
  repeat split;
  first [ reflexivity
        | exact Hdf
        | eexists; reflexivity
        | apply insert_subseteq, fresh_loc_None
        | rewrite lookup_insert_ne by (eapply fresh_loc_ne; exact Hdf); exact Hdf ].

Lemma builds_only_plot_dist data df w var :
  heap w !! data = Some df -> builds_only data df w (__plot_dist data var).
Proof.
  intros Hdf. unfold builds_only. rewrite (plot_dist_spec _ _ _ _ Hdf).
  cbn zeta. destruct (is_variable df var); builds_only_leaf Hdf.
Qed.

Lemma builds_only_plot_biv_dist data df w v1 v2 pt :
  heap w !! data = Some df -> builds_only data df w (__plot_biv_dist data v1 v2 pt).
Proof.
  intros Hdf. unfold builds_only. rewrite (plot_biv_dist_spec _ _ _ _ _ _ Hdf).
  cbn zeta. destruct (_ && _); [destruct (kde_accepts _ _ _ _)|]; builds_only_leaf Hdf.
Qed.

Lemma builds_only_plot_dist_by_categoricals data df w var cs :
  heap w !! data = Some df ->
  builds_only data df w (__plot_dist_by_categoricals data var cs).
Proof.
  intros Hdf. unfold builds_only.
  rewrite (plot_dist_by_categoricals_spec _ _ _ _ _ Hdf). cbn zeta.
  destruct (Nat.ltb 1 (length cs)).
  - destruct (forallb _ cs); [|builds_only_leaf Hdf].
    destruct (composite_labels df cs) as [labels|]; [|builds_only_leaf Hdf].
    destruct (_ && _); builds_only_leaf Hdf.
  - destruct cs as [|c cs']; [builds_only_leaf Hdf|].
    destruct (_ && _); builds_only_leaf Hdf.
Qed.

Lemma builds_only_plot_biv_dist_by_categoricals data df w v1 v2 pt cs :
  heap w !! data = Some df ->
  builds_only data df w (__plot_biv_dist_by_categoricals data v1 v2 pt cs).
Proof.
  intros Hdf. unfold builds_only.
  rewrite (plot_biv_dist_by_categoricals_spec _ _ _ _ _ _ _ Hdf). cbn zeta.
  destruct (Nat.ltb 1 (length cs)).
  - destruct (forallb _ cs); [|builds_only_leaf Hdf].
    destruct (composite_labels df cs) as [labels|]; [|builds_only_leaf Hdf].
    destruct (_ && _); [destruct (kde_accepts _ _ _ _)|]; builds_only_leaf Hdf.
  - destruct cs as [|c cs']; [builds_only_leaf Hdf|].
    destruct (_ && _); [destruct (kde_accepts _ _ _ _)|]; builds_only_leaf Hdf.
Qed.

Lemma builds_only_choice data df w (categoricals : pyval) (one : M Figure)
    (many : list string -> M Figure) :
  heap w !! data = Some df ->
  builds_only data df w one ->
  (forall cs, builds_only data df w (many cs)) ->
  builds_only data df w
    (if bool_decide (categoricals = PList []) then one
     else cs ← expect_list categoricals; many cs).
Proof.
  intros Hdf Hone Hmany. destruct (bool_decide _); [exact Hone|].
  destruct categoricals as [|s|cs]; try (apply builds_only_raise; exact Hdf).
  apply Hmany.
Qed.

Lemma save_and_show_spec build outfile w :
  save_and_show build outfile w =
  match build w with
  | (Returned plot, w1) =>
      match outfile with
      | PStr path =>
          (Returned tt,
           {| heap := heap w1; files := <[path := plot]> (files w1);
              log := log w1 ++ [EvSavefig path plot; EvOpen path; EvShow plot] |})
      | _ => (Raised TypeError, w1)
      end
  | (Raised e, w1) => (Raised e, w1)
  end.
Proof.
  unfold save_and_show, mbind, M_bind. destruct (build w) as [[plot|e] w1]; [|reflexivity].
  destruct outfile as [|path|l]; try reflexivity.
  cbn [savefig Image_open files]. rewrite lookup_insert_eq.
  unfold Image_show, emit; cbn [heap files log].
  rewrite <- !app_assoc. reflexivity.
Qed.

Lemma save_and_show_effect data df w build outfile :
  heap w !! data = Some df ->
  builds_only data df w build ->
  handler_effect data w (save_and_show build outfile w).
Proof.
  intros Hdf (Hheap & Hdata & Hfiles & Hlog). unfold handler_effect.
  rewrite save_and_show_spec. destruct (build w) as [[plot|e] w1]; cbn [fst snd] in *.
  - destruct Hlog as [raw Hlog].
    destruct outfile as [|path|l]; cbn [fst snd heap files log].
    + rewrite Hdata, Hdf. repeat split; [exact Hheap | exact Hfiles | right; exists raw; exact Hlog].
    + rewrite Hdata, Hdf. repeat split; [exact Hheap|]. right. exists raw, plot, path.
      rewrite Hfiles, Hlog, <- app_assoc. split; reflexivity.
    + rewrite Hdata, Hdf. repeat split; [exact Hheap | exact Hfiles | right; exists raw; exact Hlog].
  - rewrite Hdata, Hdf. repeat split; [exact Hheap | exact Hfiles | left; exact Hlog].
Qed.

Lemma handler_effect_same data w (o : outcome unit) :
  handler_effect data w (o, w).
Proof.
  unfold handler_effect; cbn. repeat split; [reflexivity|].
  destruct o; [left; reflexivity | split; [reflexivity | left; reflexivity]].
Qed.

(** What either handler does to the world, whatever it is called with. *)
Lemma handle_effect c data args w :
  handler_effect data w (handle c data args w).
Proof.
  destruct c; cbn [handle].
  - rewrite show_dist_unfold.
    destruct (heap w !! data) as [df|] eqn:Hdf; [|apply handler_effect_same].
    destruct (argparse.parse_args _ args) as [ns|e]; [|apply handler_effect_same].
    destruct (ns !! "outfile") as [o|]; [|apply handler_effect_same].
    destruct (Z.eqb _ _); [apply handler_effect_same|].
    destruct (ns !! "categoricals") as [cats|]; [|apply handler_effect_same].
    destruct (ns !! "var") as [v|]; [|apply handler_effect_same].
    apply (save_and_show_effect _ df); [exact Hdf|].
    apply builds_only_choice; [exact Hdf | |intros cs].
    + apply builds_only_plot_dist; exact Hdf.
    + apply builds_only_plot_dist_by_categoricals; exact Hdf.
  - rewrite show_biv_dist_unfold.
    destruct (heap w !! data) as [df|] eqn:Hdf; [|apply handler_effect_same].
    destruct (argparse.parse_args _ args) as [ns|e]; [|apply handler_effect_same].
    destruct (ns !! "outfile") as [o|]; [|apply handler_effect_same].
    destruct (Z.eqb _ _); [apply handler_effect_same|].
    destruct (ns !! "categoricals") as [cats|]; [|apply handler_effect_same].
    destruct (ns !! "v1") as [v1|]; [|apply handler_effect_same].
    destruct (ns !! "v2") as [v2|]; [|apply handler_effect_same].
    destruct (ns !! "plot_type") as [pt|]; [|apply handler_effect_same].
    apply (save_and_show_effect _ df); [exact Hdf|].
    apply builds_only_choice; [exact Hdf | |intros cs].
    + apply builds_only_plot_biv_dist; exact Hdf.
    + apply builds_only_plot_biv_dist_by_categoricals; exact Hdf.
Qed.

End handlers.
(** ** The parsers of the two commands *)

Section parsers.
Import argparse.

Lemma justified_str p ns d v cs :
  ns_justified p ns -> ns !! d = Some (PStr v) ->
  (forall a, a ∈ actions p -> dest a = Some d ->
     choices a = Some cs /\ (default a = Some (PStr v) -> v ∈ cs)) ->
  v ∈ cs.
Proof.
  intros Hj Hd Hacts. destruct (Hj _ _ Hd) as (a & Ha & Hdest & Hv).
  destruct (Hacts a Ha Hdest) as [Hcs Hdef].
  destruct Hv as [Hv|[args Hv]]; [apply Hdef; exact Hv|].
  eapply get_values_str; [exact Hv | exact Hcs].
Qed.

Lemma justified_list p ns d cs :
  ns_justified p ns -> is_Some (ns !! d) ->
  (forall a, a ∈ actions p -> dest a = Some d ->
     nargs a = NargsZeroOrMore /\ is_positional_action a = false /\
     choices a = Some cs /\ default a = Some (PList [])) ->
  exists l, ns !! d = Some (PList l) /\ Forall (fun x => x ∈ cs) l.
Proof.
  intros Hj [v Hd] Hacts. destruct (Hj _ _ Hd) as (a & Ha & Hdest & Hv).
  destruct (Hacts a Ha Hdest) as (Hn & Hp & Hcs & Hdef).
  destruct Hv as [Hv|[args Hv]].
  - rewrite Hdef in Hv. injection Hv as <-. exists []. split; [exact Hd | constructor].
  - destruct (get_values_star _ _ _ Hv Hn Hp) as (l & -> & Hl).
    exists l. split; [exact Hd | apply Hl; exact Hcs].
Qed.

Ltac pick_action Ha Hdest :=
  cbn in Ha;
  repeat (apply elem_of_cons in Ha as [->|Ha]);
  [.. | apply elem_of_nil in Ha; destruct Ha];
  try discriminate Hdest.

(** What a namespace returned by the parser of a command holds. *)
Lemma parsed_names_valid c df args ns :
  parse_args (parser_of c df) args = Ok ns ->
  (forall d v, d ∈ variables_of c -> ns !! d = Some (PStr v) -> v ∈ get_numericals df) /\
  (exists cs, ns !! "categoricals" = Some (PList cs) /\ Forall (fun x => x ∈ columns df) cs) /\
  (exists outfile, ns !! "outfile" = Some outfile) /\
  (forall t, ns !! "plot_type" = Some (PStr t) -> t ∈ ["heatmap"; "gaussian"]).
Proof.
  intros H. pose proof (parse_args_justified _ _ _ H) as Hj.
  pose proof (fun d => parse_args_defaults _ _ _ d H) as Hdom.
  split; [|split; [|split]].
  - intros d v Hd Hv. eapply justified_str; [exact Hj | exact Hv|].
    intros a Ha Hdest. destruct c; cbn in Hd.
    + apply list_elem_of_singleton in Hd as ->. pick_action Ha Hdest.
      split; [reflexivity | discriminate].
    + apply elem_of_cons in Hd as [->|Hd]; [|apply list_elem_of_singleton in Hd as ->];
        pick_action Ha Hdest; (split; [reflexivity | discriminate]).
  - eapply justified_list; [exact Hj | |].
    + apply Hdom. destruct c; vm_compute; eauto.
    + intros a Ha Hdest. destruct c; pick_action Ha Hdest; repeat split.
  - apply Hdom. destruct c; vm_compute; eauto.
  - intros t Ht. destruct c.
    + destruct (Hj _ _ Ht) as (a & Ha & Hdest & _). pick_action Ha Hdest.
    + eapply justified_str; [exact Hj | exact Ht|].
      intros a Ha Hdest. pick_action Ha Hdest.
      split; [reflexivity|]. intros [= <-]. left.
Qed.

(** The same of whatever the parser of a command has read on the way. *)
Lemma justified_names_valid c df ns :
  ns_justified (parser_of c df) ns ->
  (forall d v, d ∈ variables_of c -> ns !! d = Some (PStr v) -> v ∈ get_numericals df) /\
  (forall cs, ns !! "categoricals" = Some (PList cs) -> Forall (fun x => x ∈ columns df) cs) /\
  (forall t, ns !! "plot_type" = Some (PStr t) -> t ∈ ["heatmap"; "gaussian"]).
Proof.
  intros Hj. split; [|split].
  - intros d v Hd Hv. eapply justified_str; [exact Hj | exact Hv|].
    intros a Ha Hdest. destruct c; cbn in Hd.
    + apply list_elem_of_singleton in Hd as ->. pick_action Ha Hdest.
      split; [reflexivity | discriminate].
    + apply elem_of_cons in Hd as [->|Hd]; [|apply list_elem_of_singleton in Hd as ->];
        pick_action Ha Hdest; (split; [reflexivity | discriminate]).
  - intros cs Hcs.
    destruct (justified_list (parser_of c df) ns "categoricals" (columns df) Hj)
      as (l & Hl & Hall); [eauto | |].
    + intros a Ha Hdest. destruct c; pick_action Ha Hdest; repeat split.
    + rewrite Hcs in Hl. injection Hl as <-. exact Hall.
  - intros t Ht. destruct c.
    + destruct (Hj _ _ Ht) as (a & Ha & Hdest & _). pick_action Ha Hdest.
    + eapply justified_str; [exact Hj | exact Ht|].
      intros a Ha Hdest. pick_action Ha Hdest.
      split; [reflexivity|]. intros [= <-]. left.
Qed.

End parsers.
(** ** Claims about both handlers *)

Section both_handlers.

Lemma save_and_show_returned data df w build outfile w' :
  heap w !! data = Some df ->
  builds_only data df w build ->
  save_and_show build outfile w = (Returned tt, w') ->
  exists raw plot path,
    outfile = PStr path /\
    files w' = <[path := plot]> (files w) /\
    log w' = log w ++ [EvDisplot raw; EvSavefig path plot; EvOpen path; EvShow plot].
Proof.
  intros Hdf (_ & _ & Hfiles & Hlog). rewrite save_and_show_spec.
  destruct (build w) as [[plot|e] w1]; cbn [fst snd] in *; [|discriminate].
  destruct Hlog as [raw Hlog].
  destruct outfile as [|path|l]; try discriminate.
  intros [= <-]. exists raw, plot, path. cbn [files log].
  rewrite Hfiles, Hlog, <- app_assoc. repeat split.
Qed.

(** The two ways a handler returns: at once, on an output name that
    [check_valid_png] refuses, or after the whole pipeline. *)
Lemma handle_returned c data args w w' :
  handle c data args w = (Returned tt, w') ->
  exists df ns outfile,
    heap w !! data = Some df /\
    argparse.parse_args (parser_of c df) args = argparse.Ok ns /\
    ns !! "outfile" = Some outfile /\
    ((check_valid_png outfile = (-1)%Z /\ w' = w) \/
     (check_valid_png outfile <> (-1)%Z /\
      exists raw plot path,
        outfile = PStr path /\
        files w' = <[path := plot]> (files w) /\
        log w' = log w ++ [EvDisplot raw; EvSavefig path plot; EvOpen path; EvShow plot])).
Proof.
  destruct c; cbn [handle parser_of].
  - rewrite show_dist_unfold.
    destruct (heap w !! data) as [df|] eqn:Hdf; [|discriminate].
    destruct (argparse.parse_args _ args) as [ns|e] eqn:Hns; [|discriminate].
    destruct (ns !! "outfile") as [o|] eqn:Ho; [|discriminate].
    destruct (Z.eqb_spec (check_valid_png o) (-1)) as [Hc|Hc].
    { intros [= <-]. exists df, ns, o. repeat split; try assumption. left. split; [exact Hc | reflexivity]. }
    destruct (ns !! "categoricals") as [cats|]; [|discriminate].
    destruct (ns !! "var") as [v|]; [|discriminate].
    intros H. exists df, ns, o. repeat split; try assumption. right. split; [exact Hc|].
    eapply save_and_show_returned; [exact Hdf | | exact H].
    apply builds_only_choice; [exact Hdf | |intros cs].
    + apply builds_only_plot_dist; exact Hdf.
    + apply builds_only_plot_dist_by_categoricals; exact Hdf.
  - rewrite show_biv_dist_unfold.
    destruct (heap w !! data) as [df|] eqn:Hdf; [|discriminate].
    destruct (argparse.parse_args _ args) as [ns|e] eqn:Hns; [|discriminate].
    destruct (ns !! "outfile") as [o|] eqn:Ho; [|discriminate].
    destruct (Z.eqb_spec (check_valid_png o) (-1)) as [Hc|Hc].
    { intros [= <-]. exists df, ns, o. repeat split; try assumption. left. split; [exact Hc | reflexivity]. }
    destruct (ns !! "categoricals") as [cats|]; [|discriminate].
    destruct (ns !! "v1") as [v1|]; [|discriminate].
    destruct (ns !! "v2") as [v2|]; [|discriminate].
    destruct (ns !! "plot_type") as [pt|]; [|discriminate].
    intros H. exists df, ns, o. repeat split; try assumption. right. split; [exact Hc|].
    eapply save_and_show_returned; [exact Hdf | | exact H].
    apply builds_only_choice; [exact Hdf | |intros cs].
    + apply builds_only_plot_biv_dist; exact Hdf.
    + apply builds_only_plot_biv_dist_by_categoricals; exact Hdf.
Qed.

Lemma handle_parse_error c data args w df e :
  heap w !! data = Some df ->
  argparse.parse_args (parser_of c df) args = argparse.Error e ->
  handle c data args w = (Raised (SystemExit (argparse.exit_status e) e), w).
Proof.
  intros Hdf He. destruct c; cbn [handle parser_of] in *.
  - rewrite show_dist_unfold, Hdf, He. reflexivity.
  - rewrite show_biv_dist_unfold, Hdf, He. reflexivity.
Qed.

(** C2. A call of either handler whose parsed output filename
    [check_valid_png] answers with -1 returns at once: no exception is
    raised and the world is the one before the call, so no plot was built
    and no file was written. *)
Theorem invalid_extension_returns_early c data args w df ns outfile :
  heap w !! data = Some df ->
  argparse.parse_args (parser_of c df) args = argparse.Ok ns ->
  ns !! "outfile" = Some outfile ->
  check_valid_png outfile = (-1)%Z ->
  handle c data args w = (Returned tt, w).
Proof.
  intros Hdf Hns Ho Hc. destruct c; cbn [handle parser_of] in *.
  - rewrite show_dist_unfold, Hdf, Hns, Ho, Hc. reflexivity.
  - rewrite show_biv_dist_unfold, Hdf, Hns, Ho, Hc. reflexivity.
Qed.

(** C3, as amended.  Take a token list in which the parser of a command,
    on its way through the tokens, reads a required variable outside the
    numerical columns or a categorical that is not a column: at some point
    of the parse (after some rounds of its loop, or at its end) the names
    read, [choices] left aside, hold such a name.  Nothing has ended the
    parse before that point: no option string of the list is ambiguous, and
    no help option comes before the name.  Then the parser of the command
    rejects the token list as an invalid choice, and the handler ends in
    the [SystemExit] of that usage error with the world untouched: nothing
    was plotted or written.  And whatever the token list, the parser never
    returns a namespace that holds such a name. *)
Theorem invalid_names_rejected c data args w df :
  heap w !! data = Some df ->
  (forall rounds ns,
     names_read (argparse.strip_choices (parser_of c df)) rounds args = argparse.Ok ns ->
     invalid_names c df ns ->
     exists argument value,
       argparse.parse_args (parser_of c df) args
         = argparse.Error (argparse.InvalidChoice argument value) /\
       handle c data args w
         = (Raised (SystemExit 2 (argparse.InvalidChoice argument value)), w)) /\
  (forall ns,
     argparse.parse_args (parser_of c df) args = argparse.Ok ns -> ~ invalid_names c df ns).
Proof.
  intros Hdf.
  assert (Hvalid : forall ns, ns_justified (parser_of c df) ns -> ~ invalid_names c df ns).
  { intros ns Hj Hbad. destruct (justified_names_valid c df _ Hj) as (Hvars & Hcats & _).
    destruct Hbad as [(d & v & Hd & Hv & Hnot)|(cs' & x & Hcs' & Hx & Hnot)].
    - apply Hnot. eapply Hvars; eassumption.
    - apply Hnot. specialize (Hcats _ Hcs'). rewrite Forall_forall in Hcats.
      apply Hcats. exact Hx. }
  split.
  - intros rounds ns Hread Hbad.
    destruct (read_invalid_choice _ _ _ _ Hread) as (a & x & Hparse).
    + intros Hj. exact (Hvalid _ Hj Hbad).
    + exists a, x. split; [exact Hparse|].
      apply (handle_parse_error _ _ _ _ _ _ Hdf Hparse).
  - intros ns Hns. apply Hvalid. eapply parse_args_justified. exact Hns.
Qed.

(** C7. No call of either handler changes the dataset: the frame [data]
    refers to is the same after the call as before, and so is every other
    object that existed ([set_index] made its own new object, and only that
    one was given a new index). *)
Theorem handlers_leave_dataset_unchanged c data args w :
  heap (snd (handle c data args w)) !! data = heap w !! data /\
  heap w ⊆ heap (snd (handle c data args w)).
Proof.
  destruct (handle_effect c data args w) as (Hsub & Hdata & _).
  split; [exact Hdata | exact Hsub].
Qed.

(** C8. A call of either handler that returns after the pipeline (its
    output name passed [check_valid_png]) has built one figure, then saved
    the figure to the output file, then opened that same file, then shown
    the image it holds, and that image is the figure just written.  The
    only other way to return is the early return on a refused name. *)
Theorem saved_then_shown c data args w w' :
  handle c data args w = (Returned tt, w') ->
  exists df ns outfile,
    heap w !! data = Some df /\
    argparse.parse_args (parser_of c df) args = argparse.Ok ns /\
    ns !! "outfile" = Some outfile /\
    ((check_valid_png outfile = (-1)%Z /\ w' = w) \/
     (check_valid_png outfile <> (-1)%Z /\
      exists raw plot path,
        outfile = PStr path /\
        log w' = log w ++ [EvDisplot raw; EvSavefig path plot; EvOpen path; EvShow plot] /\
        files w' !! path = Some plot)).
Proof.
  intros H. destruct (handle_returned _ _ _ _ _ H) as (df & ns & o & Hdf & Hns & Ho & Hcases).
  exists df, ns, o. repeat split; try assumption.
  destruct Hcases as [Hearly|(Hc & raw & plot & path & -> & Hfiles & Hlog)]; [left; exact Hearly|].
  right. split; [exact Hc|]. exists raw, plot, path.
  repeat split; [exact Hlog|]. rewrite Hfiles. apply lookup_insert_eq.
Qed.

End both_handlers.
(** ** Calls that give only the variables *)

Section plain_calls.
Import argparse.

Lemma is_argument_string_eqb p v :
  is_argument_string p v = true ->
  String.eqb v "--" = false /\ String.eqb "--" v = false /\ parse_optional p v = Ok None.
Proof.
  unfold is_argument_string. intros H. apply andb_true_iff in H as [H1 H2].
  apply negb_true_iff in H1. split; [exact H1|]. split; [rewrite String.eqb_sym; exact H1|].
  destruct (parse_optional p v) as [[t|]|]; try discriminate. reflexivity.
Qed.

(** A string that does not start with '-' is read as an argument. *)
Lemma plain_is_argument_string p v :
  starts_with_dash v = false -> is_argument_string p v = true.
Proof.
  intros H.
  assert (Heq : String.eqb v "--" = false).
  { destruct (String.eqb_spec v "--") as [->|]; [discriminate H | reflexivity]. }
  unfold is_argument_string, parse_optional. rewrite Heq, H.
  destruct (String.eqb v EmptyString); reflexivity.
Qed.

Lemma classify_argument p v rest :
  is_argument_string p v = true ->
  classify p (v :: rest) = items ← classify p rest; Ok ((v, ClsA) :: items).
Proof.
  intros H. apply is_argument_string_eqb in H as (H1 & _ & H2).
  cbn [classify]. rewrite H1, H2. reflexivity.
Qed.

Lemma classify_arguments p vs :
  Forall (fun v => is_argument_string p v = true) vs ->
  classify p vs = Ok (map (fun v => (v, ClsA)) vs).
Proof.
  induction 1 as [|v vs Hv _ IH]; [reflexivity|].
  rewrite (classify_argument _ _ _ Hv), IH. reflexivity.
Qed.

Lemma parse_loop_no_options p fuel st items :
  existsb is_option items = false -> parse_loop p fuel st items = Ok (st, items).
Proof. intros H. destruct fuel; cbn [parse_loop]; rewrite H; reflexivity. Qed.

Lemma no_options_arguments (vs : list string) :
  existsb is_option (map (fun v => (v, ClsA)) vs) = false.
Proof. induction vs as [|v vs IH]; [reflexivity | exact IH]. Qed.

(** Without option strings the main loop does nothing: the positionals
    take what they match and the rest is left over. *)
Lemma parse_known_args_arguments p vs :
  Forall (fun v => is_argument_string p v = true) vs ->
  parse_known_args p vs =
  (r ← consume_positionals p
         {| namespace := initial_namespace p; seen_actions := [];
            extras := []; positionals := get_positional_actions p |}
         (map (fun v => (v, ClsA)) vs);
   let st := add_extras (map fst (drop (snd r) (map (fun v => (v, ClsA)) vs))) (fst r) in
   match required_actions p (seen_actions st) with
   | [] => Ok (namespace st, extras st)
   | names => Error (RequiredMissing names)
   end).
Proof.
  intros Hvs. unfold parse_known_args. rewrite (classify_arguments _ _ Hvs).
  cbn [mbind result_bind]. rewrite parse_loop_no_options by apply no_options_arguments.
  reflexivity.
Qed.

Lemma get_values_one a tok :
  String.eqb "--" tok = false ->
  nargs a = NargsNone \/ nargs a = NargsOptional ->
  get_values a [tok] = (_ ← check_value a (PStr tok); Ok (PStr tok)).
Proof.
  intros Htok Hn. unfold get_values. cbn [remove_first]. rewrite Htok.
  destruct Hn as [-> | ->]; reflexivity.
Qed.

Lemma get_values_default a s :
  nargs a = NargsOptional -> is_positional_action a = true ->
  default a = Some (PStr s) ->
  get_values a [] = (_ ← check_value a (PStr s); Ok (PStr s)).
Proof.
  intros Hn Hp Hd. unfold get_values. cbn [remove_first]. rewrite Hn, Hp, Hd. reflexivity.
Qed.

Lemma take_action_store p i a d args st :
  actions p !! i = Some a -> kind a = Store -> dest a = Some d ->
  take_action p i args st =
  (v ← get_values a args;
   Ok (set_namespace (<[d := v]> (namespace st)) (add_seen i st))).
Proof.
  intros Ha Hk Hd. unfold take_action. rewrite Ha, Hk, Hd.
  destruct (get_values a args); reflexivity.
Qed.

Ltac finish_parse :=
  cbn [mbind result_bind fst snd set_positionals set_namespace add_seen add_extras
       namespace seen_actions extras positionals drop map length foldr Nat.add app];
  match goal with
  | |- context [required_actions ?p ?seen] =>
      replace (required_actions p seen) with (@nil string) by (vm_compute; reflexivity)
  end;
  reflexivity.

Lemma parse_uni_single df v :
  is_argument_string (show_dist_parser df) v = true ->
  parse_args (show_dist_parser df) [v] =
  if in_list v (get_numericals df) then Ok (uni_ns df v)
  else Error (InvalidChoice "var" (PStr v)).
Proof.
  intros Hv. unfold parse_args.
  rewrite parse_known_args_arguments by (repeat constructor; exact Hv).
  apply is_argument_string_eqb in Hv as (_ & Hv & _).
  unfold consume_positionals. cbn [positionals pattern map pattern_of snd fst].
  replace (get_positional_actions (show_dist_parser df)) with [1] by reflexivity.
  replace (match_arguments_partial (show_dist_parser df) [1] [PA]) with [1] by reflexivity.
  cbn [slices take drop take_actions].
  erewrite take_action_store by reflexivity.
  rewrite get_values_one by (first [exact Hv | left; reflexivity]).
  unfold check_value at 1. cbn [choices starts_with_dash get_action_name option_strings dest].
  destruct (in_list v (get_numericals df)); [|reflexivity].
  finish_parse.
Qed.

Lemma parse_biv_pair df v1 v2 :
  is_argument_string (show_biv_dist_parser df) v1 = true ->
  is_argument_string (show_biv_dist_parser df) v2 = true ->
  parse_args (show_biv_dist_parser df) [v1; v2] =
  if in_list v1 (get_numericals df) then
    if in_list v2 (get_numericals df) then Ok (biv_ns df v1 v2 "heatmap")
    else Error (InvalidChoice "v2" (PStr v2))
  else Error (InvalidChoice "v1" (PStr v1)).
Proof.
  intros Hv1 Hv2. unfold parse_args.
  rewrite parse_known_args_arguments by (repeat constructor; assumption).
  apply is_argument_string_eqb in Hv1 as (_ & Hv1 & _).
  apply is_argument_string_eqb in Hv2 as (_ & Hv2 & _).
  unfold consume_positionals. cbn [positionals pattern map pattern_of snd fst].
  replace (get_positional_actions (show_biv_dist_parser df)) with [1; 2; 3] by reflexivity.
  replace (match_arguments_partial (show_biv_dist_parser df) [1; 2; 3] [PA; PA])
    with [1; 1; 0] by reflexivity.
  cbn [slices take drop take_actions].
  erewrite take_action_store by reflexivity.
  rewrite get_values_one by (first [exact Hv1 | left; reflexivity]).
  unfold check_value at 1. cbn [choices starts_with_dash get_action_name option_strings dest].
  destruct (in_list v1 (get_numericals df)); [|reflexivity].
  cbn [mbind result_bind].
  erewrite take_action_store by reflexivity.
  rewrite get_values_one by (first [exact Hv2 | left; reflexivity]).
  unfold check_value at 1. cbn [choices starts_with_dash get_action_name option_strings dest].
  destruct (in_list v2 (get_numericals df)); [|reflexivity].
  cbn [mbind result_bind].
  erewrite take_action_store by reflexivity.
  erewrite get_values_default by reflexivity.
  replace (check_value _ (PStr "heatmap")) with (Ok tt) by reflexivity.
  finish_parse.
Qed.

Lemma parse_biv_triple df v1 v2 t :
  is_argument_string (show_biv_dist_parser df) v1 = true ->
  is_argument_string (show_biv_dist_parser df) v2 = true ->
  is_argument_string (show_biv_dist_parser df) t = true ->
  in_list v1 (get_numericals df) = true ->
  in_list v2 (get_numericals df) = true ->
  parse_args (show_biv_dist_parser df) [v1; v2; t] =
  if in_list t ["heatmap"; "gaussian"] then Ok (biv_ns df v1 v2 t)
  else Error (InvalidChoice "plot_type" (PStr t)).
Proof.
  intros Hv1 Hv2 Ht Hin1 Hin2. unfold parse_args.
  rewrite parse_known_args_arguments by (repeat constructor; assumption).
  apply is_argument_string_eqb in Hv1 as (_ & Hv1 & _).
  apply is_argument_string_eqb in Hv2 as (_ & Hv2 & _).
  apply is_argument_string_eqb in Ht as (_ & Ht & _).
  unfold consume_positionals. cbn [positionals pattern map pattern_of snd fst].
  replace (get_positional_actions (show_biv_dist_parser df)) with [1; 2; 3] by reflexivity.
  replace (match_arguments_partial (show_biv_dist_parser df) [1; 2; 3] [PA; PA; PA])
    with [1; 1; 1] by reflexivity.
  cbn [slices take drop take_actions].
  erewrite take_action_store by reflexivity.
  rewrite get_values_one by (first [exact Hv1 | left; reflexivity]).
  unfold check_value at 1. cbn [choices starts_with_dash get_action_name option_strings dest].
  rewrite Hin1. cbn [mbind result_bind].
  erewrite take_action_store by reflexivity.
  rewrite get_values_one by (first [exact Hv2 | left; reflexivity]).
  unfold check_value at 1. cbn [choices starts_with_dash get_action_name option_strings dest].
  rewrite Hin2. cbn [mbind result_bind].
  erewrite take_action_store by reflexivity.
  rewrite get_values_one by (first [exact Ht | right; reflexivity]).
  unfold check_value at 1. cbn [choices starts_with_dash get_action_name option_strings dest].
  destruct (in_list t ["heatmap"; "gaussian"]); [|reflexivity].
  finish_parse.
Qed.

(** What the namespaces of these calls hold. *)
Lemma uni_ns_lookup df v :
  uni_ns df v !! "var" = Some (PStr v) /\
  uni_ns df v !! "outfile" = Some (PStr "output.png") /\
  uni_ns df v !! "categoricals" = Some (PList []).
Proof.
  unfold uni_ns. split; [apply lookup_insert_eq|].
  split; (rewrite lookup_insert_ne by discriminate; vm_compute; reflexivity).
Qed.

Lemma biv_ns_lookup df v1 v2 t :
  biv_ns df v1 v2 t !! "v1" = Some (PStr v1) /\
  biv_ns df v1 v2 t !! "v2" = Some (PStr v2) /\
  biv_ns df v1 v2 t !! "plot_type" = Some (PStr t) /\
  biv_ns df v1 v2 t !! "outfile" = Some (PStr "output.png") /\
  biv_ns df v1 v2 t !! "categoricals" = Some (PList []).
Proof.
  unfold biv_ns. split; [|split; [|split; [|split]]].
  - rewrite !lookup_insert_ne by discriminate. apply lookup_insert_eq.
  - rewrite lookup_insert_ne by discriminate. apply lookup_insert_eq.
  - apply lookup_insert_eq.
  - rewrite !lookup_insert_ne by discriminate. vm_compute. reflexivity.
  - rewrite !lookup_insert_ne by discriminate. vm_compute. reflexivity.
Qed.

Lemma from_Ok_eq {A} (r : result A) (d : A) : is_Ok r = true -> r = Ok (from_Ok d r).
Proof. destruct r; [reflexivity | discriminate]. Qed.

End plain_calls.
(** ** Claims about calls without options *)

Section defaults.

Lemma in_list_true (v : string) (l : list string) : v ∈ l -> in_list v l = true.
Proof. intros H. apply bool_decide_eq_true. exact H. Qed.

Lemma check_passes (outfile : pyval) :
  check_valid_png outfile <> (-1)%Z -> Z.eqb (check_valid_png outfile) (-1) = false.
Proof. intros H. apply Z.eqb_neq. exact H. Qed.

(** C6, as amended.  For every numerical column of the dataset whose name
    argparse reads as an argument (not as an option string or as the
    separator), the univariate handler called with that name alone parses
    the output filename as 'output.png' and, [check_valid_png] accepting
    that name, writes the figure of the variable to the file 'output.png'. *)
Theorem default_output_file data w df v :
  heap w !! data = Some df ->
  v ∈ get_numericals df ->
  v ∈ columns df ->
  argparse.is_argument_string (show_dist_parser df) v = true ->
  check_valid_png (PStr "output.png") <> (-1)%Z ->
  exists ns plot w',
    argparse.parse_args (show_dist_parser df) [v] = argparse.Ok ns /\
    ns !! "outfile" = Some (PStr "output.png") /\
    ns !! "var" = Some (PStr v) /\
    ns !! "categoricals" = Some (PList []) /\
    show_dist data [v] w = (Returned tt, w') /\
    files w' !! "output.png" = Some plot /\
    fig_x plot = PStr v /\ fig_col plot = None.
Proof.
  intros Hdf Hnum Hcol Harg Hpng.
  pose proof (parse_uni_single df v Harg) as Hparse.
  rewrite (in_list_true _ _ Hnum) in Hparse.
  destruct (uni_ns_lookup df v) as (Hvar & Hout & Hcats).
  eexists (uni_ns df v), _, _. split; [exact Hparse|].
  split; [exact Hout|]. split; [exact Hvar|]. split; [exact Hcats|].
  rewrite show_dist_unfold, Hdf, Hparse, Hout, Hcats, Hvar.
  rewrite (check_passes _ Hpng).
  replace (bool_decide (PList [] = PList [])) with true by reflexivity.
  rewrite save_and_show_spec, (plot_dist_spec _ _ _ _ Hdf).
  cbn [is_variable]. rewrite (in_list_true _ _ Hcol). cbn zeta.
  split; [reflexivity|]. cbn [files with_event].
  split; [apply lookup_insert_eq|]. split; reflexivity.
Qed.

(** C10, as amended.  The bivariate handler does not ask its two variables
    to differ: for every numerical column [v] of the dataset whose name
    argparse reads as an argument, the token list [v, v] parses with
    v1 = v2 = v, and, [check_valid_png] accepting the default output name,
    the handler goes on to build the joint plot of [v] with itself. *)
Theorem same_variable_twice data w df v :
  heap w !! data = Some df ->
  v ∈ get_numericals df ->
  v ∈ columns df ->
  argparse.is_argument_string (show_biv_dist_parser df) v = true ->
  check_valid_png (PStr "output.png") <> (-1)%Z ->
  exists ns raw w',
    argparse.parse_args (show_biv_dist_parser df) [v; v] = argparse.Ok ns /\
    ns !! "v1" = Some (PStr v) /\ ns !! "v2" = Some (PStr v) /\
    show_biv_dist data [v; v] w = (Returned tt, w') /\
    EvDisplot raw ∈ log w' /\
    fig_x raw = PStr v /\ fig_y raw = Some (PStr v) /\ fig_kind raw = "hist".
Proof.
  intros Hdf Hnum Hcol Harg Hpng.
  pose proof (parse_biv_pair df v v Harg Harg) as Hparse.
  rewrite (in_list_true _ _ Hnum) in Hparse.
  destruct (biv_ns_lookup df v v "heatmap") as (Hv1 & Hv2 & Hpt & Hout & Hcats).
  eexists (biv_ns df v v "heatmap"), _, _. split; [exact Hparse|].
  split; [exact Hv1|]. split; [exact Hv2|].
  rewrite show_biv_dist_unfold, Hdf, Hparse, Hout, Hcats, Hv1, Hv2, Hpt.
  rewrite (check_passes _ Hpng).
  replace (bool_decide (PList [] = PList [])) with true by reflexivity.
  rewrite save_and_show_spec, (plot_biv_dist_spec _ _ _ _ _ _ Hdf).
  cbn [is_variable]. rewrite (in_list_true _ _ Hcol). cbn zeta. cbn [andb].
  change (kde_accepts df (Some (kind_of (PStr "heatmap"))) (PStr v) (Some (PStr v))) with true.
  split; [reflexivity|]. cbn [log with_event].
  split.
  { apply elem_of_app. left. apply elem_of_app. right. left. }
  split; [reflexivity|]. split; reflexivity.
Qed.

End defaults.
(** ** Composite labels and facets *)

Section facets.

Lemma mapM_as_str t strs : mapM as_str t = Some strs -> t = map SStr strs.
Proof.
  intros H. apply mapM_Some in H.
  induction H as [|x s t strs Hx _ IH]; [reflexivity|].
  destruct x; try discriminate Hx. injection Hx as <-. cbn. rewrite IH. reflexivity.
Qed.

Lemma index_of_keys_tuples df cs :
  2 <= length cs ->
  index_of_keys df cs = map (fun row => LTuple (map (cell (columns df) row) cs)) (rows df).
Proof.
  intros Hlen. unfold index_of_keys. apply map_ext. intros row.
  destruct cs as [|c [|c' cs']]; cbn in Hlen; try lia; reflexivity.
Qed.

Lemma join_strs_joined strs : underscore_joined strs (join_strs "_" strs).
Proof.
  induction strs as [|s [|s' strs] IH]; [constructor | constructor|].
  change (join_strs "_" (s :: s' :: strs)) with (s +:+ "_" +:+ join_strs "_" (s' :: strs)).
  constructor. exact IH.
Qed.

(** Each composite label is the join of the values of its row. *)
Lemma composite_labels_rows df cs labels :
  2 <= length cs ->
  composite_labels df cs = Some labels ->
  Forall2 (joined_row df cs) (rows df) labels.
Proof.
  intros Hlen H. unfold composite_labels in H.
  rewrite (index_of_keys_tuples _ _ Hlen) in H.
  apply mapM_Some in H. apply Forall2_fmap_l in H.
  eapply Forall2_impl; [exact H|]. intros row label Hrow. cbn in Hrow.
  destruct (mapM as_str (map (cell (columns df) row) cs)) as [strs|] eqn:Hstrs;
    [|discriminate Hrow].
  injection Hrow as <-. exists strs. split; [|apply join_strs_joined].
  apply mapM_as_str. exact Hstrs.
Qed.

(** The labels can be formed exactly when every value of the listed
    columns is a string. *)
Lemma composite_labels_all_strings df cs :
  2 <= length cs ->
  is_Some (composite_labels df cs) <-> all_strings df cs.
Proof.
  intros Hlen. unfold composite_labels, all_strings, column_values.
  rewrite (index_of_keys_tuples _ _ Hlen), mapM_is_Some, Forall_fmap, Forall_forall.
  split.
  - intros H c Hc x Hx. apply list_elem_of_fmap in Hx as (row & -> & Hrow).
    specialize (H row Hrow). cbn in H. unfold fmap, option_fmap, option_map in H.
    destruct (mapM as_str (map (cell (columns df) row) cs)) as [strs|] eqn:Hstrs;
      [|destruct H as [? H]; discriminate H].
    apply mapM_Some in Hstrs.
    assert (Hin : cell (columns df) row c ∈ map (cell (columns df) row) cs)
      by (apply list_elem_of_fmap; eauto).
    apply list_elem_of_lookup in Hin as [i Hi].
    destruct (Forall2_lookup_l _ _ _ _ _ Hstrs Hi) as (s & _ & Hs).
    destruct (cell (columns df) row c); try discriminate Hs. eauto.
  - intros H row Hrow. cbn.
    assert (Hm : is_Some (mapM as_str (map (cell (columns df) row) cs))).
    { apply mapM_is_Some, Forall_fmap, Forall_forall. intros c Hc. cbn.
      destruct (H c Hc (cell (columns df) row c)) as [s ->]; [|eauto].
      apply list_elem_of_fmap. eauto. }
    destruct Hm as [strs ->]. eauto.
Qed.

(** *** The levels of a facet variable *)

Lemma length_insert_level x l : length (insert_level x l) = S (length l).
Proof.
  induction l as [|y l IH]; [reflexivity|].
  cbn [insert_level]. destruct (level_leb x y); cbn [length]; [|rewrite IH]; reflexivity.
Qed.

Lemma length_sort_levels l : length (sort_levels l) = length l.
Proof.
  induction l as [|x l IH]; [reflexivity|].
  cbn [sort_levels foldr]. rewrite length_insert_level. fold (sort_levels l).
  rewrite IH. reflexivity.
Qed.

Lemma elem_of_unique x l : x ∈ unique l <-> x ∈ l.
Proof.
  induction l as [|y l IH]; [reflexivity|].
  cbn [unique]. rewrite !elem_of_cons, list_elem_of_filter, IH.
  destruct (decide (x = y)) as [->|Hne]; [tauto|]. tauto.
Qed.

Lemma NoDup_unique l : NoDup (unique l).
Proof.
  induction l as [|y l IH]; [constructor|].
  cbn [unique]. constructor; [|apply NoDup_filter; exact IH].
  rewrite list_elem_of_filter. intros [Hne _]. apply Hne. reflexivity.
Qed.

Lemma length_unique l : length (unique l) = length (remove_dups l).
Proof.
  apply Permutation_length, NoDup_Permutation;
    [apply NoDup_unique | apply NoDup_remove_dups|].
  intros x. rewrite elem_of_unique, elem_of_remove_dups. reflexivity.
Qed.

(** The number of levels is the number of distinct values that are not
    missing, whatever their order. *)
Lemma length_category_levels v :
  length (category_levels v) = length (remove_dups (filter (fun x => notnull x = true) v)).
Proof.
  unfold category_levels. cbn zeta.
  destruct (forallb _ _); [rewrite length_sort_levels|]; apply length_unique.
Qed.

Lemma length_remove_dups_str_labels labels :
  length (category_levels (str_labels labels)) = length (remove_dups labels).
Proof.
  rewrite length_category_levels. unfold str_labels.
  assert (Hf : filter (fun x => notnull x = true) (map (fun s => LScalar (SStr s)) labels)
               = map (fun s => LScalar (SStr s)) labels).
  { induction labels as [|s labels IH]; [reflexivity|].
    cbn [map]. rewrite filter_cons_True by reflexivity. rewrite IH. reflexivity. }
  rewrite Hf. clear Hf.
  induction labels as [|s labels IH]; [reflexivity|].
  cbn [map remove_dups].
  destruct (decide_rel elem_of s labels) as [Hin|Hin];
    destruct (decide_rel elem_of (LScalar (SStr s)) (map (fun s => LScalar (SStr s)) labels))
      as [Hin'|Hin'].
  - exact IH.
  - exfalso. apply Hin'. apply list_elem_of_fmap. eauto.
  - exfalso. apply Hin. apply list_elem_of_fmap in Hin' as (s' & [= ->] & Hs'). exact Hs'.
  - cbn [length]. rewrite IH. reflexivity.
Qed.

Lemma length_levels_column df c :
  length (category_levels (map LScalar (column_values df c))) = length (distinct_values df c).
Proof.
  rewrite length_category_levels. unfold distinct_values.
  generalize (column_values df c) as l.
  assert (Hf : forall l, filter (fun x => notnull x = true) (map LScalar l)
                         = map LScalar (filter (fun v => v <> SNaN) l)).
  { induction l as [|v l IH]; [reflexivity|]. cbn [map].
    destruct v; [rewrite !filter_cons_True by (cbn; congruence) ..
                |rewrite !filter_cons_False by (cbn; congruence)];
      cbn [map]; rewrite IH; reflexivity. }
  intros l. rewrite Hf. generalize (filter (fun v => v <> SNaN) l) as k. clear.
  induction k as [|v k IH]; [reflexivity|].
  cbn [map remove_dups].
  destruct (decide_rel elem_of v k) as [Hin|Hin];
    destruct (decide_rel elem_of (LScalar v) (map LScalar k)) as [Hin'|Hin'].
  - exact IH.
  - exfalso. apply Hin'. apply list_elem_of_fmap. eauto.
  - exfalso. apply Hin. apply list_elem_of_fmap in Hin' as (v' & [= ->] & Hv'). exact Hv'.
  - cbn [length]. rewrite IH. reflexivity.
Qed.

Lemma has_levels_pos v : has_levels v = true <-> 1 <= length (category_levels v).
Proof.
  unfold has_levels. destruct (category_levels v); cbn [length]; split;
    first [discriminate | lia | reflexivity].
Qed.

(** Composite labels have a level as soon as there is a row. *)
Lemma has_levels_str_labels labels : labels <> [] -> has_levels (str_labels labels) = true.
Proof.
  intros Hne. apply has_levels_pos. rewrite length_remove_dups_str_labels.
  destruct labels as [|s labels]; [contradiction|].
  assert (Hs : s ∈ remove_dups (s :: labels)) by (apply elem_of_remove_dups; left).
  destruct (remove_dups (s :: labels)); [inversion Hs | cbn [length]; lia].
Qed.

Lemma has_levels_column df c :
  distinct_values df c <> [] -> has_levels (map LScalar (column_values df c)) = true.
Proof.
  intros Hne. apply has_levels_pos. rewrite length_levels_column.
  destruct (distinct_values df c); [contradiction | cbn [length]; lia].
Qed.

Lemma composite_labels_nonempty df cs labels :
  composite_labels df cs = Some labels -> rows df <> [] -> labels <> [].
Proof.
  intros Hl Hrows ->. apply composite_labels_length in Hl.
  destruct (rows df); [contradiction | discriminate Hl].
Qed.

End facets.
(** ** Claims about the grids and the plot type *)

Section grids.

Lemma forallb_columns df cs :
  Forall (fun x => x ∈ columns df) cs -> forallb (fun c => in_list c (columns df)) cs = true.
Proof.
  intros H. apply forallb_forall. intros c Hc. apply in_list_true.
  rewrite Forall_forall in H. apply H. apply list_elem_of_In. exact Hc.
Qed.

Lemma ltb_1_length {A} (l : list A) : 2 <= length l -> Nat.ltb 1 (length l) = true.
Proof. intros H. apply Nat.ltb_lt. lia. Qed.

(** C5. Whatever figure either builder returns for a non-empty list of
    categoricals is a grid wrapped at 3 columns with at least one subplot;
    for one categorical it has one subplot per distinct value of that
    column, for two or more one per distinct composite label, each label
    being the values of a row joined by underscores.  The builders do
    return a figure when the categoricals are columns that give the grid a
    panel (a column with a value, for one categorical; columns of strings
    and a row, for several) and the variables name columns of the frame
    plotted that hold numbers. *)
Theorem facet_grid_by_categoricals data var v1 v2 pt cs w df :
  heap w !! data = Some df ->
  cs <> [] ->
  (forall plot w',
     __plot_dist_by_categoricals data var cs w = (Returned plot, w') \/
     __plot_biv_dist_by_categoricals data v1 v2 pt cs w = (Returned plot, w') ->
     fig_col_wrap plot = Some 3 /\
     1 <= subplots plot /\
     (forall c, cs = [c] -> subplots plot = length (distinct_values df c)) /\
     (2 <= length cs ->
      exists labels,
        composite_labels df cs = Some labels /\
        Forall2 (joined_row df cs) (rows df) labels /\
        subplots plot = length (remove_dups labels))) /\
  (Forall (fun x => x ∈ columns df) cs ->
   (exists c, cs = [c] /\ distinct_values df c <> []) \/
   (2 <= length cs /\ all_strings df cs /\ rows df <> []) ->
   (forall x1 x2, v1 = PStr x1 -> v2 = PStr x2 -> x1 ∈ columns df -> x2 ∈ columns df ->
    all_numbers df x1 -> all_numbers df x2 ->
    exists plot w',
      __plot_biv_dist_by_categoricals data v1 v2 pt cs w = (Returned plot, w')) /\
   (forall x, var = PStr x -> x ∈ columns (univariate_frame df cs) -> all_numbers df x ->
    exists plot w',
      __plot_dist_by_categoricals data var cs w = (Returned plot, w'))).
Proof.
  intros Hdf Hcs. split.
  - intros plot w' H.
    rewrite (plot_dist_by_categoricals_spec _ _ _ _ _ Hdf),
      (plot_biv_dist_by_categoricals_spec _ _ _ _ _ _ _ Hdf) in H. cbn zeta in H.
    destruct (Nat.ltb 1 (length cs)) eqn:Hlen.
    + apply Nat.ltb_lt in Hlen.
      destruct (forallb _ cs); [|destruct H as [H|H]; discriminate H].
      destruct (composite_labels df cs) as [labels|] eqn:Hl;
        [|destruct H as [H|H]; discriminate H].
      assert (Hplot : fig_col_wrap plot = Some 3 /\ fig_col plot = Some (str_labels labels) /\
                      has_levels (str_labels labels) = true).
      { destruct H as [H|H]; (destruct (_ && _) eqn:Hc; [|discriminate H]);
          try (destruct (kde_accepts _ _ _ _); [|discriminate H]);
          apply andb_prop in Hc as [_ Hc]; injection H as <- _; repeat split; exact Hc. }
      destruct Hplot as (Hwrap & Hcol & Hlev). split; [exact Hwrap|].
      assert (Hsub : subplots plot = length (category_levels (str_labels labels)))
        by (unfold subplots, facet_names; rewrite Hcol; reflexivity).
      split; [rewrite Hsub; apply has_levels_pos; exact Hlev|]. split.
      * intros c ->. cbn in Hlen. lia.
      * intros _. exists labels. split; [reflexivity|].
        split; [apply composite_labels_rows; [lia | exact Hl]|].
        rewrite Hsub. apply length_remove_dups_str_labels.
    + apply Nat.ltb_ge in Hlen. destruct cs as [|c cs']; [contradiction|].
      assert (Hplot : fig_col_wrap plot = Some 3 /\
                      fig_col plot = Some (map LScalar (column_values df c)) /\
                      has_levels (map LScalar (column_values df c)) = true).
      { destruct H as [H|H]; (destruct (_ && _) eqn:Hc; [|discriminate H]);
          try (destruct (kde_accepts _ _ _ _); [|discriminate H]);
          apply andb_prop in Hc as [_ Hc]; injection H as <- _; repeat split; exact Hc. }
      destruct Hplot as (Hwrap & Hcol & Hlev). split; [exact Hwrap|].
      assert (Hsub : subplots plot = length (category_levels (map LScalar (column_values df c))))
        by (unfold subplots, facet_names; rewrite Hcol; reflexivity).
      split; [rewrite Hsub; apply has_levels_pos; exact Hlev|]. split.
      * intros c' [= <- _]. rewrite Hsub. apply length_levels_column.
      * intros Hlen'. lia.
  - intros Hcols Hpanel.
    rewrite (plot_dist_by_categoricals_spec _ _ _ _ _ Hdf),
      (plot_biv_dist_by_categoricals_spec _ _ _ _ _ _ _ Hdf). cbn zeta.
    rewrite (forallb_columns _ _ Hcols). unfold univariate_frame.
    destruct Hpanel as [(c & -> & Hvals)|(Hlen & Hstr & Hrows)].
    + cbn [length Nat.ltb Nat.leb].
      apply Forall_cons in Hcols as [Hc _].
      rewrite (in_list_true _ _ Hc), (has_levels_column _ _ Hvals).
      split.
      * intros x1 x2 -> -> H1 H2 Hn1 Hn2. cbn [is_variable].
        rewrite (in_list_true _ _ H1), (in_list_true _ _ H2).
        rewrite kde_accepts_kind_of
          by (intros _; split; apply all_numbers_numeric; assumption).
        eauto.
      * intros x -> Hx _. cbn [is_variable]. rewrite (in_list_true _ _ Hx). eauto.
    + rewrite (ltb_1_length _ Hlen).
      apply composite_labels_all_strings in Hstr as [labels Hl]; [|exact Hlen].
      rewrite Hl, (has_levels_str_labels _ (composite_labels_nonempty _ _ _ Hl Hrows)).
      split.
      * intros x1 x2 -> -> H1 H2 Hn1 Hn2. cbn [is_variable].
        rewrite (in_list_true _ _ H1), (in_list_true _ _ H2).
        rewrite kde_accepts_kind_of
          by (intros _; split; apply all_numbers_numeric; assumption).
        eauto.
      * intros x -> Hx _. cbn [is_variable reindexed columns].
        rewrite (in_list_true _ _ Hx). eauto.
Qed.

End grids.
(** ** The keys of a parsed namespace *)

Section typeerror.

Lemma parsed_keys c df args ns :
  argparse.parse_args (parser_of c df) args = argparse.Ok ns ->
  match c with
  | Univariate => is_Some (ns !! "var")
  | Bivariate => is_Some (ns !! "v1") /\ is_Some (ns !! "v2") /\ is_Some (ns !! "plot_type")
  end.
Proof.
  intros H. pose proof (fun d => parse_args_defaults _ _ _ d H) as Hdom.
  destruct c; repeat split; apply Hdom; vm_compute; eauto.
Qed.

End typeerror.
(** ** argparse: calls that give options after the variables *)

Section stepping.
Import argparse.

Local Abbreviation arguments := (map (fun v : string => (v, ClsA))).

Lemma classify_option p o os i rest :
  String.eqb o "--" = false ->
  parse_optional p o = Ok (Some (Some i, os, None)) ->
  classify p (o :: rest) = (items ← classify p rest; Ok ((o, ClsO (Some i) os None) :: items)).
Proof. intros H1 H2. cbn [classify]. rewrite H1, H2. reflexivity. Qed.

Lemma classify_arguments_app p vs rest :
  Forall (fun v => is_argument_string p v = true) vs ->
  classify p (vs ++ rest) = (items ← classify p rest; Ok (arguments vs ++ items)).
Proof.
  induction 1 as [|v vs Hv _ IH]; cbn [app map].
  - destruct (classify p rest); reflexivity.
  - rewrite (classify_argument _ _ _ Hv), IH. destruct (classify p rest); reflexivity.
Qed.

Lemma map_fst_arguments (vs : list string) : map fst (arguments vs) = vs.
Proof. induction vs as [|v vs IH]; [reflexivity|]. cbn [map fst]. rewrite IH. reflexivity. Qed.

Lemma existsb_option_arguments vs rest :
  existsb is_option (arguments vs ++ rest) = existsb is_option rest.
Proof. induction vs as [|v vs IH]; [reflexivity | exact IH]. Qed.

(** A run of arguments ends at an option string, or with the list. *)
Lemma run_length_arguments args rest :
  before_option rest = 0 ->
  run_length is_A (pattern (arguments args ++ rest)) = length args.
Proof.
  intros Hrest. induction args as [|x args IH].
  - destruct rest as [|[s [| |act os ea]] tl]; try reflexivity; discriminate Hrest.
  - cbn [map app pattern] in *. cbn [run_length pattern_of snd]. cbn [length]. f_equal. exact IH.
Qed.

Lemma remove_first_arguments p args :
  Forall (fun v => is_argument_string p v = true) args -> remove_first "--" args = args.
Proof.
  induction 1 as [|v vs Hv _ IH]; [reflexivity|].
  apply is_argument_string_eqb in Hv as (_ & Hv & _).
  cbn [remove_first]. rewrite Hv, IH. reflexivity.
Qed.

Lemma check_values_ok a cs args :
  choices a = Some cs -> Forall (fun x => x ∈ cs) args -> check_values a args = Ok tt.
Proof.
  intros Hcs. induction 1 as [|x args Hx _ IH]; [reflexivity|].
  cbn [check_values]. unfold check_value. rewrite Hcs, (in_list_true _ _ Hx). exact IH.
Qed.

(** What an option with [nargs='*'] stores: the list of its arguments. *)
Lemma get_values_list p a args :
  nargs a = NargsZeroOrMore -> is_positional_action a = false ->
  Forall (fun v => is_argument_string p v = true) args ->
  get_values a args = (_ ← check_values a args; Ok (PList args)).
Proof.
  intros Hn Hp Hargs. unfold get_values.
  rewrite (remove_first_arguments _ _ Hargs), Hn, Hp.
  destruct args as [|x [|y args]]; reflexivity.
Qed.

(** One round of the main loop at an option string that takes the
    arguments up to the next option string. *)
Lemma parse_loop_option p fuel st o os i a d args rest val :
  actions p !! i = Some a -> kind a = Store -> dest a = Some d ->
  match_argument a (pattern (arguments args ++ rest)) = Ok (length args) ->
  get_values a args = Ok val ->
  length rest <= fuel ->
  parse_loop p (S fuel) st ((o, ClsO (Some i) os None) :: arguments args ++ rest) =
  parse_loop p fuel (set_namespace (<[d := val]> (namespace st)) (add_seen i st)) rest.
Proof.
  intros Ha Hk Hd Hm Hv _.
  cbn [parse_loop existsb is_option snd orb negb before_option].
  unfold consume_optional, following_tuples. rewrite Ha, Hm.
  cbn [mbind result_bind fst snd take_actions].
  rewrite map_app, map_fst_arguments, take_app_length.
  rewrite (take_action_store _ _ _ _ _ _ Ha Hk Hd), Hv.
  cbn [mbind result_bind fst snd Nat.add drop].
  replace (length args) with (length (arguments args)) by apply length_map.
  rewrite drop_app_length. reflexivity.
Qed.

Lemma parse_loop_option_fuel p fuel st o os i a d args rest val :
  actions p !! i = Some a -> kind a = Store -> dest a = Some d ->
  match_argument a (pattern (arguments args ++ rest)) = Ok (length args) ->
  get_values a args = Ok val ->
  length ((o, ClsO (Some i) os None) :: arguments args ++ rest) <= fuel ->
  parse_loop p fuel st ((o, ClsO (Some i) os None) :: arguments args ++ rest) =
  parse_loop p fuel (set_namespace (<[d := val]> (namespace st)) (add_seen i st)) rest.
Proof.
  intros Ha Hk Hd Hm Hv Hfuel. cbn [length] in Hfuel. rewrite length_app in Hfuel.
  destruct fuel as [|fuel]; [lia|].
  rewrite (parse_loop_option _ _ _ _ _ _ _ _ _ _ _ Ha Hk Hd Hm Hv) by lia.
  apply parse_loop_fuel; lia.
Qed.

(** One round of the main loop in which positionals take arguments. *)
Lemma parse_loop_positionals p fuel st items st' n :
  existsb is_option items = true -> before_option items <> 0 ->
  consume_positionals p st items = Ok (st', n) ->
  n <> 0 ->
  length items <= fuel ->
  parse_loop p fuel st items = parse_loop p fuel st' (drop n items).
Proof.
  intros H1 H2 H3 Hn Hfuel.
  destruct fuel as [|fuel]; [destruct items; [discriminate H1 | cbn in Hfuel; lia]|].
  destruct n as [|n]; [contradiction|].
  transitivity (parse_loop p fuel st' (drop (S n) items)).
  - cbn [parse_loop]. rewrite H1. cbn [negb].
    destruct (before_option items); [contradiction|]. rewrite H3. reflexivity.
  - assert (length (drop (S n) items) <= fuel) by (rewrite length_drop; lia).
    apply parse_loop_fuel; lia.
Qed.

(** The end of [parse_args] when the loop has left only arguments and no
    positional is waiting: what is left over is not recognized. *)
Lemma parse_args_finish p args items st left :
  classify p args = Ok items ->
  parse_loop p (length items) {| namespace := initial_namespace p; seen_actions := [];
                                 extras := []; positionals := get_positional_actions p |}
             items = Ok (st, arguments left) ->
  positionals st = [] ->
  required_actions p (seen_actions st) = [] ->
  parse_args p args =
  match extras st ++ left with
  | [] => Ok (namespace st)
  | argv => Error (UnrecognizedArguments argv)
  end.
Proof.
  intros Hc Hl Hpos Hreq. unfold parse_args, parse_known_args. rewrite Hc.
  cbn [mbind result_bind]. rewrite Hl. cbn [mbind result_bind fst snd].
  unfold consume_positionals. rewrite Hpos.
  cbn [match_arguments_partial match_arguments_partial_from length slices take_actions
       mbind result_bind fst snd foldr drop set_positionals add_extras seen_actions
       namespace extras].
  rewrite Hreq, drop_0, map_fst_arguments. cbn [mbind result_bind fst snd].
  destruct (extras st ++ left); reflexivity.
Qed.

End stepping.
(** ** The two parsers on calls that give the variables, then options *)

Section calls.
Import argparse.

Local Abbreviation arguments := (map (fun v : string => (v, ClsA))).

Lemma parse_loop_option_error p fuel st o os i a args rest e :
  actions p !! i = Some a ->
  match_argument a (pattern (arguments args ++ rest)) = Ok (length args) ->
  get_values a args = Error e ->
  1 <= fuel ->
  parse_loop p fuel st ((o, ClsO (Some i) os None) :: arguments args ++ rest) = Error e.
Proof.
  intros Ha Hm Hv Hfuel. destruct fuel as [|fuel]; [lia|].
  cbn [parse_loop existsb is_option snd orb negb before_option].
  unfold consume_optional, following_tuples. rewrite Ha, Hm.
  cbn [mbind result_bind fst snd take_actions].
  rewrite map_app, map_fst_arguments, take_app_length.
  unfold take_action. rewrite Ha, Hv. reflexivity.
Qed.

(** How many arguments an option takes: at most one for [nargs='?'], any
    number for [nargs='*']. *)
Lemma match_argument_takes a args rest :
  before_option rest = 0 ->
  match nargs a with
  | NargsOptional => length args <= 1
  | NargsZeroOrMore => True
  | _ => False
  end ->
  match_argument a (pattern (arguments args ++ rest)) = Ok (length args).
Proof.
  intros Hrest Hn. unfold match_argument. destruct (nargs a); try contradiction.
  - destruct args as [|x [|y args]]; [|reflexivity|cbn in Hn; lia].
    destruct rest as [|[s [| |act os ea]] tl]; try reflexivity; discriminate Hrest.
  - rewrite (run_length_arguments _ _ Hrest). reflexivity.
Qed.

(** The facts about the two options of a command. *)
Lemma outfile_action c df o :
  o ∈ ["-o"; "--outfile"] ->
  exists i a,
    String.eqb o "--" = false /\
    parse_optional (parser_of c df) o = Ok (Some (Some i, o, None)) /\
    actions (parser_of c df) !! i = Some a /\
    kind a = Store /\ dest a = Some "outfile" /\ nargs a = NargsOptional /\
    is_positional_action a = false /\ const a = PNone /\ choices a = None.
Proof.
  intros Ho. apply elem_of_cons in Ho as [->|Ho]; [|apply list_elem_of_singleton in Ho as ->];
    destruct c; eexists _, _; repeat split; reflexivity.
Qed.

Lemma categoricals_action c df o :
  o ∈ ["-c"; "--categoricals"] ->
  exists i a,
    String.eqb o "--" = false /\
    parse_optional (parser_of c df) o = Ok (Some (Some i, o, None)) /\
    actions (parser_of c df) !! i = Some a /\
    kind a = Store /\ dest a = Some "categoricals" /\ nargs a = NargsZeroOrMore /\
    is_positional_action a = false /\ choices a = Some (columns df).
Proof.
  intros Ho. apply elem_of_cons in Ho as [->|Ho]; [|apply list_elem_of_singleton in Ho as ->];
    destruct c; eexists _, _; repeat split; reflexivity.
Qed.

Lemma required_actions_more p seen seen' :
  (forall i, i ∈ seen -> i ∈ seen') ->
  required_actions p seen = [] -> required_actions p seen' = [].
Proof.
  intros Hsub. unfold required_actions.
  generalize (imap (fun i a => (i, a)) (actions p)) as l.
  induction l as [|[i a] l IH]; [reflexivity|].
  cbn [flat_map fst snd]. intros H. apply app_eq_nil in H as [H1 H2].
  rewrite (IH H2), app_nil_r.
  destruct (bool_decide (i ∈ seen)) eqn:Hi.
  - apply bool_decide_eq_true in Hi. rewrite (bool_decide_eq_true_2 _ (Hsub _ Hi)). reflexivity.
  - cbn [negb andb] in H1. destruct (required a); [discriminate H1|].
    rewrite andb_false_r. reflexivity.
Qed.

Lemma required_actions_variables c df ns :
  required_actions (parser_of c df) (seen_actions (parsed_variables c ns)) = [].
Proof. destruct c; reflexivity. Qed.

(** The variables of a call are what the positionals take: they are
    followed by nothing, by an option string, or, when no positional is
    left to take it, by a further argument. *)
Lemma consume_variables c df vars rest :
  gives_variables c df vars ->
  match rest with
  | [] => True
  | it :: _ => is_option it = true \/ (snd it = ClsA /\ (c = Bivariate -> length vars = 3))
  end ->
  consume_positionals (parser_of c df)
    {| namespace := initial_namespace (parser_of c df); seen_actions := [];
       extras := []; positionals := get_positional_actions (parser_of c df) |}
    (arguments vars ++ rest) =
  Ok (parsed_variables c (variables_ns c df vars), length vars).
Proof.
  intros [Hargs Hvars] Hhead.
  destruct c, vars as [|v1 [|v2 [|t [|]]]]; try contradiction; cbn [parser_of] in *.
  - (* var *)
    apply Forall_cons in Hargs as [H1 _].
    apply is_argument_string_eqb in H1 as (_ & H1 & _).
    unfold consume_positionals. cbn [positionals].
    replace (get_positional_actions (show_dist_parser df)) with [1] by reflexivity.
    replace (match_arguments_partial (show_dist_parser df) [1] _) with [1].
    2:{ destruct rest as [|[s [| |act os ea]] tl]; try reflexivity.
        destruct Hhead as [H|[H _]]; discriminate H. }
    cbn [map app fst slices take drop take_actions].
    erewrite take_action_store by reflexivity.
    rewrite get_values_one by (first [exact H1 | left; reflexivity]).
    unfold check_value at 1. cbn [choices starts_with_dash get_action_name option_strings dest].
    rewrite (in_list_true _ _ Hvars). reflexivity.
  - (* v1 v2 *)
    apply Forall_cons in Hargs as [H1 Hargs]. apply Forall_cons in Hargs as [H2 _].
    apply is_argument_string_eqb in H1 as (_ & H1 & _).
    apply is_argument_string_eqb in H2 as (_ & H2 & _).
    destruct Hvars as [Hn1 Hn2].
    unfold consume_positionals. cbn [positionals].
    replace (get_positional_actions (show_biv_dist_parser df)) with [1; 2; 3] by reflexivity.
    replace (match_arguments_partial (show_biv_dist_parser df) [1; 2; 3] _) with [1; 1; 0].
    2:{ destruct rest as [|[s [| |act os ea]] tl]; try reflexivity.
        - destruct Hhead as [H|[_ H]]; [discriminate H | discriminate (H eq_refl)].
        - destruct Hhead as [H|[H _]]; discriminate H. }
    cbn [map app fst slices take drop take_actions].
    erewrite take_action_store by reflexivity.
    rewrite get_values_one by (first [exact H1 | left; reflexivity]).
    unfold check_value at 1. cbn [choices starts_with_dash get_action_name option_strings dest].
    rewrite (in_list_true _ _ Hn1). cbn [mbind result_bind].
    erewrite take_action_store by reflexivity.
    rewrite get_values_one by (first [exact H2 | left; reflexivity]).
    unfold check_value at 1. cbn [choices starts_with_dash get_action_name option_strings dest].
    rewrite (in_list_true _ _ Hn2). cbn [mbind result_bind].
    erewrite take_action_store by reflexivity.
    erewrite get_values_default by reflexivity.
    replace (check_value _ (PStr "heatmap")) with (Ok tt) by reflexivity.
    reflexivity.
  - (* v1 v2 plot_type *)
    apply Forall_cons in Hargs as [H1 Hargs]. apply Forall_cons in Hargs as [H2 Hargs].
    apply Forall_cons in Hargs as [H3 _].
    apply is_argument_string_eqb in H1 as (_ & H1 & _).
    apply is_argument_string_eqb in H2 as (_ & H2 & _).
    apply is_argument_string_eqb in H3 as (_ & H3 & _).
    destruct Hvars as (Hn1 & Hn2 & Ht).
    unfold consume_positionals. cbn [positionals].
    replace (get_positional_actions (show_biv_dist_parser df)) with [1; 2; 3] by reflexivity.
    replace (match_arguments_partial (show_biv_dist_parser df) [1; 2; 3] _) with [1; 1; 1].
    2:{ destruct rest as [|[s [| |act os ea]] tl]; try reflexivity.
        destruct Hhead as [H|[H _]]; discriminate H. }
    cbn [map app fst slices take drop take_actions].
    erewrite take_action_store by reflexivity.
    rewrite get_values_one by (first [exact H1 | left; reflexivity]).
    unfold check_value at 1. cbn [choices starts_with_dash get_action_name option_strings dest].
    rewrite (in_list_true _ _ Hn1). cbn [mbind result_bind].
    erewrite take_action_store by reflexivity.
    rewrite get_values_one by (first [exact H2 | left; reflexivity]).
    unfold check_value at 1. cbn [choices starts_with_dash get_action_name option_strings dest].
    rewrite (in_list_true _ _ Hn2). cbn [mbind result_bind].
    erewrite take_action_store by reflexivity.
    rewrite get_values_one by (first [exact H3 | right; reflexivity]).
    unfold check_value at 1. cbn [choices starts_with_dash get_action_name option_strings dest].
    rewrite (in_list_true _ _ Ht). reflexivity.
Qed.

Lemma gives_variables_length c df vars : gives_variables c df vars -> length vars <> 0.
Proof. intros [_ H]. destruct c, vars; try contradiction; discriminate. Qed.

(** The variables are read in the first round of the loop. *)
Lemma parse_loop_variables c df vars it rest fuel :
  gives_variables c df vars -> is_option it = true ->
  length (arguments vars ++ it :: rest) <= fuel ->
  parse_loop (parser_of c df) fuel
    {| namespace := initial_namespace (parser_of c df); seen_actions := [];
       extras := []; positionals := get_positional_actions (parser_of c df) |}
    (arguments vars ++ it :: rest) =
  parse_loop (parser_of c df) fuel (parsed_variables c (variables_ns c df vars)) (it :: rest).
Proof.
  intros Hvars Hit Hfuel.
  pose proof (gives_variables_length _ _ _ Hvars) as Hlen.
  rewrite (parse_loop_positionals _ _ _ _ (parsed_variables c (variables_ns c df vars))
             (length vars)).
  - replace (length vars) with (length (arguments vars)) by apply length_map.
    rewrite drop_app_length. reflexivity.
  - rewrite existsb_option_arguments. cbn [existsb]. rewrite Hit. reflexivity.
  - destruct vars as [|v vars]; [contradiction | discriminate].
  - apply consume_variables; [exact Hvars | left; exact Hit].
  - exact Hlen.
  - exact Hfuel.
Qed.

End calls.
(** ** What a call with options is parsed to, and what the handler runs *)

Section groups.
Import argparse.

Local Abbreviation arguments := (map (fun v : string => (v, ClsA))).

Lemma classify_one_option p vars o os i rest :
  Forall (fun v => is_argument_string p v = true) vars ->
  String.eqb o "--" = false ->
  parse_optional p o = Ok (Some (Some i, os, None)) ->
  classify p (vars ++ o :: rest) =
  (items ← classify p rest; Ok (arguments vars ++ (o, ClsO (Some i) os None) :: items)).
Proof.
  intros Hvars Ho Hp.
  rewrite (classify_arguments_app _ _ _ Hvars), (classify_option _ _ _ _ _ Ho Hp).
  destruct (classify p rest); reflexivity.
Qed.

(** A call that gives the variables, one option with its arguments, and
    possibly more arguments than the option takes. *)
Lemma parse_one_option c df vars o os i a d args left :
  gives_variables c df vars ->
  String.eqb o "--" = false ->
  parse_optional (parser_of c df) o = Ok (Some (Some i, os, None)) ->
  actions (parser_of c df) !! i = Some a -> kind a = Store -> dest a = Some d ->
  Forall (fun v => is_argument_string (parser_of c df) v = true) args ->
  Forall (fun v => is_argument_string (parser_of c df) v = true) left ->
  match_argument a (pattern (arguments args ++ arguments left)) = Ok (length args) ->
  parse_args (parser_of c df) (vars ++ o :: args ++ left) =
  (val ← get_values a args;
   match left with
   | [] => Ok (<[d := val]> (variables_ns c df vars))
   | _ => Error (UnrecognizedArguments left)
   end).
Proof.
  intros Hvars Ho Hp Ha Hk Hd Hargs Hleft Hm.
  assert (Hc : classify (parser_of c df) (vars ++ o :: args ++ left) =
               Ok (arguments vars ++ (o, ClsO (Some i) os None) :: arguments args ++ arguments left)).
  { rewrite (classify_one_option _ _ _ _ _ _ (proj1 Hvars) Ho Hp).
    rewrite classify_arguments by (apply Forall_app; split; assumption).
    rewrite map_app. reflexivity. }
  destruct (get_values a args) as [val|e] eqn:Hv; cbn [mbind result_bind].
  - erewrite parse_args_finish with (left := left); [| exact Hc | | |]; cycle 1.
    + rewrite (parse_loop_variables _ _ _ _ _ _ Hvars) by (first [reflexivity | lia]).
      rewrite (parse_loop_option_fuel _ _ _ _ _ _ _ _ _ _ _ Ha Hk Hd Hm Hv)
        by (rewrite length_app; cbn [length]; lia).
      apply parse_loop_no_options, no_options_arguments.
    + reflexivity.
    + eapply required_actions_more;
        [|apply (required_actions_variables c df (variables_ns c df vars))].
      intros j Hj. cbn [seen_actions set_namespace add_seen]. right. exact Hj.
    + cbn [extras set_namespace add_seen parsed_variables app namespace].
      destruct left; reflexivity.
  - unfold parse_args, parse_known_args. rewrite Hc. cbn [mbind result_bind].
    rewrite (parse_loop_variables _ _ _ _ _ _ Hvars) by (first [reflexivity | lia]).
    rewrite (parse_loop_option_error _ _ _ _ _ _ _ _ _ _ Ha Hm Hv)
      by (rewrite length_app; cbn [length]; lia).
    reflexivity.
Qed.

(** A call that gives the variables and two options with their arguments. *)
Lemma parse_two_options c df vars o1 i1 a1 d1 args1 o2 i2 a2 d2 args2 :
  gives_variables c df vars ->
  String.eqb o1 "--" = false ->
  parse_optional (parser_of c df) o1 = Ok (Some (Some i1, o1, None)) ->
  actions (parser_of c df) !! i1 = Some a1 -> kind a1 = Store -> dest a1 = Some d1 ->
  String.eqb o2 "--" = false ->
  parse_optional (parser_of c df) o2 = Ok (Some (Some i2, o2, None)) ->
  actions (parser_of c df) !! i2 = Some a2 -> kind a2 = Store -> dest a2 = Some d2 ->
  Forall (fun v => is_argument_string (parser_of c df) v = true) args1 ->
  Forall (fun v => is_argument_string (parser_of c df) v = true) args2 ->
  match_argument a1
    (pattern (arguments args1 ++ (o2, ClsO (Some i2) o2 None) :: arguments args2 ++ []))
    = Ok (length args1) ->
  match_argument a2 (pattern (arguments args2 ++ [])) = Ok (length args2) ->
  parse_args (parser_of c df) (vars ++ o1 :: args1 ++ o2 :: args2) =
  (val1 ← get_values a1 args1;
   val2 ← get_values a2 args2;
   Ok (<[d2 := val2]> (<[d1 := val1]> (variables_ns c df vars)))).
Proof.
  intros Hvars Ho1 Hp1 Ha1 Hk1 Hd1 Ho2 Hp2 Ha2 Hk2 Hd2 Hargs1 Hargs2 Hm1 Hm2.
  assert (Hc : classify (parser_of c df) (vars ++ o1 :: args1 ++ o2 :: args2) =
               Ok (arguments vars ++ (o1, ClsO (Some i1) o1 None) :: arguments args1 ++
                   (o2, ClsO (Some i2) o2 None) :: arguments args2 ++ [])).
  { rewrite (classify_one_option _ _ _ _ _ _ (proj1 Hvars) Ho1 Hp1).
    rewrite (classify_one_option _ _ _ _ _ _ Hargs1 Ho2 Hp2).
    rewrite (classify_arguments _ _ Hargs2), app_nil_r. reflexivity. }
  assert (Hlen : forall (x y : string * arg_class) l1 l2 l3,
             length (l1 ++ x :: l2 ++ y :: l3 ++ []) =
             S (S (length l1 + length l2 + length l3))).
  { intros. repeat (rewrite length_app; cbn [length]). lia. }
  destruct (get_values a1 args1) as [val1|e] eqn:Hv1; cbn [mbind result_bind].
  - destruct (get_values a2 args2) as [val2|e] eqn:Hv2; cbn [mbind result_bind].
    + erewrite parse_args_finish with (left := []); [| exact Hc | | |]; cycle 1.
      * rewrite (parse_loop_variables _ _ _ _ _ _ Hvars) by (first [reflexivity | lia]).
        rewrite (parse_loop_option_fuel _ _ _ _ _ _ _ _ _ _ _ Ha1 Hk1 Hd1 Hm1 Hv1)
          by (rewrite Hlen; cbn [length]; repeat (rewrite length_app; cbn [length]); lia).
        rewrite (parse_loop_option_fuel _ _ _ _ _ _ _ _ _ _ _ Ha2 Hk2 Hd2 Hm2 Hv2)
          by (rewrite Hlen; cbn [length]; repeat (rewrite length_app; cbn [length]); lia).
        apply parse_loop_no_options. reflexivity.
      * reflexivity.
      * eapply required_actions_more;
          [|apply (required_actions_variables c df (variables_ns c df vars))].
        intros j Hj. cbn [seen_actions set_namespace add_seen]. right. right. exact Hj.
      * cbn [extras set_namespace add_seen parsed_variables app namespace]. reflexivity.
    + unfold parse_args, parse_known_args. rewrite Hc. cbn [mbind result_bind].
      rewrite (parse_loop_variables _ _ _ _ _ _ Hvars) by (first [reflexivity | lia]).
      rewrite (parse_loop_option_fuel _ _ _ _ _ _ _ _ _ _ _ Ha1 Hk1 Hd1 Hm1 Hv1)
        by (rewrite Hlen; cbn [length]; repeat (rewrite length_app; cbn [length]); lia).
      rewrite (parse_loop_option_error _ _ _ _ _ _ _ _ _ _ Ha2 Hm2 Hv2)
        by (rewrite Hlen; lia).
      reflexivity.
  - unfold parse_args, parse_known_args. rewrite Hc. cbn [mbind result_bind].
    rewrite (parse_loop_variables _ _ _ _ _ _ Hvars) by (first [reflexivity | lia]).
    rewrite (parse_loop_option_error _ _ _ _ _ _ _ _ _ _ Ha1 Hm1 Hv1)
      by (rewrite Hlen; lia).
    reflexivity.
Qed.

(** A call that gives only the variables. *)
Lemma parse_variables c df vars :
  gives_variables c df vars ->
  parse_args (parser_of c df) vars = Ok (variables_ns c df vars).
Proof.
  intros [Hargs Hvars].
  destruct c, vars as [|v1 [|v2 [|t [|]]]]; try contradiction;
    cbn [parser_of variables_ns] in *.
  - apply Forall_cons in Hargs as [H1 _].
    rewrite (parse_uni_single _ _ H1), (in_list_true _ _ Hvars). reflexivity.
  - apply Forall_cons in Hargs as [H1 Hargs]. apply Forall_cons in Hargs as [H2 _].
    destruct Hvars as [Hn1 Hn2].
    rewrite (parse_biv_pair _ _ _ H1 H2), !in_list_true by assumption. reflexivity.
  - apply Forall_cons in Hargs as [H1 Hargs]. apply Forall_cons in Hargs as [H2 Hargs].
    apply Forall_cons in Hargs as [H3 _]. destruct Hvars as (Hn1 & Hn2 & Ht).
    rewrite (parse_biv_triple _ _ _ _ H1 H2 H3) by (apply in_list_true; assumption).
    rewrite (in_list_true _ _ Ht). reflexivity.
Qed.

(** What the namespace of the variables holds. *)
Lemma variables_ns_lookup c df vars :
  gives_variables c df vars ->
  variables_ns c df vars !! "outfile" = Some (PStr "output.png") /\
  variables_ns c df vars !! "categoricals" = Some (PList []).
Proof.
  intros [_ Hvars].
  destruct c, vars as [|v1 [|v2 [|t [|]]]]; try contradiction; cbn [variables_ns].
  - destruct (uni_ns_lookup df v1) as (_ & H1 & H2). split; assumption.
  - destruct (biv_ns_lookup df v1 v2 "heatmap") as (_ & _ & _ & H1 & H2). split; assumption.
  - destruct (biv_ns_lookup df v1 v2 t) as (_ & _ & _ & H1 & H2). split; assumption.
Qed.

(** The handlers, from the parsed arguments on. *)
Lemma handle_parsed c data args w df ns outfile cats :
  heap w !! data = Some df ->
  parse_args (parser_of c df) args = Ok ns ->
  ns !! "outfile" = Some outfile ->
  check_valid_png outfile <> (-1)%Z ->
  ns !! "categoricals" = Some (PList cats) ->
  handle c data args w =
  save_and_show (match cats with
                 | [] => plot_of c data ns
                 | _ => grid_of c data ns cats
                 end) outfile w.
Proof.
  intros Hdf Hns Hout Hpng Hcats.
  pose proof (parsed_keys _ _ _ _ Hns) as Hkeys.
  destruct c; cbn [handle parser_of] in *.
  - destruct Hkeys as [var Hvar].
    rewrite show_dist_unfold, Hdf, Hns, Hout, (check_passes _ Hpng), Hcats, Hvar.
    unfold plot_of, grid_of, getattr. rewrite Hvar.
    destruct cats as [|x cats].
    + rewrite bool_decide_eq_true_2 by reflexivity. reflexivity.
    + rewrite bool_decide_eq_false_2 by discriminate. reflexivity.
  - destruct Hkeys as ([v1 Hv1] & [v2 Hv2] & [pt Hpt]).
    rewrite show_biv_dist_unfold, Hdf, Hns, Hout, (check_passes _ Hpng), Hcats, Hv1, Hv2, Hpt.
    unfold plot_of, grid_of, getattr. rewrite Hv1, Hv2, Hpt.
    destruct cats as [|x cats].
    + rewrite bool_decide_eq_true_2 by reflexivity. reflexivity.
    + rewrite bool_decide_eq_false_2 by discriminate. reflexivity.
Qed.

(** Two token lists that are parsed alike are handled alike. *)
Lemma handle_same_parse c data args args' w :
  (forall df, heap w !! data = Some df ->
     parse_args (parser_of c df) args = parse_args (parser_of c df) args') ->
  handle c data args w = handle c data args' w.
Proof.
  intros H. destruct c; cbn [handle parser_of] in *.
  - rewrite !show_dist_unfold. destruct (heap w !! data) as [df|]; [|reflexivity].
    rewrite (H df eq_refl). reflexivity.
  - rewrite !show_biv_dist_unfold. destruct (heap w !! data) as [df|]; [|reflexivity].
    rewrite (H df eq_refl). reflexivity.
Qed.

End groups.
(** ** Further properties: the options of a call *)

Section option_properties.
Import argparse.

Local Abbreviation arguments := (map (fun v : string => (v, ClsA))).

Lemma same_frame (w : World) data df df' :
  heap w !! data = Some df -> heap w !! data = Some df' -> df' = df.
Proof. intros H H'. rewrite H in H'. injection H' as <-. reflexivity. Qed.

Lemma plot_of_insert c data ns d x :
  d ∈ ["outfile"; "categoricals"] ->
  plot_of c data (<[d := x]> ns) = plot_of c data ns.
Proof.
  intros Hd. unfold plot_of, getattr.
  apply elem_of_cons in Hd as [->|Hd]; [|apply list_elem_of_singleton in Hd as ->];
    destruct c; rewrite !lookup_insert_ne by discriminate; reflexivity.
Qed.

Lemma grid_of_insert c data ns d x cs :
  d ∈ ["outfile"; "categoricals"] ->
  grid_of c data (<[d := x]> ns) cs = grid_of c data ns cs.
Proof.
  intros Hd. unfold grid_of, getattr.
  apply elem_of_cons in Hd as [->|Hd]; [|apply list_elem_of_singleton in Hd as ->];
    destruct c; rewrite !lookup_insert_ne by discriminate; reflexivity.
Qed.

Lemma get_values_categoricals p a cs :
  nargs a = NargsZeroOrMore -> is_positional_action a = false ->
  Forall (fun v => is_argument_string p v = true) cs ->
  forall cols, choices a = Some cols -> Forall (fun x => x ∈ cols) cs ->
  get_values a cs = Ok (PList cs).
Proof.
  intros Hn Hpos Hargs cols Hcs Hcols.
  rewrite (get_values_list _ _ _ Hn Hpos Hargs), (check_values_ok _ _ _ Hcs Hcols).
  reflexivity.
Qed.

Lemma get_values_bare_outfile a :
  nargs a = NargsOptional -> is_positional_action a = false -> const a = PNone ->
  get_values a [] = Ok PNone.
Proof. intros Hn Hpos Hc. unfold get_values. cbn [remove_first]. rewrite Hn, Hpos, Hc. reflexivity. Qed.

Lemma get_values_outfile p a f :
  nargs a = NargsOptional -> choices a = None ->
  is_argument_string p f = true ->
  get_values a [f] = Ok (PStr f).
Proof.
  intros Hn Hcs Hf. apply is_argument_string_eqb in Hf as (_ & Hf & _).
  rewrite get_values_one by (first [exact Hf | right; exact Hn]).
  unfold check_value. rewrite Hcs. reflexivity.
Qed.

Lemma takes_star a args rest :
  nargs a = NargsZeroOrMore -> before_option rest = 0 ->
  match_argument a (pattern (arguments args ++ rest)) = Ok (length args).
Proof. intros Hn Hrest. apply match_argument_takes; [exact Hrest | rewrite Hn; exact I]. Qed.

Lemma takes_optional a args rest :
  nargs a = NargsOptional -> length args <= 1 -> before_option rest = 0 ->
  match_argument a (pattern (arguments args ++ rest)) = Ok (length args).
Proof. intros Hn Hlen Hrest. apply match_argument_takes; [exact Hrest | rewrite Hn; exact Hlen]. Qed.

(** X6. For either command, [-c] (or [--categoricals]) given without any
    name after the variables is parsed to the same namespace as a call
    without the option, and the handler does the same on both calls: the
    plot is not categorized. *)
Theorem bare_categoricals_same_as_none c data vars o w df :
  heap w !! data = Some df ->
  gives_variables c df vars ->
  o ∈ ["-c"; "--categoricals"] ->
  parse_args (parser_of c df) (vars ++ [o]) = parse_args (parser_of c df) vars /\
  parse_args (parser_of c df) vars = Ok (variables_ns c df vars) /\
  handle c data (vars ++ [o]) w = handle c data vars w.
Proof.
  intros Hdf Hvars Ho.
  destruct (categoricals_action c df o Ho) as (i & a & Hne & Hp & Ha & Hk & Hd & Hn & Hpos & Hcs).
  assert (Hparse : parse_args (parser_of c df) (vars ++ [o]) = parse_args (parser_of c df) vars).
  { pose proof (parse_one_option c df vars o o i a _ [] [] Hvars Hne Hp Ha Hk Hd
                  (Forall_nil_2 _) (Forall_nil_2 _) (takes_star a [] [] Hn eq_refl)) as H.
    cbn [app] in H. rewrite H, (parse_variables _ _ _ Hvars).
    rewrite (get_values_categoricals (parser_of c df) _ _ Hn Hpos (Forall_nil_2 _) _ Hcs (Forall_nil_2 _)).
    cbn [mbind result_bind]. rewrite insert_id by apply (variables_ns_lookup _ _ _ Hvars).
    reflexivity. }
  split; [exact Hparse|]. split; [apply parse_variables; exact Hvars|].
  apply handle_same_parse. intros df' Hdf'. rewrite (same_frame _ _ _ _ Hdf Hdf'). exact Hparse.
Qed.

(** X7. For either command, [-o] (or [--outfile]) given without a file
    name after the variables sets the output file to [None], not to the
    default 'output.png': it is [None] that [check_valid_png] is asked
    about, and the handler returns at once when the answer is -1. *)
Theorem bare_outfile_is_none c data vars o w df :
  heap w !! data = Some df ->
  gives_variables c df vars ->
  o ∈ ["-o"; "--outfile"] ->
  parse_args (parser_of c df) (vars ++ [o])
    = Ok (<["outfile" := PNone]> (variables_ns c df vars)) /\
  variables_ns c df vars !! "outfile" = Some (PStr "output.png") /\
  (check_valid_png PNone = (-1)%Z -> handle c data (vars ++ [o]) w = (Returned tt, w)).
Proof.
  intros Hdf Hvars Ho.
  destruct (outfile_action c df o Ho)
    as (i & a & Hne & Hp & Ha & Hk & Hd & Hn & Hpos & Hconst & Hcs).
  assert (Hparse : parse_args (parser_of c df) (vars ++ [o])
                   = Ok (<["outfile" := PNone]> (variables_ns c df vars))).
  { pose proof (parse_one_option c df vars o o i a _ [] [] Hvars Hne Hp Ha Hk Hd
                  (Forall_nil_2 _) (Forall_nil_2 _)
                  (takes_optional a [] [] Hn (Nat.le_0_l _) eq_refl)) as H.
    cbn [app] in H. rewrite H, (get_values_bare_outfile _ Hn Hpos Hconst). reflexivity. }
  split; [exact Hparse|]. split; [apply (variables_ns_lookup _ _ _ Hvars)|].
  intros Hcheck. destruct c; cbn [handle parser_of] in *.
  - rewrite show_dist_unfold, Hdf, Hparse, lookup_insert_eq, Hcheck. reflexivity.
  - rewrite show_biv_dist_unfold, Hdf, Hparse, lookup_insert_eq, Hcheck. reflexivity.
Qed.

(** X8. For either command, [-o f] (or [--outfile f]) after the variables
    changes only the name the figure is saved under and opened from: the
    handler builds the same plot as in the call without the option, and
    saves and shows it under [f] instead of 'output.png'. *)
Theorem outfile_option_names_the_file c data vars o f w df :
  heap w !! data = Some df ->
  gives_variables c df vars ->
  o ∈ ["-o"; "--outfile"] ->
  is_argument_string (parser_of c df) f = true ->
  check_valid_png (PStr f) <> (-1)%Z ->
  check_valid_png (PStr "output.png") <> (-1)%Z ->
  parse_args (parser_of c df) (vars ++ [o; f])
    = Ok (<["outfile" := PStr f]> (variables_ns c df vars)) /\
  handle c data vars w
    = save_and_show (plot_of c data (variables_ns c df vars)) (PStr "output.png") w /\
  handle c data (vars ++ [o; f]) w
    = save_and_show (plot_of c data (variables_ns c df vars)) (PStr f) w.
Proof.
  intros Hdf Hvars Ho Hf Hpng Hdefault.
  destruct (outfile_action c df o Ho)
    as (i & a & Hne & Hp & Ha & Hk & Hd & Hn & Hpos & Hconst & Hcs).
  destruct (variables_ns_lookup _ _ _ Hvars) as [Hout Hcats].
  assert (Hparse : parse_args (parser_of c df) (vars ++ [o; f])
                   = Ok (<["outfile" := PStr f]> (variables_ns c df vars))).
  { pose proof (parse_one_option c df vars o o i a _ [f] [] Hvars Hne Hp Ha Hk Hd
                  (Forall_cons_2 _ _ _ Hf (Forall_nil_2 _)) (Forall_nil_2 _)
                  (takes_optional a [f] [] Hn (le_n 1) eq_refl)) as H.
    cbn [app] in H. rewrite H, (get_values_outfile _ _ _ Hn Hcs Hf). reflexivity. }
  split; [exact Hparse|]. split.
  - rewrite (handle_parsed c data vars w df _ _ [] Hdf (parse_variables _ _ _ Hvars)
               Hout Hdefault Hcats).
    reflexivity.
  - rewrite (handle_parsed c data _ w df _ (PStr f) [] Hdf Hparse).
    + rewrite plot_of_insert by left. reflexivity.
    + apply lookup_insert_eq.
    + exact Hpng.
    + rewrite lookup_insert_ne by discriminate. exact Hcats.
Qed.

(** X9. For either command, the names that follow [-c] (or
    [--categoricals]) after the variables, all of them columns of the
    dataset, reach the grid builder as the categoricals, in the order
    given: the handler runs the builder of the grid on them and saves and
    shows its figure under 'output.png'. *)
Theorem categoricals_reach_the_builder c data vars o cs w df :
  heap w !! data = Some df ->
  gives_variables c df vars ->
  o ∈ ["-c"; "--categoricals"] ->
  cs <> [] ->
  Forall (fun x => is_argument_string (parser_of c df) x = true) cs ->
  Forall (fun x => x ∈ columns df) cs ->
  check_valid_png (PStr "output.png") <> (-1)%Z ->
  parse_args (parser_of c df) (vars ++ o :: cs)
    = Ok (<["categoricals" := PList cs]> (variables_ns c df vars)) /\
  handle c data (vars ++ o :: cs) w
    = save_and_show (grid_of c data (variables_ns c df vars) cs) (PStr "output.png") w.
Proof.
  intros Hdf Hvars Ho Hne' Hargs Hcols Hdefault.
  destruct (categoricals_action c df o Ho) as (i & a & Hne & Hp & Ha & Hk & Hd & Hn & Hpos & Hcs).
  destruct (variables_ns_lookup _ _ _ Hvars) as [Hout Hcats].
  assert (Hparse : parse_args (parser_of c df) (vars ++ o :: cs)
                   = Ok (<["categoricals" := PList cs]> (variables_ns c df vars))).
  { pose proof (parse_one_option c df vars o o i a _ cs [] Hvars Hne Hp Ha Hk Hd
                  Hargs (Forall_nil_2 _) (takes_star a cs [] Hn eq_refl)) as H.
    rewrite app_nil_r in H.
    rewrite H, (get_values_categoricals _ _ _ Hn Hpos Hargs _ Hcs Hcols). reflexivity. }
  split; [exact Hparse|].
  rewrite (handle_parsed c data _ w df _ (PStr "output.png") cs Hdf Hparse).
  - rewrite grid_of_insert by (right; left). destruct cs; [contradiction | reflexivity].
  - rewrite lookup_insert_ne by discriminate. exact Hout.
  - exact Hdefault.
  - apply lookup_insert_eq.
Qed.

(** X10. For either command, when [-c] is given twice the second list
    replaces the first, it does not extend it: a call with the lists [cs1]
    (columns of the dataset) and then [cs2] is parsed and handled as the
    call with [cs2] alone. *)
Theorem last_categoricals_win c data vars o1 cs1 o2 cs2 w df :
  heap w !! data = Some df ->
  gives_variables c df vars ->
  o1 ∈ ["-c"; "--categoricals"] ->
  o2 ∈ ["-c"; "--categoricals"] ->
  Forall (fun x => is_argument_string (parser_of c df) x = true) cs1 ->
  Forall (fun x => is_argument_string (parser_of c df) x = true) cs2 ->
  Forall (fun x => x ∈ columns df) cs1 ->
  parse_args (parser_of c df) (vars ++ o1 :: cs1 ++ o2 :: cs2)
    = parse_args (parser_of c df) (vars ++ o2 :: cs2) /\
  handle c data (vars ++ o1 :: cs1 ++ o2 :: cs2) w = handle c data (vars ++ o2 :: cs2) w.
Proof.
  intros Hdf Hvars Ho1 Ho2 Hargs1 Hargs2 Hcols1.
  destruct (categoricals_action c df o1 Ho1)
    as (i1 & a1 & Hne1 & Hp1 & Ha1 & Hk1 & Hd1 & Hn1 & Hpos1 & Hcs1).
  destruct (categoricals_action c df o2 Ho2)
    as (i2 & a2 & Hne2 & Hp2 & Ha2 & Hk2 & Hd2 & Hn2 & Hpos2 & Hcs2).
  assert (Hparse : parse_args (parser_of c df) (vars ++ o1 :: cs1 ++ o2 :: cs2)
                   = parse_args (parser_of c df) (vars ++ o2 :: cs2)).
  { rewrite (parse_two_options c df vars o1 i1 a1 _ cs1 o2 i2 a2 _ cs2 Hvars
               Hne1 Hp1 Ha1 Hk1 Hd1 Hne2 Hp2 Ha2 Hk2 Hd2 Hargs1 Hargs2
               (takes_star a1 cs1 ((o2, ClsO (Some i2) o2 None) :: arguments cs2 ++ []) Hn1 eq_refl) (takes_star a2 cs2 [] Hn2 eq_refl)).
    pose proof (parse_one_option c df vars o2 o2 i2 a2 _ cs2 [] Hvars Hne2 Hp2 Ha2 Hk2 Hd2
                  Hargs2 (Forall_nil_2 _) (takes_star a2 cs2 [] Hn2 eq_refl)) as H.
    rewrite app_nil_r in H. rewrite H.
    rewrite (get_values_categoricals _ _ _ Hn1 Hpos1 Hargs1 _ Hcs1 Hcols1).
    cbn [mbind result_bind]. destruct (get_values a2 cs2) as [val|e]; [|reflexivity].
    cbn [mbind result_bind]. rewrite insert_insert_eq. reflexivity. }
  split; [exact Hparse|].
  apply handle_same_parse. intros df' Hdf'. rewrite (same_frame _ _ _ _ Hdf Hdf'). exact Hparse.
Qed.

(** X11. For either command, the output file and the categoricals can be
    given in either order after the variables: [-o f -c cs...] and
    [-c cs... -o f] are parsed to the same result and handled alike. *)
Theorem options_in_either_order c data vars oo f oc cs w df :
  heap w !! data = Some df ->
  gives_variables c df vars ->
  oo ∈ ["-o"; "--outfile"] ->
  oc ∈ ["-c"; "--categoricals"] ->
  is_argument_string (parser_of c df) f = true ->
  Forall (fun x => is_argument_string (parser_of c df) x = true) cs ->
  parse_args (parser_of c df) (vars ++ oo :: [f] ++ oc :: cs)
    = parse_args (parser_of c df) (vars ++ oc :: cs ++ oo :: [f]) /\
  handle c data (vars ++ oo :: [f] ++ oc :: cs) w
    = handle c data (vars ++ oc :: cs ++ oo :: [f]) w.
Proof.
  intros Hdf Hvars Hoo Hoc Hf Hargs.
  destruct (outfile_action c df oo Hoo)
    as (io & ao & Hneo & Hpo & Hao & Hko & Hdo & Hno & Hposo & Hconst & Hcso).
  destruct (categoricals_action c df oc Hoc)
    as (ic & ac & Hnec & Hpc & Hac & Hkc & Hdc & Hnc & Hposc & Hcsc).
  assert (Hfs : Forall (fun v => is_argument_string (parser_of c df) v = true) [f])
    by (repeat constructor; exact Hf).
  assert (Hparse : parse_args (parser_of c df) (vars ++ oo :: [f] ++ oc :: cs)
                   = parse_args (parser_of c df) (vars ++ oc :: cs ++ oo :: [f])).
  { rewrite (parse_two_options c df vars oo io ao _ [f] oc ic ac _ cs Hvars
               Hneo Hpo Hao Hko Hdo Hnec Hpc Hac Hkc Hdc Hfs Hargs
               (takes_optional ao [f] ((oc, ClsO (Some ic) oc None) :: arguments cs ++ []) Hno (le_n 1) eq_refl) (takes_star ac cs [] Hnc eq_refl)).
    rewrite (parse_two_options c df vars oc ic ac _ cs oo io ao _ [f] Hvars
               Hnec Hpc Hac Hkc Hdc Hneo Hpo Hao Hko Hdo Hargs Hfs
               (takes_star ac cs ((oo, ClsO (Some io) oo None) :: arguments [f] ++ []) Hnc eq_refl) (takes_optional ao [f] [] Hno (le_n 1) eq_refl)).
    rewrite (get_values_outfile _ _ _ Hno Hcso Hf). cbn [mbind result_bind].
    destruct (get_values ac cs) as [val|e]; [|reflexivity].
    cbn [mbind result_bind]. rewrite insert_insert_ne by discriminate. reflexivity. }
  split; [exact Hparse|].
  apply handle_same_parse. intros df' Hdf'. rewrite (same_frame _ _ _ _ Hdf Hdf'). exact Hparse.
Qed.

End option_properties.
(** ** Further properties: calls the parsers refuse

    [parser.error] writes the usage line and its message to standard error
    and exits with status 2; the help action writes the help to standard
    output and exits with status 0.  The embedding keeps the exit, with the
    error that caused it, and not the text: writing the text is taken to
    succeed. *)

Section refused_calls.
Import argparse.

Local Abbreviation arguments := (map (fun v : string => (v, ClsA))).

Lemma parse_optional_error p s e :
  parse_optional p s = Error e -> exists opt ms, e = AmbiguousOption opt ms.
Proof.
  unfold parse_optional. intros H.
  repeat match type of H with
         | (if ?b then _ else _) = _ => destruct b
         | match ?x with _ => _ end = _ => destruct x
         | (let '(_, _) := ?x in _) = _ => destruct x
         end;
    try discriminate H; injection H as <-; eauto.
Qed.

Lemma classify_error p l e :
  classify p l = Error e -> exists opt ms, e = AmbiguousOption opt ms.
Proof.
  induction l as [|s l IH]; [discriminate|]. cbn [classify].
  destruct (String.eqb s "--"); [discriminate|].
  destruct (parse_optional p s) as [x|e'] eqn:Hs.
  - cbn [mbind result_bind]. destruct (classify p l) as [items|e'']; [discriminate|].
    intros [= <-]. apply IH. reflexivity.
  - intros [= <-]. eapply parse_optional_error. exact Hs.
Qed.

Lemma help_option c df o :
  o ∈ ["-h"; "--help"] ->
  String.eqb o "--" = false /\
  parse_optional (parser_of c df) o = Ok (Some (Some 0, o, None)).
Proof.
  intros Ho. apply elem_of_cons in Ho as [->|Ho]; [|apply list_elem_of_singleton in Ho as ->];
    destruct c; split; reflexivity.
Qed.

Lemma parse_args_help c df o rest items :
  o ∈ ["-h"; "--help"] ->
  classify (parser_of c df) rest = Ok items ->
  parse_args (parser_of c df) (o :: rest) = Error HelpRequested.
Proof.
  intros Ho Hrest. destruct (help_option c df o Ho) as [Hne Hp].
  unfold parse_args, parse_known_args.
  rewrite (classify_option _ _ _ _ _ Hne Hp), Hrest. cbn [mbind result_bind length].
  cbn [parse_loop existsb is_option snd orb negb before_option].
  unfold consume_optional, following_tuples.
  replace (actions (parser_of c df) !! 0) with (Some help_action) by (destruct c; reflexivity).
  cbn [match_argument nargs help_action mbind result_bind fst snd take take_actions].
  unfold take_action.
  replace (actions (parser_of c df) !! 0) with (Some help_action) by (destruct c; reflexivity).
  reflexivity.
Qed.

(** X1. For either command, a token list that starts with [-h] or
    [--help] ends in the exit of the help action, with status 0, whatever
    follows (missing variables and invalid names included): nothing is
    plotted or written.  Only an ambiguous option string among the later
    tokens comes first, since every token is classified before any action
    is taken; the call then ends in that usage error. *)
Theorem help_option_exits_first c data o rest w df :
  heap w !! data = Some df ->
  o ∈ ["-h"; "--help"] ->
  match classify (parser_of c df) rest with
  | Ok _ => handle c data (o :: rest) w = (Raised (SystemExit 0 HelpRequested), w)
  | Error e =>
      (exists opt ms, e = AmbiguousOption opt ms) /\
      handle c data (o :: rest) w = (Raised (SystemExit 2 e), w)
  end.
Proof.
  intros Hdf Ho. destruct (classify (parser_of c df) rest) as [items|e] eqn:Hrest.
  - apply (handle_parse_error _ _ _ _ _ _ Hdf (parse_args_help _ _ _ _ _ Ho Hrest)).
  - destruct (classify_error _ _ _ Hrest) as (opt & ms & ->).
    split; [eauto|].
    apply (handle_parse_error c data (o :: rest) w df (AmbiguousOption opt ms) Hdf).
    destruct (help_option c df o Ho) as [Hne Hp].
    unfold parse_args, parse_known_args.
    rewrite (classify_option _ _ _ _ _ Hne Hp), Hrest. reflexivity.
Qed.

(** X2. A call without tokens is refused by either command for want of its
    variables (var; v1 and v2), and a call of the bivariate command that
    gives one numerical column only for want of v2: the handler ends in
    the usage error, status 2, and nothing is plotted or written. *)
Theorem missing_variables_rejected c data w df :
  heap w !! data = Some df ->
  handle c data [] w = (Raised (SystemExit 2 (RequiredMissing (variables_of c))), w) /\
  (forall v,
     is_argument_string (show_biv_dist_parser df) v = true ->
     v ∈ get_numericals df ->
     show_biv_dist data [v] w = (Raised (SystemExit 2 (RequiredMissing ["v2"])), w)).
Proof.
  intros Hdf. split.
  - apply (handle_parse_error c data [] w df (RequiredMissing (variables_of c)) Hdf).
    destruct c; reflexivity.
  - intros v Hv Hnum.
    apply (handle_parse_error Bivariate data [v] w df (RequiredMissing ["v2"]) Hdf).
    cbn [parser_of].
    unfold parse_args.
    rewrite parse_known_args_arguments by (repeat constructor; exact Hv).
    apply is_argument_string_eqb in Hv as (_ & Hv & _).
    unfold consume_positionals. cbn [positionals pattern map pattern_of snd fst].
    replace (get_positional_actions (show_biv_dist_parser df)) with [1; 2; 3] by reflexivity.
    replace (match_arguments_partial (show_biv_dist_parser df) [1; 2; 3] [PA])
      with [1] by reflexivity.
    cbn [slices take drop take_actions].
    erewrite take_action_store by reflexivity.
    rewrite get_values_one by (first [exact Hv | left; reflexivity]).
    unfold check_value at 1. cbn [choices starts_with_dash get_action_name option_strings dest].
    rewrite (in_list_true _ _ Hnum). reflexivity.
Qed.

Lemma categoricals_index c df o :
  o ∈ ["-c"; "--categoricals"] ->
  exists i a,
    String.eqb o "--" = false /\
    parse_optional (parser_of c df) o = Ok (Some (Some i, o, None)) /\
    actions (parser_of c df) !! i = Some a /\
    kind a = Store /\ dest a = Some "categoricals" /\ nargs a = NargsZeroOrMore /\
    is_positional_action a = false /\ choices a = Some (columns df) /\
    required_actions (parser_of c df) [i] = variables_of c.
Proof.
  intros Ho. apply elem_of_cons in Ho as [->|Ho]; [|apply list_elem_of_singleton in Ho as ->];
    destruct c; eexists _, _; repeat split; reflexivity.
Qed.

(** X3. The variables have to come before [-c]: for either command, a
    token list that starts with [-c] (or [--categoricals]) and goes on
    with names of columns only is refused for want of the variables, every
    name, the intended variables included, having been taken for a
    categorical.  The handler ends in that usage error, status 2. *)
Theorem categoricals_before_the_variables c data o names w df :
  heap w !! data = Some df ->
  o ∈ ["-c"; "--categoricals"] ->
  Forall (fun x => is_argument_string (parser_of c df) x = true) names ->
  Forall (fun x => x ∈ columns df) names ->
  parse_args (parser_of c df) (o :: names) = Error (RequiredMissing (variables_of c)) /\
  handle c data (o :: names) w
    = (Raised (SystemExit 2 (RequiredMissing (variables_of c))), w).
Proof.
  intros Hdf Ho Hargs Hcols.
  destruct (categoricals_index c df o Ho)
    as (i & a & Hne & Hp & Ha & Hk & Hd & Hn & Hpos & Hcs & Hreq).
  assert (Hparse : parse_args (parser_of c df) (o :: names)
                   = Error (RequiredMissing (variables_of c))).
  { unfold parse_args, parse_known_args.
    rewrite (classify_option _ _ _ _ _ Hne Hp), (classify_arguments _ _ Hargs).
    cbn [mbind result_bind].
    rewrite <- (app_nil_r (arguments names)).
    rewrite (parse_loop_option_fuel _ _ _ _ _ _ _ _ _ _ (PList names) Ha Hk Hd
               (takes_star a names [] Hn eq_refl)
               (get_values_categoricals _ _ _ Hn Hpos Hargs _ Hcs Hcols) (Nat.le_refl _)).
    rewrite parse_loop_no_options by reflexivity.
    cbn [mbind result_bind fst snd]. unfold consume_positionals.
    cbn [positionals set_namespace add_seen pattern map].
    replace (match_arguments_partial (parser_of c df) _ []) with (@nil nat)
      by (destruct c; reflexivity).
    cbn [slices take_actions mbind result_bind fst snd length foldr drop map
         set_positionals add_extras seen_actions add_seen set_namespace].
    replace (slices (get_positional_actions (parser_of c df)) [] []) with
      (@nil (nat * list string)) by (destruct c; reflexivity).
    cbn [take_actions mbind result_bind fst snd seen_actions].
    match goal with
    | |- context [required_actions ?p ?s] => replace s with [i] by reflexivity
    end.
    rewrite Hreq. destruct c; reflexivity. }
  split; [exact Hparse|].
  apply (handle_parse_error c data _ w df _ Hdf Hparse).
Qed.

(** X4. Arguments beyond what the positionals take are not ignored: for
    the univariate command any argument after the variable, and for the
    bivariate command any argument after the two variables and the plot
    type, makes the parser refuse the call, naming the surplus arguments,
    and the handler ends in that usage error, status 2. *)
Theorem surplus_arguments_rejected c data vars extra w df :
  heap w !! data = Some df ->
  gives_variables c df vars ->
  (c = Bivariate -> length vars = 3) ->
  extra <> [] ->
  Forall (fun x => is_argument_string (parser_of c df) x = true) extra ->
  parse_args (parser_of c df) (vars ++ extra) = Error (UnrecognizedArguments extra) /\
  handle c data (vars ++ extra) w
    = (Raised (SystemExit 2 (UnrecognizedArguments extra)), w).
Proof.
  intros Hdf Hvars Hfull Hne Hextra.
  assert (Hparse : parse_args (parser_of c df) (vars ++ extra)
                   = Error (UnrecognizedArguments extra)).
  { unfold parse_args.
    rewrite parse_known_args_arguments by (apply Forall_app; split; [apply Hvars | exact Hextra]).
    rewrite map_app, (consume_variables _ _ _ _ Hvars).
    2:{ destruct extra as [|x extra]; [contradiction|]. right. split; [reflexivity | exact Hfull]. }
    cbn [mbind result_bind fst snd].
    replace (length vars) with (length (arguments vars)) by apply length_map.
    rewrite drop_app_length, map_fst_arguments.
    cbn [add_extras seen_actions extras namespace].
    rewrite (required_actions_variables c df). cbn [parsed_variables app snd fst].
    destruct extra; [contradiction | reflexivity]. }
  split; [exact Hparse|].
  apply (handle_parse_error c data _ w df _ Hdf Hparse).
Qed.

(** X5. In a call of the bivariate command the plot type is read only
    directly after the two variables.  Given there, before [-o f], it is
    stored; given after [-o f], it is not read as the plot type (which
    has taken its default already) and the call is refused as having an
    unrecognized argument, even for 'heatmap' and 'gaussian'. *)
Theorem plot_type_goes_before_the_options data v1 v2 t o f w df :
  heap w !! data = Some df ->
  gives_variables Bivariate df [v1; v2; t] ->
  o ∈ ["-o"; "--outfile"] ->
  is_argument_string (show_biv_dist_parser df) f = true ->
  parse_args (show_biv_dist_parser df) [v1; v2; t; o; f]
    = Ok (<["outfile" := PStr f]> (biv_ns df v1 v2 t)) /\
  parse_args (show_biv_dist_parser df) [v1; v2; o; f; t]
    = Error (UnrecognizedArguments [t]) /\
  show_biv_dist data [v1; v2; o; f; t] w
    = (Raised (SystemExit 2 (UnrecognizedArguments [t])), w).
Proof.
  intros Hdf Hvars Ho Hf.
  destruct (outfile_action Bivariate df o Ho)
    as (i & a & Hne & Hp & Ha & Hk & Hd & Hn & Hpos & Hconst & Hcs).
  assert (Hpair : gives_variables Bivariate df [v1; v2]).
  { destruct Hvars as [Hargs (Hn1 & Hn2 & _)]. split; [|split; assumption].
    apply Forall_cons in Hargs as [H1 Hargs]. apply Forall_cons in Hargs as [H2 _].
    repeat constructor; assumption. }
  assert (Ht : is_argument_string (show_biv_dist_parser df) t = true).
  { destruct Hvars as [Hargs _].
    apply Forall_cons in Hargs as [_ Hargs]. apply Forall_cons in Hargs as [_ Hargs].
    apply Forall_cons in Hargs as [H3 _]. exact H3. }
  assert (Hfs : Forall (fun v => is_argument_string (parser_of Bivariate df) v = true) [f])
    by (repeat constructor; exact Hf).
  assert (Hts : Forall (fun v => is_argument_string (parser_of Bivariate df) v = true) [t])
    by (repeat constructor; exact Ht).
  assert (Hparse : parse_args (show_biv_dist_parser df) [v1; v2; o; f; t]
                   = Error (UnrecognizedArguments [t])).
  { pose proof (parse_one_option Bivariate df [v1; v2] o o i a _ [f] [t] Hpair Hne Hp Ha Hk Hd
                  Hfs Hts) as H.
    cbn [app parser_of] in H. rewrite H.
    - rewrite (get_values_outfile _ _ _ Hn Hcs Hf). reflexivity.
    - unfold match_argument. rewrite Hn. reflexivity. }
  split; [|split; [exact Hparse|]].
  - pose proof (parse_one_option Bivariate df [v1; v2; t] o o i a _ [f] [] Hvars Hne Hp Ha Hk Hd
                  Hfs (Forall_nil_2 _) (takes_optional a [f] [] Hn (le_n 1) eq_refl)) as H.
    cbn [app parser_of] in H. rewrite H, (get_values_outfile _ _ _ Hn Hcs Hf). reflexivity.
  - apply (handle_parse_error Bivariate data _ w df _ Hdf Hparse).
Qed.

End refused_calls.
(** ** Further properties: what a call can change, and how it can fail *)

Section effects.

Ltac not_key_or_index H :=
  first [ discriminate H
        | injection H as <- _; split; discriminate ].

Lemma save_and_show_errors (build : M Figure) outfile w e w' :
  (forall e1 w1, build w = (Raised e1, w1) -> e1 <> KeyError /\ e1 <> IndexError) ->
  save_and_show build outfile w = (Raised e, w') ->
  e <> KeyError /\ e <> IndexError.
Proof.
  intros Hbuild. rewrite save_and_show_spec.
  destruct (build w) as [[plot|e1] w1] eqn:Hb.
  - destruct outfile; intros H; not_key_or_index H.
  - intros [= <- _]. eapply Hbuild. reflexivity.
Qed.

(** X13. A handler called on a frame never ends in the KeyError of
    [set_index] nor in the IndexError of [categoricals[0]]: the parser
    has let through only names of columns as categoricals, and the first
    categorical is read only when the list is not empty. *)
Theorem no_key_or_index_error c data args w df e w' :
  heap w !! data = Some df ->
  handle c data args w = (Raised e, w') ->
  e <> KeyError /\ e <> IndexError.
Proof.
  intros Hdf.
  destruct (argparse.parse_args (parser_of c df) args) as [ns|err] eqn:Hns.
  2:{ rewrite (handle_parse_error _ _ _ _ _ _ Hdf Hns). intros H. not_key_or_index H. }
  destruct (parsed_names_valid _ _ _ _ Hns) as (_ & (cs & Hcs & Hcols) & (o & Ho) & _).
  pose proof (parsed_keys _ _ _ _ Hns) as Hkeys.
  destruct c; cbn [handle parser_of] in *.
  - destruct Hkeys as [var Hvar].
    rewrite show_dist_unfold, Hdf, Hns, Ho, Hcs, Hvar.
    destruct (Z.eqb (check_valid_png o) (-1)); [discriminate|].
    apply save_and_show_errors. intros e1 w1.
    destruct (bool_decide (PList cs = PList [])) eqn:Hempty.
    + rewrite (plot_dist_spec _ _ _ _ Hdf). destruct (is_variable df var); intros H;
        not_key_or_index H.
    + apply bool_decide_eq_false in Hempty.
      unfold mbind at 1, M_bind at 1. cbn [expect_list mret M_ret].
      rewrite (plot_dist_by_categoricals_spec _ _ _ _ _ Hdf). cbn zeta.
      rewrite (forallb_columns _ _ Hcols).
      destruct (Nat.ltb 1 (length cs)).
      * destruct (composite_labels df cs);
          [destruct (_ && _); [try destruct (kde_accepts _ _ _ _)|]|];
          intros H; not_key_or_index H.
      * destruct cs as [|x cs]; [contradiction Hempty; reflexivity|].
        destruct (_ && _); [try destruct (kde_accepts _ _ _ _)|];
          intros H; not_key_or_index H.
  - destruct Hkeys as ([v1 Hv1] & [v2 Hv2] & [pt Hpt]).
    rewrite show_biv_dist_unfold, Hdf, Hns, Ho, Hcs, Hv1, Hv2, Hpt.
    destruct (Z.eqb (check_valid_png o) (-1)); [discriminate|].
    apply save_and_show_errors. intros e1 w1.
    destruct (bool_decide (PList cs = PList [])) eqn:Hempty.
    + rewrite (plot_biv_dist_spec _ _ _ _ _ _ Hdf).
      destruct (_ && _); [destruct (kde_accepts _ _ _ _)|]; intros H; not_key_or_index H.
    + apply bool_decide_eq_false in Hempty.
      unfold mbind at 1, M_bind at 1. cbn [expect_list mret M_ret].
      rewrite (plot_biv_dist_by_categoricals_spec _ _ _ _ _ _ _ Hdf). cbn zeta.
      rewrite (forallb_columns _ _ Hcols).
      destruct (Nat.ltb 1 (length cs)).
      * destruct (composite_labels df cs);
          [destruct (_ && _); [try destruct (kde_accepts _ _ _ _)|]|];
          intros H; not_key_or_index H.
      * destruct cs as [|x cs]; [contradiction Hempty; reflexivity|].
        destruct (_ && _); [try destruct (kde_accepts _ _ _ _)|];
          intros H; not_key_or_index H.
Qed.

Lemma columns_without_keys df cs :
  columns (set_index_frame df cs) = filter (fun c => c ∉ cs) (columns df).
Proof.
  cbn [set_index_frame columns]. apply list_filter_iff. intros c. unfold in_list.
  rewrite bool_decide_eq_false. reflexivity.
Qed.

Ltac same_objects := eexists; split; [reflexivity | left; reflexivity].

Ltac copied_with index_case :=
  eexists; split; [reflexivity|]; right; split; [lia|];
  eexists; split; [reflexivity|]; split; [reflexivity|]; split; [reflexivity|];
  index_case.

(** X20. A handler copies the dataset only for two or more categoricals.
    Whatever the tokens and the outcome, the code of the handler and of its
    builder creates no frame object, or the one copy [set_index] makes; it
    makes it only when the parsed categoricals are two or more.  The copy
    holds the rows of the dataset without the cells of the categoricals'
    columns, under the tuples of their values or, once these are joined,
    under the composite labels.  (The heap holds the frames this code
    creates, for as long as the call lasts and after.) *)
Theorem frame_copied_only_for_several_categoricals c data args w :
  heap (snd (handle c data args w)) = heap w \/
  exists df ns cs l copy,
    heap w !! data = Some df /\
    argparse.parse_args (parser_of c df) args = argparse.Ok ns /\
    ns !! "categoricals" = Some (PList cs) /\
    2 <= length cs /\
    heap w !! l = None /\
    heap (snd (handle c data args w)) = <[l := copy]> (heap w) /\
    columns copy = filter (fun x => x ∉ cs) (columns df) /\
    rows copy = map (drop_cells cs (columns df)) (rows df) /\
    (index copy = index_of_keys df cs \/
     exists labels, composite_labels df cs = Some labels /\ index copy = str_labels labels).
Proof.
  destruct (heap w !! data) as [df|] eqn:Hdf.
  2:{ left. destruct c; cbn [handle];
        rewrite ?show_dist_unfold, ?show_biv_dist_unfold, Hdf; reflexivity. }
  destruct (argparse.parse_args (parser_of c df) args) as [ns|err] eqn:Hns.
  2:{ left. rewrite (handle_parse_error _ _ _ _ _ _ Hdf Hns). reflexivity. }
  destruct (parsed_names_valid _ _ _ _ Hns) as (_ & (cs & Hcs & Hcols) & (o & Ho) & _).
  pose proof (parsed_keys _ _ _ _ Hns) as Hkeys.
  assert (Haux : exists h,
            heap (snd (handle c data args w)) = h /\
            (h = heap w \/
             (2 <= length cs /\
              exists copy,
                h = <[fresh (dom (heap w)) := copy]> (heap w) /\
                columns copy = columns (set_index_frame df cs) /\
                rows copy = rows (set_index_frame df cs) /\
                (index copy = index_of_keys df cs \/
                 exists labels,
                   composite_labels df cs = Some labels /\ index copy = str_labels labels)))).
  { destruct c; cbn [handle parser_of] in *.
    - destruct Hkeys as [var Hvar].
      rewrite show_dist_unfold, Hdf, Hns, Ho, Hcs, Hvar.
      destruct (Z.eqb (check_valid_png o) (-1)); [same_objects|].
      rewrite save_and_show_spec.
      destruct (bool_decide (PList cs = PList [])) eqn:Hempty.
      + rewrite (plot_dist_spec _ _ _ _ Hdf).
        destruct (is_variable df var); [destruct o|]; same_objects.
      + apply bool_decide_eq_false in Hempty.
        unfold mbind at 1, M_bind at 1. cbn [expect_list mret M_ret].
        rewrite (plot_dist_by_categoricals_spec _ _ _ _ _ Hdf). cbn zeta.
        rewrite (forallb_columns _ _ Hcols).
        destruct (Nat.ltb 1 (length cs)) eqn:Hlen.
        * apply Nat.ltb_lt in Hlen.
          destruct (composite_labels df cs) as [labels|] eqn:Hl.
          -- destruct (_ && _);
               [try (destruct (kde_accepts _ _ _ _);
                     [|copied_with ltac:(right; exists labels; split; reflexivity)]);
                destruct o|];
               copied_with ltac:(right; exists labels; split; reflexivity).
          -- copied_with ltac:(left; reflexivity).
        * destruct cs as [|x cs]; [contradiction Hempty; reflexivity|].
          destruct (_ && _);
            [try (destruct (kde_accepts _ _ _ _); [|same_objects]); destruct o|];
            same_objects.
    - destruct Hkeys as ([v1 Hv1] & [v2 Hv2] & [pt Hpt]).
      rewrite show_biv_dist_unfold, Hdf, Hns, Ho, Hcs, Hv1, Hv2, Hpt.
      destruct (Z.eqb (check_valid_png o) (-1)); [same_objects|].
      rewrite save_and_show_spec.
      destruct (bool_decide (PList cs = PList [])) eqn:Hempty.
      + rewrite (plot_biv_dist_spec _ _ _ _ _ _ Hdf).
        destruct (_ && _); [destruct (kde_accepts _ _ _ _); [destruct o|]|]; same_objects.
      + apply bool_decide_eq_false in Hempty.
        unfold mbind at 1, M_bind at 1. cbn [expect_list mret M_ret].
        rewrite (plot_biv_dist_by_categoricals_spec _ _ _ _ _ _ _ Hdf). cbn zeta.
        rewrite (forallb_columns _ _ Hcols).
        destruct (Nat.ltb 1 (length cs)) eqn:Hlen.
        * apply Nat.ltb_lt in Hlen.
          destruct (composite_labels df cs) as [labels|] eqn:Hl.
          -- destruct (_ && _);
               [try (destruct (kde_accepts _ _ _ _);
                     [|copied_with ltac:(right; exists labels; split; reflexivity)]);
                destruct o|];
               copied_with ltac:(right; exists labels; split; reflexivity).
          -- copied_with ltac:(left; reflexivity).
        * destruct cs as [|x cs]; [contradiction Hempty; reflexivity|].
          destruct (_ && _);
            [try (destruct (kde_accepts _ _ _ _); [|same_objects]); destruct o|];
            same_objects. }
  destruct Haux as (h & Hh & [->|(Hlen & copy & -> & Hc & Hr & Hi)]); [left; exact Hh|].
  right. exists df, ns, cs, (fresh (dom (heap w))), copy.
  split; [reflexivity|]. split; [exact Hns|]. split; [exact Hcs|]. split; [exact Hlen|].
  split; [apply fresh_loc_None|]. split; [exact Hh|].
  split; [rewrite Hc; apply columns_without_keys|]. split; [exact Hr | exact Hi].
Qed.

End effects.
(** ** Further properties: panels and combinations of categories *)

Section panels.

Lemma mapM_fmap_default {A} (f : A -> option string) (l : list A) (k : list string) :
  mapM f l = Some k -> k = map (fun x => default EmptyString (f x)) l.
Proof.
  intros H. apply mapM_Some in H.
  induction H as [|x y l k Hxy _ IH]; [reflexivity|].
  cbn [map]. rewrite Hxy, <- IH. reflexivity.
Qed.

Lemma length_remove_dups_fmap_le {A B} `{EqDecision A, EqDecision B} (g : A -> B) (l : list A) :
  length (remove_dups (map g l)) <= length (remove_dups l).
Proof.
  replace (length (remove_dups l)) with (length (map g (remove_dups l))) by apply length_map.
  apply submseteq_length, NoDup_submseteq; [apply NoDup_remove_dups|].
  intros y Hy. apply elem_of_remove_dups, list_elem_of_fmap in Hy as (x & -> & Hx).
  apply list_elem_of_fmap. exists x. split; [reflexivity|]. apply elem_of_remove_dups. exact Hx.
Qed.

Lemma length_remove_dups_fmap_inj {A B} `{EqDecision A, EqDecision B} (g : A -> B) (l : list A) :
  (forall x y, x ∈ l -> y ∈ l -> g x = g y -> x = y) ->
  length (remove_dups (map g l)) = length (remove_dups l).
Proof.
  intros Hinj. apply Nat.le_antisymm; [apply length_remove_dups_fmap_le|].
  replace (length (remove_dups l)) with (length (map g (remove_dups l))) by apply length_map.
  apply submseteq_length, NoDup_submseteq.
  - apply NoDup_fmap_2_strong; [|apply NoDup_remove_dups].
    intros x y Hx Hy. apply Hinj; apply elem_of_remove_dups; assumption.
  - intros y Hy. apply list_elem_of_fmap in Hy as (x & -> & Hx).
    apply elem_of_remove_dups, list_elem_of_fmap. exists x. split; [reflexivity|].
    apply elem_of_remove_dups. exact Hx.
Qed.

(** Text without underscores before an underscore is read back. *)
Lemma underscore_splits s1 : forall s2 r1 r2,
  contains_char "_" s1 = false -> contains_char "_" s2 = false ->
  s1 +:+ String "_" r1 = s2 +:+ String "_" r2 -> s1 = s2 /\ r1 = r2.
Proof.
  induction s1 as [|c s1 IH]; intros [|d s2] r1 r2 H1 H2 H;
    cbn [String.append contains_char] in *.
  - injection H as ->. split; reflexivity.
  - injection H as Hd _. subst d. rewrite Ascii.eqb_refl in H2. discriminate H2.
  - injection H as Hc _. subst c. rewrite Ascii.eqb_refl in H1. discriminate H1.
  - injection H as Hcd H. subst d.
    destruct (Ascii.eqb "_" c) eqn:E; [discriminate H1|].
    destruct (IH _ _ _ H1 H2 H) as [-> ->]. split; reflexivity.
Qed.

Lemma join_strs_cons s x l :
  join_strs "_" (s :: x :: l) = s +:+ String "_" (join_strs "_" (x :: l)).
Proof. reflexivity. Qed.

Lemma join_strs_inj l1 : forall l2,
  length l1 = length l2 ->
  Forall (fun s => contains_char "_" s = false) l1 ->
  Forall (fun s => contains_char "_" s = false) l2 ->
  join_strs "_" l1 = join_strs "_" l2 -> l1 = l2.
Proof.
  induction l1 as [|s1 l1 IH]; intros [|s2 l2] Hlen H1 H2 H; try discriminate Hlen;
    [reflexivity|].
  apply Forall_cons in H1 as [Hs1 H1]. apply Forall_cons in H2 as [Hs2 H2].
  destruct l1 as [|x1 l1], l2 as [|x2 l2]; try discriminate Hlen.
  - cbn in H. rewrite H. reflexivity.
  - rewrite !join_strs_cons in H.
    destruct (underscore_splits _ _ _ _ Hs1 Hs2 H) as [-> Hrest].
    f_equal. apply IH; [cbn in Hlen |- *; lia | assumption | assumption | exact Hrest].
Qed.

Lemma tuple_strings df cs row strs :
  underscore_free df cs ->
  row ∈ rows df ->
  mapM as_str (map (cell (columns df) row) cs) = Some strs ->
  length strs = length cs /\ Forall (fun s => contains_char "_" s = false) strs.
Proof.
  intros Hfree Hrow Hstrs. apply mapM_as_str in Hstrs.
  split.
  - apply (f_equal length) in Hstrs. rewrite !length_map in Hstrs. symmetry. exact Hstrs.
  - apply Forall_forall. intros s Hs.
    assert (Hin : SStr s ∈ map (cell (columns df) row) cs).
    { rewrite Hstrs. apply list_elem_of_fmap. eauto. }
    apply list_elem_of_fmap in Hin as (c & Hc & Hcs).
    apply (Hfree c s Hcs). rewrite Hc. unfold column_values.
    apply list_elem_of_fmap. eauto.
Qed.

(** The panels of a grid by two or more categoricals, against the
    combinations of values the categoricals take. *)
Lemma labels_against_combinations df cs labels :
  2 <= length cs ->
  composite_labels df cs = Some labels ->
  length (remove_dups labels) <= length (combinations df cs) /\
  (underscore_free df cs -> length (remove_dups labels) = length (combinations df cs)).
Proof.
  intros Hlen Hlabels. unfold composite_labels in Hlabels.
  pose proof (mapM_fmap_default _ _ _ Hlabels) as ->.
  unfold combinations. split; [apply length_remove_dups_fmap_le|].
  intros Hfree. apply length_remove_dups_fmap_inj.
  apply mapM_Some in Hlabels.
  rewrite (index_of_keys_tuples _ _ Hlen) in *.
  intros x y Hx Hy Hxy.
  apply list_elem_of_fmap in Hx as (r1 & -> & Hr1).
  apply list_elem_of_fmap in Hy as (r2 & -> & Hr2).
  assert (Hsome : forall r, r ∈ rows df ->
            exists strs, mapM as_str (map (cell (columns df) r) cs) = Some strs).
  { intros r Hr.
    assert (Hin : LTuple (map (cell (columns df) r) cs)
                  ∈ map (fun row => LTuple (map (cell (columns df) row) cs)) (rows df))
      by (apply list_elem_of_fmap; eauto).
    apply list_elem_of_lookup in Hin as [i Hi].
    destruct (Forall2_lookup_l _ _ _ _ _ Hlabels Hi) as (s & _ & Hs).
    cbn in Hs. destruct (mapM as_str (map (cell (columns df) r) cs)); [eauto | discriminate Hs]. }
  destruct (Hsome r1 Hr1) as [strs1 H1]. destruct (Hsome r2 Hr2) as [strs2 H2].
  cbn in Hxy. rewrite H1, H2 in Hxy. cbn in Hxy.
  destruct (tuple_strings _ _ _ _ Hfree Hr1 H1) as [Hl1 Hf1].
  destruct (tuple_strings _ _ _ _ Hfree Hr2 H2) as [Hl2 Hf2].
  apply mapM_as_str in H1, H2. rewrite H1, H2. f_equal. f_equal.
  apply join_strs_inj; [lia | assumption | assumption | exact Hxy].
Qed.

(** A check of [underscore_free] by computation. *)
Lemma underscore_free_check df cs :
  forallb (fun c => forallb (fun v => match v with
                                      | SStr s => negb (contains_char "_" s)
                                      | _ => true
                                      end) (column_values df c)) cs = true ->
  underscore_free df cs.
Proof.
  intros H c s Hc Hs. rewrite forallb_forall in H.
  specialize (H c (proj1 (list_elem_of_In _ _) Hc)). rewrite forallb_forall in H.
  specialize (H (SStr s) (proj1 (list_elem_of_In _ _) Hs)). cbn in H.
  apply negb_true_iff. exact H.
Qed.

(** X14. In the grid either builder returns for two or more categoricals
    the rows are grouped by their composite label, so the grid never has
    more panels than there are combinations of values of the categoricals
    in the rows, and it has exactly one panel per combination when no
    value holds an underscore.  Values with underscores can merge panels:
    in the frame [merging] the rows ('a_b', 'c') and ('a', 'b_c') are two
    combinations and share the one panel 'a_b_c'. *)
Theorem panels_at_most_combinations :
  (forall data var v1 v2 pt cs w df plot w',
     heap w !! data = Some df ->
     2 <= length cs ->
     __plot_dist_by_categoricals data var cs w = (Returned plot, w') \/
     __plot_biv_dist_by_categoricals data v1 v2 pt cs w = (Returned plot, w') ->
     subplots plot <= length (combinations df cs) /\
     (underscore_free df cs -> subplots plot = length (combinations df cs))) /\
  (exists plot w',
     __plot_dist_by_categoricals data0 (PStr "size") ["site"; "plot"]
       {| heap := {[ data0 := merging ]}; files := ∅; log := [] |} = (Returned plot, w') /\
     facet_names plot = [LScalar (SStr "a_b_c")] /\
     subplots plot = 1 /\
     length (combinations merging ["site"; "plot"]) = 2).
Proof.
  split.
  - intros data var v1 v2 pt cs w df plot w' Hdf Hlen H.
    rewrite (plot_dist_by_categoricals_spec _ _ _ _ _ Hdf),
      (plot_biv_dist_by_categoricals_spec _ _ _ _ _ _ _ Hdf) in H. cbn zeta in H.
    rewrite (ltb_1_length _ Hlen) in H.
    destruct (forallb _ cs); [|destruct H as [H|H]; discriminate H].
    destruct (composite_labels df cs) as [labels|] eqn:Hl;
      [|destruct H as [H|H]; discriminate H].
    assert (Hcol : fig_col plot = Some (str_labels labels)).
    { destruct H as [H|H].
      - destruct (_ && _); [|discriminate H]. injection H as <- _. reflexivity.
      - destruct (_ && _); [|discriminate H].
        destruct (kde_accepts _ _ _ _); [|discriminate H]. injection H as <- _. reflexivity. }
    unfold subplots, facet_names. rewrite Hcol, length_remove_dups_str_labels.
    apply labels_against_combinations; assumption.
  - eexists _, _. split; [vm_compute; reflexivity|].
    split; [vm_compute; reflexivity|]. split; vm_compute; reflexivity.
Qed.

End panels.
(** ** Further properties: the help message *)

Section help_message.
Import argparse.

Lemma append_assoc (s1 s2 s3 : string) : (s1 +:+ s2) +:+ s3 = s1 +:+ (s2 +:+ s3).
Proof.
  induction s1 as [|c s1 IH]; [reflexivity|].
  change (String c ((s1 +:+ s2) +:+ s3) = String c (s1 +:+ (s2 +:+ s3))).
  rewrite IH. reflexivity.
Qed.

(** X15. The help message agrees with the parsers.  For either command
    its usage line lists, between brackets and in the order the parser
    declares them, exactly the arguments of the parser of that command
    (the variables by their name, the options by their option strings
    joined by '/'); for the plot type it names each value the parser
    accepts and the default the parser uses.  The message is added to what
    standard output holds already. *)
Theorem usage_lines_match_the_parsers :
  (forall c df,
     occurs (tab +:+ "usage: dist "
               +:+ match c with Univariate => "[U/univ]" | Bivariate => "[B/biv]" end
               +:+ " " +:+ usage_of (parser_of c df) +:+ newline)
            (help_of c (print_help EmptyString)) = true) /\
  (forall df a,
     a ∈ actions (show_biv_dist_parser df) -> dest a = Some "plot_type" ->
     (forall d, default a = Some (PStr d) ->
        occurs ("(default: '" +:+ d +:+ "')") (help_of Bivariate (print_help EmptyString)) = true) /\
     (forall cs t, choices a = Some cs -> t ∈ cs ->
        occurs ("'" +:+ t +:+ "'") (help_of Bivariate (print_help EmptyString)) = true)) /\
  (forall stdout, print_help stdout = stdout +:+ print_help EmptyString).
Proof.
  split; [|split].
  - intros [] df; vm_compute; reflexivity.
  - intros df a Ha Hdest. cbn in Ha.
    repeat (apply elem_of_cons in Ha as [->|Ha]);
      [.. | apply elem_of_nil in Ha; destruct Ha]; try discriminate Hdest.
    split.
    + intros d [= <-]. vm_compute. reflexivity.
    + intros cs t [= <-] Ht.
      apply elem_of_cons in Ht as [->|Ht]; [|apply list_elem_of_singleton in Ht as ->];
        vm_compute; reflexivity.
  - intros stdout. unfold print_help, print. cbn zeta.
    rewrite !append_assoc. reflexivity.
Qed.

End help_message.
(** ** Further properties: spellings of the options, frames of the grids *)

Section spellings.
Import argparse.

Local Abbreviation arguments := (map (fun v : string => (v, ClsA))).

(** A token that is read as the same option as [o'] can stand for it. *)
Lemma parse_option_spelling c df vars o o' os os' i a d rest :
  gives_variables c df vars ->
  String.eqb o "--" = false -> String.eqb o' "--" = false ->
  parse_optional (parser_of c df) o = Ok (Some (Some i, os, None)) ->
  parse_optional (parser_of c df) o' = Ok (Some (Some i, os', None)) ->
  actions (parser_of c df) !! i = Some a -> kind a = Store -> dest a = Some d ->
  nargs a = NargsOptional \/ nargs a = NargsZeroOrMore ->
  Forall (fun v => is_argument_string (parser_of c df) v = true) rest ->
  parse_args (parser_of c df) (vars ++ o :: rest)
    = parse_args (parser_of c df) (vars ++ o' :: rest).
Proof.
  intros Hvars Ho Ho' Hp Hp' Ha Hk Hd Hn Hrest.
  assert (Hsplit : exists args left,
            rest = args ++ left /\
            Forall (fun v => is_argument_string (parser_of c df) v = true) args /\
            Forall (fun v => is_argument_string (parser_of c df) v = true) left /\
            match_argument a (pattern (arguments args ++ arguments left)) = Ok (length args)).
  { destruct Hn as [Hn|Hn].
    - destruct rest as [|f left].
      + exists [], []. repeat split; try constructor.
        apply (takes_optional a [] [] Hn (Nat.le_0_l _) eq_refl).
      + apply Forall_cons in Hrest as [Hf Hleft]. exists [f], left.
        repeat split; [repeat constructor; exact Hf | exact Hleft|].
        unfold match_argument. rewrite Hn. reflexivity.
    - exists rest, []. rewrite app_nil_r. repeat split; [exact Hrest | constructor|].
      apply (takes_star a rest [] Hn eq_refl). }
  destruct Hsplit as (args & left & -> & Hargs & Hleft & Hm).
  rewrite (parse_one_option c df vars o os i a d args left Hvars Ho Hp Ha Hk Hd Hargs Hleft Hm).
  rewrite (parse_one_option c df vars o' os' i a d args left Hvars Ho' Hp' Ha Hk Hd Hargs Hleft Hm).
  reflexivity.
Qed.

Lemma spelling_of_option c df short long o :
  (short, long) ∈ [("-o", "--outfile"); ("-c", "--categoricals")] ->
  o ∈ short :: abbreviations long ->
  exists i a d os,
    String.eqb o "--" = false /\ String.eqb long "--" = false /\
    parse_optional (parser_of c df) o = Ok (Some (Some i, os, None)) /\
    parse_optional (parser_of c df) long = Ok (Some (Some i, long, None)) /\
    actions (parser_of c df) !! i = Some a /\ kind a = Store /\ dest a = Some d /\
    (nargs a = NargsOptional \/ nargs a = NargsZeroOrMore).
Proof.
  intros Hpair Ho.
  apply elem_of_cons in Hpair as [[= -> ->]|Hpair];
    [|apply list_elem_of_singleton in Hpair as [= -> ->]];
    cbn in Ho;
    repeat (apply elem_of_cons in Ho as [->|Ho]);
    try (apply elem_of_nil in Ho; destruct Ho);
    destruct c; eexists _, _, _, _;
    (split; [reflexivity|]); (split; [reflexivity|]); (split; [reflexivity|]);
    (split; [reflexivity|]); (split; [reflexivity|]); (split; [reflexivity|]);
    (split; [reflexivity|]); first [left; reflexivity | right; reflexivity].
Qed.

(** X17. For either command, an option can be spelled by its short form
    or by any abbreviation of its long form ('--o' to '--outfil' for
    [--outfile], '--c' to '--categorical' for [--categoricals]): after the
    variables, with any arguments behind it, the call is parsed and
    handled as the call that spells the option in full. *)
Theorem options_can_be_abbreviated c data vars short long o rest w df :
  heap w !! data = Some df ->
  gives_variables c df vars ->
  (short, long) ∈ [("-o", "--outfile"); ("-c", "--categoricals")] ->
  o ∈ short :: abbreviations long ->
  Forall (fun v => is_argument_string (parser_of c df) v = true) rest ->
  parse_args (parser_of c df) (vars ++ o :: rest)
    = parse_args (parser_of c df) (vars ++ long :: rest) /\
  handle c data (vars ++ o :: rest) w = handle c data (vars ++ long :: rest) w.
Proof.
  intros Hdf Hvars Hpair Ho Hrest.
  destruct (spelling_of_option c df short long o Hpair Ho)
    as (i & a & d & os & Hne & Hne' & Hp & Hp' & Ha & Hk & Hd & Hn).
  pose proof (parse_option_spelling c df vars o long os long i a d rest Hvars Hne Hne' Hp Hp'
                Ha Hk Hd Hn Hrest) as Hparse.
  split; [exact Hparse|].
  apply handle_same_parse. intros df' Hdf'. rewrite (same_frame _ _ _ _ Hdf Hdf'). exact Hparse.
Qed.

End spellings.

Section frames.

(** X16. The frame a grid is drawn from.  The bivariate builder always
    hands seaborn the caller's frame.  The univariate builder hands it the
    caller's frame for one categorical, and for two or more the copy whose
    index is the composite labels and whose columns no longer hold the
    categoricals; the caller's frame is still what [data] refers to. *)
Theorem grids_and_their_frames data var v1 v2 pt cs w df plot w' :
  heap w !! data = Some df ->
  (__plot_biv_dist_by_categoricals data v1 v2 pt cs w = (Returned plot, w') ->
   fig_data plot = df) /\
  (__plot_dist_by_categoricals data var cs w = (Returned plot, w') ->
   heap w' !! data = Some df /\
   (length cs <= 1 -> fig_data plot = df) /\
   (2 <= length cs ->
    exists labels,
      composite_labels df cs = Some labels /\
      fig_data plot = reindexed df cs labels /\
      index (fig_data plot) = str_labels labels /\
      columns (fig_data plot) = filter (fun c => c ∉ cs) (columns df) /\
      length (rows (fig_data plot)) = length (rows df))).
Proof.
  intros Hdf. split.
  - rewrite (plot_biv_dist_by_categoricals_spec _ _ _ _ _ _ _ Hdf). cbn zeta.
    destruct (Nat.ltb 1 (length cs)).
    + destruct (forallb _ cs); [|discriminate].
      destruct (composite_labels df cs); [|discriminate].
      destruct (_ && _); [|discriminate].
      destruct (kde_accepts _ _ _ _); [|discriminate]. intros [= <- _]. reflexivity.
    + destruct cs as [|c cs]; [discriminate|].
      destruct (_ && _); [|discriminate].
      destruct (kde_accepts _ _ _ _); [|discriminate]. intros [= <- _]. reflexivity.
  - rewrite (plot_dist_by_categoricals_spec _ _ _ _ _ Hdf). cbn zeta.
    destruct (Nat.ltb 1 (length cs)) eqn:Hlen.
    + apply Nat.ltb_lt in Hlen.
      destruct (forallb _ cs); [|discriminate].
      destruct (composite_labels df cs) as [labels|]; [|discriminate].
      destruct (_ && _); [|discriminate]. intros [= <- <-].
      split; [|split].
      * cbn [heap with_event with_heap].
        rewrite lookup_insert_ne by (eapply fresh_loc_ne; exact Hdf). exact Hdf.
      * intros Hle. lia.
      * intros _. exists labels. split; [reflexivity|]. split; [reflexivity|].
        split; [reflexivity|]. split.
        -- cbn [decorate suptitle subplots_adjust fig_data displot_figure reindexed columns
                set_index_frame].
           apply list_filter_iff. intros c. unfold in_list.
           rewrite bool_decide_eq_false. reflexivity.
        -- cbn [decorate suptitle subplots_adjust fig_data displot_figure reindexed rows
                set_index_frame].
           apply length_map.
    + apply Nat.ltb_ge in Hlen.
      destruct cs as [|c cs]; [discriminate|].
      destruct (_ && _); [|discriminate]. intros [= <- <-].
      split; [exact Hdf|]. split; [reflexivity|]. intros Hge. lia.
Qed.

End frames.

Section separator.
Import argparse.

Lemma get_values_after_separator a tok :
  nargs a = NargsNone ->
  get_values a ["--"; tok] = (_ ← check_value a (PStr tok); Ok (PStr tok)).
Proof. intros Hn. unfold get_values. cbn [remove_first String.eqb Ascii.eqb Bool.eqb]. rewrite Hn. reflexivity. Qed.

Lemma not_separator (s : string) : s <> "--" -> String.eqb "--" s = false.
Proof. intros H. apply String.eqb_neq. intros <-. apply H. reflexivity. Qed.

Lemma variables_ns_defaults c df vars :
  variables_ns c df vars !! "outfile" = Some (PStr "output.png") /\
  variables_ns c df vars !! "categoricals" = Some (PList []).
Proof.
  destruct c, vars as [|v1 [|v2 [|t [|]]]]; cbn [variables_ns];
    first [ destruct (uni_ns_lookup df v1) as (_ & H1 & H2); split; assumption
          | destruct (biv_ns_lookup df v1 v2 "heatmap") as (_ & _ & _ & H1 & H2);
            split; assumption
          | destruct (biv_ns_lookup df v1 v2 t) as (_ & _ & _ & H1 & H2); split; assumption
          | split; vm_compute; reflexivity ].
Qed.

Lemma parse_after_separator c df vars :
  names_variables c df vars ->
  parse_args (parser_of c df) ("--" :: vars) = Ok (variables_ns c df vars).
Proof.
  intros Hvars. unfold parse_args, parse_known_args.
  cbn [classify String.eqb Ascii.eqb Bool.eqb mbind result_bind].
  rewrite parse_loop_no_options by apply (no_options_arguments vars).
  cbn [mbind result_bind fst snd]. unfold consume_positionals. cbn [positionals].
  destruct c, vars as [|v1 [|v2 [|t [|]]]]; try contradiction; cbn [parser_of] in *.
  - replace (get_positional_actions (show_dist_parser df)) with [1] by reflexivity.
    replace (match_arguments_partial (show_dist_parser df) [1] _) with [2] by reflexivity.
    cbn [map fst slices take drop take_actions].
    erewrite take_action_store by reflexivity.
    rewrite get_values_after_separator by reflexivity.
    unfold check_value at 1. cbn [choices starts_with_dash get_action_name option_strings dest].
    rewrite (in_list_true _ _ Hvars). reflexivity.
  - destruct Hvars as (Hn1 & Hn2 & Hsep).
    replace (get_positional_actions (show_biv_dist_parser df)) with [1; 2; 3] by reflexivity.
    replace (match_arguments_partial (show_biv_dist_parser df) [1; 2; 3] _)
      with [2; 1; 0] by reflexivity.
    cbn [map fst slices take drop take_actions].
    erewrite take_action_store by reflexivity.
    rewrite get_values_after_separator by reflexivity.
    unfold check_value at 1. cbn [choices starts_with_dash get_action_name option_strings dest].
    rewrite (in_list_true _ _ Hn1). cbn [mbind result_bind].
    erewrite take_action_store by reflexivity.
    rewrite get_values_one by (first [apply not_separator; exact Hsep | left; reflexivity]).
    unfold check_value at 1. cbn [choices starts_with_dash get_action_name option_strings dest].
    rewrite (in_list_true _ _ Hn2). cbn [mbind result_bind].
    erewrite take_action_store by reflexivity.
    erewrite get_values_default by reflexivity.
    replace (check_value _ (PStr "heatmap")) with (Ok tt) by reflexivity.
    reflexivity.
  - destruct Hvars as (Hn1 & Hn2 & Hsep & Ht).
    assert (Htsep : String.eqb "--" t = false).
    { apply elem_of_cons in Ht as [->|Ht']; [reflexivity|].
      apply list_elem_of_singleton in Ht' as ->. reflexivity. }
    replace (get_positional_actions (show_biv_dist_parser df)) with [1; 2; 3] by reflexivity.
    replace (match_arguments_partial (show_biv_dist_parser df) [1; 2; 3] _)
      with [2; 1; 1] by reflexivity.
    cbn [map fst slices take drop take_actions].
    erewrite take_action_store by reflexivity.
    rewrite get_values_after_separator by reflexivity.
    unfold check_value at 1. cbn [choices starts_with_dash get_action_name option_strings dest].
    rewrite (in_list_true _ _ Hn1). cbn [mbind result_bind].
    erewrite take_action_store by reflexivity.
    rewrite get_values_one by (first [apply not_separator; exact Hsep | left; reflexivity]).
    unfold check_value at 1. cbn [choices starts_with_dash get_action_name option_strings dest].
    rewrite (in_list_true _ _ Hn2). cbn [mbind result_bind].
    erewrite take_action_store by reflexivity.
    rewrite get_values_one by (first [exact Htsep | right; reflexivity]).
    unfold check_value at 1. cbn [choices starts_with_dash get_action_name option_strings dest].
    rewrite (in_list_true _ _ Ht). reflexivity.
Qed.

(** X18. After the separator '--' every token is read as an argument, so
    the variables can be any numerical columns, also those whose name
    starts with a dash and would be taken for an option string otherwise:
    for either command, '--' followed by the variables is parsed to the
    namespace of these variables with the default output file and no
    categoricals, and the handler builds, saves and shows their plot. *)
Theorem separator_lets_any_name_through c data vars w df :
  heap w !! data = Some df ->
  names_variables c df vars ->
  check_valid_png (PStr "output.png") <> (-1)%Z ->
  parse_args (parser_of c df) ("--" :: vars) = Ok (variables_ns c df vars) /\
  handle c data ("--" :: vars) w
    = save_and_show (plot_of c data (variables_ns c df vars)) (PStr "output.png") w.
Proof.
  intros Hdf Hvars Hpng.
  pose proof (parse_after_separator _ _ _ Hvars) as Hparse.
  destruct (variables_ns_defaults c df vars) as [Hout Hcats].
  split; [exact Hparse|].
  apply (handle_parsed c data _ w df _ _ [] Hdf Hparse Hout Hpng Hcats).
Qed.

End separator.

Section options_first.
Import argparse.

Local Abbreviation arguments := (map (fun v : string => (v, ClsA))).

(** The positionals take the variables whatever was stored before. *)
Lemma consume_variables_later c df vars st :
  gives_variables c df vars ->
  positionals st = get_positional_actions (parser_of c df) ->
  consume_positionals (parser_of c df) st (arguments vars) =
  Ok ({| namespace := store_variables c vars (namespace st);
         seen_actions := seen_actions (parsed_variables c ∅) ++ seen_actions st;
         extras := extras st;
         positionals := [] |}, length vars).
Proof.
  intros [Hargs Hvars] Hpos.
  destruct c, vars as [|v1 [|v2 [|t [|]]]]; try contradiction; cbn [parser_of] in *.
  - apply Forall_cons in Hargs as [H1 _].
    apply is_argument_string_eqb in H1 as (_ & H1 & _).
    unfold consume_positionals. rewrite Hpos.
    replace (get_positional_actions (show_dist_parser df)) with [1] by reflexivity.
    replace (match_arguments_partial (show_dist_parser df) [1] _) with [1] by reflexivity.
    cbn [map app fst slices take drop take_actions].
    erewrite take_action_store by reflexivity.
    rewrite get_values_one by (first [exact H1 | left; reflexivity]).
    unfold check_value at 1. cbn [choices starts_with_dash get_action_name option_strings dest].
    rewrite (in_list_true _ _ Hvars). reflexivity.
  - apply Forall_cons in Hargs as [H1 Hargs]. apply Forall_cons in Hargs as [H2 _].
    apply is_argument_string_eqb in H1 as (_ & H1 & _).
    apply is_argument_string_eqb in H2 as (_ & H2 & _).
    destruct Hvars as [Hn1 Hn2].
    unfold consume_positionals. rewrite Hpos.
    replace (get_positional_actions (show_biv_dist_parser df)) with [1; 2; 3] by reflexivity.
    replace (match_arguments_partial (show_biv_dist_parser df) [1; 2; 3] _)
      with [1; 1; 0] by reflexivity.
    cbn [map app fst slices take drop take_actions].
    erewrite take_action_store by reflexivity.
    rewrite get_values_one by (first [exact H1 | left; reflexivity]).
    unfold check_value at 1. cbn [choices starts_with_dash get_action_name option_strings dest].
    rewrite (in_list_true _ _ Hn1). cbn [mbind result_bind].
    erewrite take_action_store by reflexivity.
    rewrite get_values_one by (first [exact H2 | left; reflexivity]).
    unfold check_value at 1. cbn [choices starts_with_dash get_action_name option_strings dest].
    rewrite (in_list_true _ _ Hn2). cbn [mbind result_bind].
    erewrite take_action_store by reflexivity.
    erewrite get_values_default by reflexivity.
    replace (check_value _ (PStr "heatmap")) with (Ok tt) by reflexivity.
    reflexivity.
  - apply Forall_cons in Hargs as [H1 Hargs]. apply Forall_cons in Hargs as [H2 Hargs].
    apply Forall_cons in Hargs as [H3 _].
    apply is_argument_string_eqb in H1 as (_ & H1 & _).
    apply is_argument_string_eqb in H2 as (_ & H2 & _).
    apply is_argument_string_eqb in H3 as (_ & H3 & _).
    destruct Hvars as (Hn1 & Hn2 & Ht).
    unfold consume_positionals. rewrite Hpos.
    replace (get_positional_actions (show_biv_dist_parser df)) with [1; 2; 3] by reflexivity.
    replace (match_arguments_partial (show_biv_dist_parser df) [1; 2; 3] _)
      with [1; 1; 1] by reflexivity.
    cbn [map app fst slices take drop take_actions].
    erewrite take_action_store by reflexivity.
    rewrite get_values_one by (first [exact H1 | left; reflexivity]).
    unfold check_value at 1. cbn [choices starts_with_dash get_action_name option_strings dest].
    rewrite (in_list_true _ _ Hn1). cbn [mbind result_bind].
    erewrite take_action_store by reflexivity.
    rewrite get_values_one by (first [exact H2 | left; reflexivity]).
    unfold check_value at 1. cbn [choices starts_with_dash get_action_name option_strings dest].
    rewrite (in_list_true _ _ Hn2). cbn [mbind result_bind].
    erewrite take_action_store by reflexivity.
    rewrite get_values_one by (first [exact H3 | right; reflexivity]).
    unfold check_value at 1. cbn [choices starts_with_dash get_action_name option_strings dest].
    rewrite (in_list_true _ _ Ht). reflexivity.
Qed.

Lemma store_variables_outfile c df vars x :
  store_variables c vars (<["outfile" := x]> (initial_namespace (parser_of c df)))
  = <["outfile" := x]> (variables_ns c df vars).
Proof.
  destruct c, vars as [|v1 [|v2 [|t [|]]]];
    cbn [store_variables variables_ns]; unfold uni_ns, biv_ns;
    first [ reflexivity
          | apply insert_insert_ne; discriminate
          | rewrite (insert_insert_ne _ "v1" "outfile") by discriminate;
            rewrite (insert_insert_ne _ "v2" "outfile") by discriminate;
            apply insert_insert_ne; discriminate ].
Qed.

(** X19. The output file can also be given before the variables: for
    either command, [-o f] (or [--outfile f]) followed by the variables is
    parsed and handled as the variables followed by [-o f].  (An option
    that takes any number of arguments cannot go first: see the property
    on [-c] before the variables.) *)
Theorem outfile_before_the_variables c data vars o f w df :
  heap w !! data = Some df ->
  gives_variables c df vars ->
  o ∈ ["-o"; "--outfile"] ->
  is_argument_string (parser_of c df) f = true ->
  parse_args (parser_of c df) (o :: f :: vars)
    = Ok (<["outfile" := PStr f]> (variables_ns c df vars)) /\
  parse_args (parser_of c df) (o :: f :: vars)
    = parse_args (parser_of c df) (vars ++ [o; f]) /\
  handle c data (o :: f :: vars) w = handle c data (vars ++ [o; f]) w.
Proof.
  intros Hdf Hvars Ho Hf.
  destruct (outfile_action c df o Ho)
    as (i & a & Hne & Hp & Ha & Hk & Hd & Hn & Hpos & Hconst & Hcs).
  assert (Hfs : Forall (fun v => is_argument_string (parser_of c df) v = true) [f])
    by (repeat constructor; exact Hf).
  assert (Hfirst : parse_args (parser_of c df) (o :: f :: vars)
                   = Ok (<["outfile" := PStr f]> (variables_ns c df vars))).
  { unfold parse_args, parse_known_args.
    rewrite (classify_option _ _ _ _ _ Hne Hp).
    rewrite classify_arguments by (constructor; [exact Hf | apply Hvars]).
    cbn [mbind result_bind].
    change (map (fun v : string => (v, ClsA)) (f :: vars))
      with (arguments [f] ++ arguments vars).
    rewrite (parse_loop_option_fuel _ _ _ _ _ _ _ _ _ _ (PStr f) Ha Hk Hd)
      by (first [ unfold match_argument; rewrite Hn; reflexivity
                | apply (get_values_outfile _ _ _ Hn Hcs Hf)
                | apply Nat.le_refl ]).
    rewrite parse_loop_no_options by apply no_options_arguments.
    cbn [mbind result_bind fst snd].
    rewrite (consume_variables_later _ _ _ _ Hvars) by reflexivity.
    cbn [mbind result_bind fst snd].
    replace (length vars) with (length (arguments vars)) by apply length_map.
    rewrite drop_all. cbn [map add_extras seen_actions extras namespace app
                           set_namespace add_seen].
    erewrite required_actions_more;
      [ | | apply (required_actions_variables c df ∅)].
    - cbn [fst snd mbind result_bind]. rewrite store_variables_outfile. reflexivity.
    - intros j Hj. apply elem_of_app. left. exact Hj. }
  assert (Hlast : parse_args (parser_of c df) (vars ++ [o; f])
                  = Ok (<["outfile" := PStr f]> (variables_ns c df vars))).
  { pose proof (parse_one_option c df vars o o i a _ [f] [] Hvars Hne Hp Ha Hk Hd
                  Hfs (Forall_nil_2 _) (takes_optional a [f] [] Hn (le_n 1) eq_refl)) as H.
    cbn [app] in H. rewrite H, (get_values_outfile _ _ _ Hn Hcs Hf). reflexivity. }
  split; [exact Hfirst|]. split; [rewrite Hfirst, Hlast; reflexivity|].
  apply handle_same_parse. intros df' Hdf'. rewrite (same_frame _ _ _ _ Hdf Hdf').
  rewrite Hfirst, Hlast. reflexivity.
Qed.

End options_first.

(** ** Claims about the figure a handler builds *)

Section figures.
Import argparse.

Ltac figure_of H :=
  cbn [fst snd log with_event with_heap] in H;
  first [ exfalso; apply (f_equal length) in H;
          repeat (rewrite length_app in H; cbn [length] in H); lia
        | rewrite <- ?app_assoc in H; apply app_inv_head in H;
          cbn [app] in H; injection H as <- _ ].

(** The figure a handler has built, if it has built one: its kind comes
    from the parsed plot type, its facet variable from the parsed
    categoricals. *)
Lemma handle_figure c data args w df ns raw rest :
  heap w !! data = Some df ->
  parse_args (parser_of c df) args = Ok ns ->
  log (snd (handle c data args w)) = log w ++ EvDisplot raw :: rest ->
  exists cs,
    ns !! "categoricals" = Some (PList cs) /\
    (forall pt, c = Bivariate -> ns !! "plot_type" = Some pt -> fig_kind raw = kind_of pt) /\
    match cs with
    | [] => fig_col raw = None
    | [x] => fig_col raw = Some (map LScalar (column_values df x))
    | _ => exists labels,
             composite_labels df cs = Some labels /\ fig_col raw = Some (str_labels labels)
    end.
Proof.
  intros Hdf Hns.
  destruct (parsed_names_valid _ _ _ _ Hns) as (_ & (cs & Hcs & Hcols) & (o & Ho) & _).
  pose proof (parsed_keys _ _ _ _ Hns) as Hkeys.
  destruct c; cbn [handle parser_of] in *.
  - destruct Hkeys as [var Hvar].
    rewrite show_dist_unfold, Hdf, Hns, Ho, Hcs, Hvar.
    destruct (Z.eqb (check_valid_png o) (-1)); [intros H; figure_of H|].
    rewrite save_and_show_spec.
    destruct (bool_decide (PList cs = PList [])) eqn:Hempty.
    + apply bool_decide_eq_true in Hempty. injection Hempty as ->.
      rewrite (plot_dist_spec _ _ _ _ Hdf).
      destruct (is_variable df var); [destruct o|]; intros H; figure_of H;
        (exists []; split; [reflexivity|]; split; [discriminate | reflexivity]).
    + apply bool_decide_eq_false in Hempty.
      unfold mbind at 1, M_bind at 1. cbn [expect_list mret M_ret].
      rewrite (plot_dist_by_categoricals_spec _ _ _ _ _ Hdf). cbn zeta.
      rewrite (forallb_columns _ _ Hcols).
      destruct (Nat.ltb 1 (length cs)) eqn:Hlen.
      * destruct cs as [|x [|y cs']]; try discriminate Hlen.
        destruct (composite_labels df (x :: y :: cs')) as [labels|] eqn:Hl;
          [destruct (_ && _); [destruct o|]|]; intros H; figure_of H;
          (exists (x :: y :: cs'); split; [reflexivity|]; split; [discriminate|];
           exists labels; split; [exact Hl | reflexivity]).
      * destruct cs as [|x [|y cs']]; [contradiction Hempty; reflexivity | | discriminate Hlen].
        destruct (_ && _); [destruct o|]; intros H; figure_of H;
          (exists [x]; split; [reflexivity|]; split; [discriminate | reflexivity]).
  - destruct Hkeys as ([v1 Hv1] & [v2 Hv2] & [pt Hpt]).
    rewrite show_biv_dist_unfold, Hdf, Hns, Ho, Hcs, Hv1, Hv2, Hpt.
    destruct (Z.eqb (check_valid_png o) (-1)); [intros H; figure_of H|].
    rewrite save_and_show_spec.
    destruct (bool_decide (PList cs = PList [])) eqn:Hempty.
    + apply bool_decide_eq_true in Hempty. injection Hempty as ->.
      rewrite (plot_biv_dist_spec _ _ _ _ _ _ Hdf).
      destruct (_ && _); [destruct (kde_accepts _ _ _ _); [destruct o|]|];
        intros H; figure_of H;
        (exists []; split; [reflexivity|]; split; [|reflexivity];
         intros pt' _ [= <-]; reflexivity).
    + apply bool_decide_eq_false in Hempty.
      unfold mbind at 1, M_bind at 1. cbn [expect_list mret M_ret].
      rewrite (plot_biv_dist_by_categoricals_spec _ _ _ _ _ _ _ Hdf). cbn zeta.
      rewrite (forallb_columns _ _ Hcols).
      destruct (Nat.ltb 1 (length cs)) eqn:Hlen.
      * destruct cs as [|x [|y cs']]; try discriminate Hlen.
        destruct (composite_labels df (x :: y :: cs')) as [labels|] eqn:Hl;
          [destruct (_ && _); [destruct (kde_accepts _ _ _ _); [destruct o|]|]|];
          intros H; figure_of H;
          (exists (x :: y :: cs'); split; [reflexivity|]; split;
           [intros pt' _ [= <-]; reflexivity|];
           exists labels; split; [exact Hl | reflexivity]).
      * destruct cs as [|x [|y cs']]; [contradiction Hempty; reflexivity | | discriminate Hlen].
        destruct (_ && _); [destruct (kde_accepts _ _ _ _); [destruct o|]|];
          intros H; figure_of H;
          (exists [x]; split; [reflexivity|]; split;
           [intros pt' _ [= <-]; reflexivity | reflexivity]).
Qed.

Lemma kind_of_gaussian pt : pt = PStr "gaussian" -> kind_of pt = "kde".
Proof. intros ->. reflexivity. Qed.

Lemma kind_of_other pt : pt <> PStr "gaussian" -> kind_of pt = "hist".
Proof. intros H. unfold kind_of. rewrite bool_decide_eq_false_2 by exact H. reflexivity. Qed.

Lemma given_plot_type df vars :
  gives_variables Bivariate df vars ->
  exists v1 v2,
    variables_ns Bivariate df vars = biv_ns df v1 v2 (nth 2 vars "heatmap") /\
    take 2 vars = [v1; v2] /\
    nth 2 vars "heatmap" ∈ ["heatmap"; "gaussian"].
Proof.
  intros [_ Hvars]. destruct vars as [|v1 [|v2 [|t [|]]]]; try contradiction.
  - exists v1, v2. repeat split. left.
  - exists v1, v2. repeat split. destruct Hvars as (_ & _ & Ht). exact Ht.
Qed.

(** C4. In the bivariate handler the parsed plot type decides the kind of
    the figure: whatever the tokens, a figure the handler builds (the single
    plot or the grid) has seaborn's kind 'kde' when the parsed plot type is
    'gaussian' and 'hist' otherwise, and the parsed plot type is never a
    name other than 'heatmap' and 'gaussian'.  A call that gives the two
    variables and no plot type is parsed with 'heatmap' and builds a 'hist'
    figure, a call that gives 'heatmap' or 'gaussian' as third argument is
    parsed with it and builds a 'hist' or a 'kde' figure, with or without
    a categorical after them (the variables being columns of numbers).  A
    token list in which the parser reads any other plot type is rejected as
    an invalid choice, with nothing plotted or written. *)
Theorem plot_type_selects_kind data w df :
  heap w !! data = Some df ->
  (forall args ns,
     parse_args (show_biv_dist_parser df) args = Ok ns ->
     exists pt,
       ns !! "plot_type" = Some pt /\
       (forall t, pt = PStr t -> t ∈ ["heatmap"; "gaussian"]) /\
       forall raw rest,
         log (snd (show_biv_dist data args w)) = log w ++ EvDisplot raw :: rest ->
         (pt = PStr "gaussian" /\ fig_kind raw = "kde") \/
         (pt <> PStr "gaussian" /\ fig_kind raw = "hist")) /\
  (forall vars cats,
     gives_variables Bivariate df vars ->
     Forall (fun v => v ∈ columns df /\ all_numbers df v) (take 2 vars) ->
     check_valid_png (PStr "output.png") <> (-1)%Z ->
     cats = [] \/
     (exists o x, cats = [o; x] /\ o ∈ ["-c"; "--categoricals"] /\
        is_argument_string (show_biv_dist_parser df) x = true /\
        x ∈ columns df /\ distinct_values df x <> []) ->
     exists ns raw rest w',
       parse_args (show_biv_dist_parser df) (vars ++ cats) = Ok ns /\
       ns !! "plot_type" = Some (PStr (nth 2 vars "heatmap")) /\
       show_biv_dist data (vars ++ cats) w = (Returned tt, w') /\
       log w' = log w ++ EvDisplot raw :: rest /\
       (nth 2 vars "heatmap" = "gaussian" -> fig_kind raw = "kde") /\
       (nth 2 vars "heatmap" = "heatmap" -> fig_kind raw = "hist")) /\
  (forall rounds args ns t,
     names_read (strip_choices (show_biv_dist_parser df)) rounds args = Ok ns ->
     ns !! "plot_type" = Some (PStr t) ->
     t <> "heatmap" -> t <> "gaussian" ->
     exists argument value,
       parse_args (show_biv_dist_parser df) args = Error (InvalidChoice argument value) /\
       show_biv_dist data args w
         = (Raised (SystemExit 2 (InvalidChoice argument value)), w)).
Proof.
  intros Hdf. split; [|split].
  - intros args ns Hns.
    destruct (parsed_keys Bivariate _ _ _ Hns) as (_ & _ & [pt Hpt]).
    destruct (parsed_names_valid Bivariate _ _ _ Hns) as (_ & _ & _ & Hvalid).
    exists pt. split; [exact Hpt|]. split; [intros t ->; apply Hvalid; exact Hpt|].
    intros raw rest Hlog.
    destruct (handle_figure Bivariate _ _ _ _ _ _ _ Hdf Hns Hlog) as (cs & _ & Hkind & _).
    rewrite (Hkind pt eq_refl Hpt).
    destruct (decide (pt = PStr "gaussian")) as [Hg|Hg].
    + left. split; [exact Hg | apply kind_of_gaussian; exact Hg].
    + right. split; [exact Hg | apply kind_of_other; exact Hg].
  - intros vars cats Hvars Hcols Hpng Hcats.
    destruct (given_plot_type df vars Hvars) as (v1 & v2 & Hns & Htake & Ht).
    rewrite Htake in Hcols. apply Forall_cons in Hcols as [[Hc1 Hn1] Hcols].
    apply Forall_cons in Hcols as [[Hc2 Hn2] _].
    set (t := nth 2 vars "heatmap") in *.
    assert (Hkde : kde_accepts df (Some (kind_of (PStr t))) (PStr v1) (Some (PStr v2)) = true)
      by (apply kde_accepts_kind_of; intros _; split; apply all_numbers_numeric; assumption).
    destruct (biv_ns_lookup df v1 v2 t) as (Hv1 & Hv2 & Hpt & Hout & Hempty).
    assert (Hkind : forall raw, fig_kind raw = kind_of (PStr t) ->
              (t = "gaussian" -> fig_kind raw = "kde") /\
              (t = "heatmap" -> fig_kind raw = "hist")).
    { intros raw ->. split; intros ->; reflexivity. }
    destruct Hcats as [->|(o & x & -> & Ho & Hx & Hcx & Hvals)].
    + rewrite app_nil_r.
      pose proof (parse_variables Bivariate df vars Hvars) as Hparse.
      cbn [parser_of] in Hparse. rewrite Hns in Hparse.
      eexists (biv_ns df v1 v2 t), _, _, _. split; [exact Hparse|]. split; [exact Hpt|].
      rewrite show_biv_dist_unfold, Hdf, Hparse, Hout, Hempty, Hv1, Hv2, Hpt,
        (check_passes _ Hpng).
      replace (bool_decide (PList [] = PList [])) with true by reflexivity.
      rewrite save_and_show_spec, (plot_biv_dist_spec _ _ _ _ _ _ Hdf).
      cbn [is_variable]. rewrite (in_list_true _ _ Hc1), (in_list_true _ _ Hc2).
      cbn zeta. cbn [andb]. rewrite Hkde.
      split; [reflexivity|]. split.
      { cbn [log with_event]. rewrite <- app_assoc. reflexivity. }
      apply Hkind. reflexivity.
    + destruct (categoricals_action Bivariate df o Ho)
        as (i & a & Hne & Hp & Ha & Hk & Hd & Hn & Hpos & Hcs).
      assert (Hargs : Forall (fun v => is_argument_string (parser_of Bivariate df) v = true) [x])
        by (repeat constructor; exact Hx).
      assert (Hparse : parse_args (show_biv_dist_parser df) (vars ++ [o; x])
                       = Ok (<["categoricals" := PList [x]]> (biv_ns df v1 v2 t))).
      { pose proof (parse_one_option Bivariate df vars o o i a _ [x] [] Hvars Hne Hp Ha Hk Hd
                      Hargs (Forall_nil_2 _) (takes_star a [x] [] Hn eq_refl)) as H.
        cbn [parser_of app] in H. rewrite H, Hns.
        rewrite (get_values_categoricals _ _ _ Hn Hpos Hargs _ Hcs)
          by (repeat constructor; exact Hcx).
        reflexivity. }
      eexists _, _, _, _. split; [exact Hparse|].
      split; [rewrite lookup_insert_ne by discriminate; exact Hpt|].
      rewrite show_biv_dist_unfold, Hdf, Hparse.
      rewrite lookup_insert_eq, !lookup_insert_ne by discriminate.
      rewrite Hout, Hv1, Hv2, Hpt, (check_passes _ Hpng).
      rewrite bool_decide_eq_false_2 by discriminate.
      rewrite save_and_show_spec. unfold mbind at 1, M_bind at 1. cbn [expect_list mret M_ret].
      rewrite (plot_biv_dist_by_categoricals_spec _ _ _ _ _ _ _ Hdf). cbn zeta.
      cbn [length Nat.ltb Nat.leb is_variable].
      rewrite (in_list_true _ _ Hc1), (in_list_true _ _ Hc2), (in_list_true _ _ Hcx),
        (has_levels_column _ _ Hvals).
      cbn [andb]. rewrite Hkde. split; [reflexivity|]. split.
      { cbn [log with_event]. rewrite <- app_assoc. reflexivity. }
      apply Hkind. reflexivity.
  - intros rounds args ns t Hread Ht Hh Hg.
    destruct (read_invalid_choice _ _ _ _ Hread) as (a & x & Hparse).
    + intros Hj. destruct (justified_names_valid Bivariate df _ Hj) as (_ & _ & Hpt).
      specialize (Hpt t Ht). apply elem_of_cons in Hpt as [->|Hpt]; [apply Hh; reflexivity|].
      apply list_elem_of_singleton in Hpt as ->. apply Hg. reflexivity.
    + exists a, x. split; [exact Hparse|].
      apply (handle_parse_error Bivariate _ _ _ _ _ Hdf Hparse).
Qed.

(** C9. In a call of either handler with two or more categoricals, the
    composite labels are, row by row, the values of the listed columns
    joined by '_': when every value of the listed columns is a string,
    whatever figure the handler builds is faceted on these labels, and the
    handler does build it, save it and show it under the default output
    name when the frame has a row and the variables name columns of numbers
    of the frame plotted.  When
    some value is not a string, the handler ends in a TypeError that it
    does not catch, without a plot, a file, or a change to the dataset; so
    a call that returns had strings in every listed column. *)
Theorem composite_labels_need_strings c data args w df ns cs outfile :
  heap w !! data = Some df ->
  parse_args (parser_of c df) args = Ok ns ->
  ns !! "categoricals" = Some (PList cs) ->
  2 <= length cs ->
  ns !! "outfile" = Some outfile ->
  check_valid_png outfile <> (-1)%Z ->
  (all_strings df cs ->
   exists labels,
     Forall2 (joined_row df cs) (rows df) labels /\
     (forall raw rest,
        log (snd (handle c data args w)) = log w ++ EvDisplot raw :: rest ->
        fig_col raw = Some (str_labels labels)) /\
     (rows df <> [] ->
      (forall d v, d ∈ variables_of c -> ns !! d = Some v ->
         exists x, v = PStr x /\ all_numbers df x /\
           x ∈ columns (match c with
                        | Univariate => set_index_frame df cs
                        | Bivariate => df
                        end)) ->
      outfile = PStr "output.png" ->
      exists raw plot w',
        handle c data args w = (Returned tt, w') /\
        log w' = log w ++ [EvDisplot raw; EvSavefig "output.png" plot;
                           EvOpen "output.png"; EvShow plot] /\
        fig_col raw = Some (str_labels labels))) /\
  (~ all_strings df cs ->
   exists w',
     handle c data args w = (Raised TypeError, w') /\
     files w' = files w /\ log w' = log w /\ heap w' !! data = Some df) /\
  (forall w', handle c data args w = (Returned tt, w') -> all_strings df cs).
Proof.
  intros Hdf Hns Hcats Hlen Hout Hpng.
  destruct (parsed_names_valid _ _ _ _ Hns) as (_ & (cs' & Hcs' & Hcols) & _).
  rewrite Hcats in Hcs'. injection Hcs' as <-.
  assert (Hneq : bool_decide (PList cs = PList []) = false).
  { apply bool_decide_eq_false. intros [= ->]. cbn in Hlen. lia. }
  pose proof (parsed_keys _ _ _ _ Hns) as Hkeys.
  assert (Hraises : ~ all_strings df cs ->
            exists w',
              handle c data args w = (Raised TypeError, w') /\
              files w' = files w /\ log w' = log w /\ heap w' !! data = Some df).
  { intros Hnot.
    assert (Hnone : composite_labels df cs = None).
    { destruct (composite_labels df cs) as [labels|] eqn:Hl; [|reflexivity].
      exfalso. apply Hnot. apply composite_labels_all_strings; [exact Hlen | eauto]. }
    eexists. destruct c; cbn [handle parser_of] in *.
    - destruct Hkeys as [var Hvar].
      rewrite show_dist_unfold, Hdf, Hns, Hout, (check_passes _ Hpng), Hcats, Hvar, Hneq.
      rewrite save_and_show_spec. unfold mbind at 1, M_bind at 1. cbn [expect_list mret M_ret].
      rewrite (plot_dist_by_categoricals_spec _ _ _ _ _ Hdf). cbn zeta.
      rewrite (ltb_1_length _ Hlen), (forallb_columns _ _ Hcols), Hnone.
      split; [reflexivity|]. cbn [files log heap with_heap].
      repeat split. rewrite lookup_insert_ne by (eapply fresh_loc_ne; exact Hdf). exact Hdf.
    - destruct Hkeys as ([v1 Hv1] & [v2 Hv2] & [pt Hpt]).
      rewrite show_biv_dist_unfold, Hdf, Hns, Hout, (check_passes _ Hpng), Hcats,
        Hv1, Hv2, Hpt, Hneq.
      rewrite save_and_show_spec. unfold mbind at 1, M_bind at 1. cbn [expect_list mret M_ret].
      rewrite (plot_biv_dist_by_categoricals_spec _ _ _ _ _ _ _ Hdf). cbn zeta.
      rewrite (ltb_1_length _ Hlen), (forallb_columns _ _ Hcols), Hnone.
      split; [reflexivity|]. cbn [files log heap with_heap].
      repeat split. rewrite lookup_insert_ne by (eapply fresh_loc_ne; exact Hdf). exact Hdf. }
  split; [|split; [exact Hraises|]].
  - intros Hstr.
    destruct (proj2 (composite_labels_all_strings df cs Hlen) Hstr) as [labels Hl].
    exists labels. split; [apply composite_labels_rows; assumption|]. split.
    + intros raw rest Hlog.
      destruct (handle_figure _ _ _ _ _ _ _ _ Hdf Hns Hlog) as (cs' & Hcs' & _ & Hfacet).
      rewrite Hcats in Hcs'. injection Hcs' as <-.
      destruct cs as [|x [|y cs']]; cbn in Hlen; try lia.
      destruct Hfacet as (labels' & Hl' & Hcol). rewrite Hl in Hl'. injection Hl' as <-.
      exact Hcol.
    + intros Hrows Hvars ->.
      pose proof (has_levels_str_labels _ (composite_labels_nonempty _ _ _ Hl Hrows)) as Hlev.
      destruct c; cbn [handle parser_of] in *.
      * destruct Hkeys as [var Hvar].
        destruct (Hvars "var" var) as (x & -> & _ & Hx); [left | exact Hvar|].
        rewrite show_dist_unfold, Hdf, Hns, Hout, (check_passes _ Hpng), Hcats, Hvar, Hneq.
        rewrite save_and_show_spec. unfold mbind at 1, M_bind at 1.
        cbn [expect_list mret M_ret].
        rewrite (plot_dist_by_categoricals_spec _ _ _ _ _ Hdf). cbn zeta.
        rewrite (ltb_1_length _ Hlen), (forallb_columns _ _ Hcols), Hl, Hlev.
        cbn [is_variable reindexed columns]. rewrite (in_list_true _ _ Hx). cbn [andb].
        eexists _, _, _. split; [reflexivity|].
        split; [cbn [log with_event with_heap]; rewrite <- app_assoc; reflexivity|].
        reflexivity.
      * destruct Hkeys as ([v1 Hv1] & [v2 Hv2] & [pt Hpt]).
        destruct (Hvars "v1" v1) as (x1 & -> & Hn1 & Hx1); [left | exact Hv1|].
        destruct (Hvars "v2" v2) as (x2 & -> & Hn2 & Hx2); [right; left | exact Hv2|].
        rewrite show_biv_dist_unfold, Hdf, Hns, Hout, (check_passes _ Hpng), Hcats,
          Hv1, Hv2, Hpt, Hneq.
        rewrite save_and_show_spec. unfold mbind at 1, M_bind at 1.
        cbn [expect_list mret M_ret].
        rewrite (plot_biv_dist_by_categoricals_spec _ _ _ _ _ _ _ Hdf). cbn zeta.
        rewrite (ltb_1_length _ Hlen), (forallb_columns _ _ Hcols), Hl, Hlev.
        cbn [is_variable]. rewrite (in_list_true _ _ Hx1), (in_list_true _ _ Hx2). cbn [andb].
        rewrite (kde_accepts_kind_of df pt (PStr x1) (PStr x2))
          by (intros _; split; apply all_numbers_numeric; assumption).
        eexists _, _, _. split; [reflexivity|].
        split; [cbn [log with_event with_heap]; rewrite <- app_assoc; reflexivity|].
        reflexivity.
  - intros w' Hret.
    apply composite_labels_all_strings; [exact Hlen|].
    destruct (composite_labels df cs) as [labels|] eqn:Hl; [eauto|].
    exfalso. destruct Hraises as (w1 & Hw1 & _); [|rewrite Hw1 in Hret; discriminate Hret].
    intros Hstr. apply composite_labels_all_strings in Hstr as [labels Hl']; [|exact Hlen].
    rewrite Hl in Hl'. discriminate Hl'.
Qed.

End figures.
End dist.

(** * The statements on the sample frame *)

Ltac decide_by_computation :=
  first [ apply (bool_decide_unpack _); vm_compute; exact I
        | let H := fresh in let H' := fresh in
          intros H; pose proof (bool_decide_pack _ H) as H'; vm_compute in H'; exact H' ].


Lemma pair_fst_eq {A B} (r : A * B) (a : A) : fst r = a -> r = (a, snd r).
Proof. intros <-. destruct r; reflexivity. Qed.

Lemma invalid_extension_returns_early_witness :
  handle sample_get_numericals sample_check_valid_png Bivariate data0
    ["bill"; "mass"; "-o"; "plot.txt"] world0 = (Returned tt, world0).
Proof.
  apply (invalid_extension_returns_early sample_get_numericals sample_check_valid_png
           Bivariate data0 ["bill"; "mass"; "-o"; "plot.txt"] world0 penguins
           (argparse.from_Ok ∅
              (argparse.parse_args (parser_of sample_get_numericals Bivariate penguins)
                 ["bill"; "mass"; "-o"; "plot.txt"]))
           (PStr "plot.txt")).
  - reflexivity.
  - apply from_Ok_eq. vm_compute. reflexivity.
  - vm_compute. reflexivity.
  - vm_compute. reflexivity.
Defined.

Lemma invalid_names_rejected_witness :
  exists argument value,
    argparse.parse_args (parser_of sample_get_numericals Univariate penguins)
      ["species"; "extra"]
      = argparse.Error (argparse.InvalidChoice argument value) /\
    handle sample_get_numericals sample_check_valid_png Univariate data0
      ["species"; "extra"] world0
      = (Raised (SystemExit 2 (argparse.InvalidChoice argument value)), world0).
Proof.
  destruct (invalid_names_rejected sample_get_numericals sample_check_valid_png
              Univariate data0 ["species"; "extra"] world0 penguins eq_refl) as [Hrejects _].
  apply (Hrejects 0
           (argparse.from_Ok ∅
              (names_read
                 (argparse.strip_choices (parser_of sample_get_numericals Univariate penguins))
                 0 ["species"; "extra"]))).
  - apply from_Ok_eq. vm_compute. reflexivity.
  - left. exists "var", "species". split; [left|]. split; [vm_compute; reflexivity|].
    decide_by_computation.
Defined.

(** C3, as stated, fails when something ends the parse before the name is
    read.  The token list [-h species] gives the univariate command a
    variable that is not a numerical column, and the parser does not reject
    it as an invalid choice: it prints the help and exits with status 0
    (without the help option the same name is rejected as an invalid
    choice).  The token list [bill --=x -c nope] gives a categorical that
    is not a column, and the parser stops on the option string '--=x',
    which it cannot resolve, before it reads any name. *)
Lemma invalid_names_rejected_counterexample :
  ~ "species" ∈ sample_get_numericals penguins /\
  ~ "nope" ∈ columns penguins /\
  argparse.parse_args (show_dist_parser sample_get_numericals penguins)
    ["bill"; "--=x"; "-c"; "nope"]
    = argparse.Error (argparse.AmbiguousOption "--=x" ["--help"; "--outfile"; "--categoricals"]) /\
  show_dist sample_get_numericals sample_check_valid_png data0
    ["bill"; "--=x"; "-c"; "nope"] world0
    = (Raised (SystemExit 2 (argparse.AmbiguousOption "--=x"
                               ["--help"; "--outfile"; "--categoricals"])), world0) /\
  argparse.parse_args (show_dist_parser sample_get_numericals penguins) ["-h"; "species"]
    = argparse.Error argparse.HelpRequested /\
  show_dist sample_get_numericals sample_check_valid_png data0 ["-h"; "species"] world0
    = (Raised (SystemExit 0 argparse.HelpRequested), world0) /\
  (forall argument value,
     argparse.parse_args (show_dist_parser sample_get_numericals penguins)
       ["-h"; "species"]
     <> argparse.Error (argparse.InvalidChoice argument value)) /\
  argparse.parse_args (show_dist_parser sample_get_numericals penguins) ["species"]
    = argparse.Error (argparse.InvalidChoice "var" (PStr "species")).
Proof.
  split; [decide_by_computation|]. split; [decide_by_computation|].
  split; [vm_compute; reflexivity|]. split; [vm_compute; reflexivity|].
  assert (Hhelp : argparse.parse_args (show_dist_parser sample_get_numericals penguins)
                    ["-h"; "species"] = argparse.Error argparse.HelpRequested)
    by (vm_compute; reflexivity).
  split; [exact Hhelp|]. split; [vm_compute; reflexivity|].
  split; [|vm_compute; reflexivity].
  intros argument value H. rewrite Hhelp in H. discriminate H.
Qed.

Lemma plot_type_selects_kind_witness :
  (exists ns raw rest w',
     argparse.parse_args (show_biv_dist_parser sample_get_numericals penguins)
       (["bill"; "mass"; "gaussian"] ++ ["-c"; "species"]) = argparse.Ok ns /\
     ns !! "plot_type" = Some (PStr "gaussian") /\
     show_biv_dist sample_get_numericals sample_check_valid_png data0
       (["bill"; "mass"; "gaussian"] ++ ["-c"; "species"]) world0 = (Returned tt, w') /\
     log w' = log world0 ++ EvDisplot raw :: rest /\
     fig_kind raw = "kde") /\
  (exists argument value,
     argparse.parse_args (show_biv_dist_parser sample_get_numericals penguins)
       ["bill"; "mass"; "contour"]
     = argparse.Error (argparse.InvalidChoice argument value) /\
     show_biv_dist sample_get_numericals sample_check_valid_png data0
       ["bill"; "mass"; "contour"] world0
     = (Raised (SystemExit 2 (argparse.InvalidChoice argument value)), world0)).
Proof.
  destruct (plot_type_selects_kind sample_get_numericals sample_check_valid_png
              data0 world0 penguins eq_refl) as (_ & Hgiven & Hreject).
  split.
  - destruct (Hgiven ["bill"; "mass"; "gaussian"] ["-c"; "species"])
      as (ns & raw & rest & w' & Hparse & Hpt & Hrun & Hlog & Hkde & _).
    + split; [ repeat constructor; vm_compute; reflexivity
             | repeat split; decide_by_computation ].
    + repeat constructor;
        first [decide_by_computation | apply all_numbers_check; vm_compute; reflexivity].
    + vm_compute. discriminate.
    + right. exists "-c", "species". split; [reflexivity|]. split; [left|].
      split; [vm_compute; reflexivity|]. split; [decide_by_computation|].
      vm_compute. discriminate.
    + exists ns, raw, rest, w'. split; [exact Hparse|]. split; [exact Hpt|].
      split; [exact Hrun|]. split; [exact Hlog|]. apply Hkde. reflexivity.
  - apply (Hreject 0 ["bill"; "mass"; "contour"]
             (argparse.from_Ok ∅
                (names_read
                   (argparse.strip_choices (show_biv_dist_parser sample_get_numericals penguins))
                   0 ["bill"; "mass"; "contour"]))
             "contour").
    + apply from_Ok_eq. vm_compute. reflexivity.
    + vm_compute. reflexivity.
    + discriminate.
    + discriminate.
Defined.

Lemma facet_grid_by_categoricals_witness :
  exists plot w',
    __plot_biv_dist_by_categoricals data0 (PStr "bill") (PStr "mass") (PStr "gaussian")
      ["species"; "sex"] world0 = (Returned plot, w') /\
    fig_col_wrap plot = Some 3 /\
    1 <= subplots plot /\
    exists labels,
      composite_labels penguins ["species"; "sex"] = Some labels /\
      Forall2 (joined_row penguins ["species"; "sex"]) (rows penguins) labels /\
      subplots plot = length (remove_dups labels).
Proof.
  destruct (facet_grid_by_categoricals data0 (PStr "bill") (PStr "bill") (PStr "mass")
              (PStr "gaussian") ["species"; "sex"] world0 penguins eq_refl)
    as [Hgrid Hreturns]; [discriminate|].
  destruct Hreturns as [Hbiv _].
  - repeat constructor; decide_by_computation.
  - right. split; [cbn; lia|]. split; [|discriminate].
    apply composite_labels_all_strings; [cbn; lia|]. vm_compute. eauto.
  - destruct (Hbiv "bill" "mass" eq_refl eq_refl) as (plot & w' & Hrun);
      [decide_by_computation | decide_by_computation
      | apply all_numbers_check; vm_compute; reflexivity
      | apply all_numbers_check; vm_compute; reflexivity|].
    exists plot, w'. split; [exact Hrun|].
    destruct (Hgrid plot w' (or_intror Hrun)) as (Hwrap & Hone & _ & Hmany).
    split; [exact Hwrap|]. split; [exact Hone|]. apply Hmany. cbn. lia.
Defined.

Lemma default_output_file_witness :
  exists ns plot w',
    argparse.parse_args (show_dist_parser sample_get_numericals penguins) ["bill"]
      = argparse.Ok ns /\
    ns !! "outfile" = Some (PStr "output.png") /\
    ns !! "var" = Some (PStr "bill") /\
    ns !! "categoricals" = Some (PList []) /\
    show_dist sample_get_numericals sample_check_valid_png data0 ["bill"] world0
      = (Returned tt, w') /\
    files w' !! "output.png" = Some plot /\
    fig_x plot = PStr "bill" /\ fig_col plot = None.
Proof.
  apply (default_output_file sample_get_numericals sample_check_valid_png data0 world0
           penguins "bill").
  - reflexivity.
  - apply (bool_decide_unpack _). vm_compute. exact I.
  - apply (bool_decide_unpack _). vm_compute. exact I.
  - vm_compute. reflexivity.
  - vm_compute. discriminate.
Defined.

(** C6, as stated, fails for a numerical column whose name starts with a
    dash: argparse reads the name as an option string, finds no variable,
    and the handler ends in a usage error without writing 'output.png'. *)
Lemma default_output_file_counterexample :
  "-dG" ∈ sample_get_numericals penguins /\
  "-dG" ∈ columns penguins /\
  sample_check_valid_png (PStr "output.png") <> (-1)%Z /\
  argparse.parse_args (show_dist_parser sample_get_numericals penguins) ["-dG"]
    = argparse.Error (argparse.RequiredMissing ["var"]) /\
  show_dist sample_get_numericals sample_check_valid_png data0 ["-dG"] world0
    = (Raised (SystemExit 2 (argparse.RequiredMissing ["var"])), world0) /\
  files world0 !! "output.png" = None.
Proof.
  split; [apply (bool_decide_unpack _); vm_compute; exact I|].
  split; [apply (bool_decide_unpack _); vm_compute; exact I|].
  split; [vm_compute; discriminate|].
  split; [vm_compute; reflexivity|].
  split; vm_compute; reflexivity.
Qed.

Lemma same_variable_twice_witness :
  exists ns raw w',
    argparse.parse_args (show_biv_dist_parser sample_get_numericals penguins)
      ["mass"; "mass"] = argparse.Ok ns /\
    ns !! "v1" = Some (PStr "mass") /\ ns !! "v2" = Some (PStr "mass") /\
    show_biv_dist sample_get_numericals sample_check_valid_png data0 ["mass"; "mass"] world0
      = (Returned tt, w') /\
    EvDisplot raw ∈ log w' /\
    fig_x raw = PStr "mass" /\ fig_y raw = Some (PStr "mass") /\ fig_kind raw = "hist".
Proof.
  apply (same_variable_twice sample_get_numericals sample_check_valid_png data0 world0
           penguins "mass").
  - reflexivity.
  - apply (bool_decide_unpack _). vm_compute. exact I.
  - apply (bool_decide_unpack _). vm_compute. exact I.
  - vm_compute. reflexivity.
  - vm_compute. discriminate.
Defined.

(** C10, as stated, fails for a numerical column whose name starts with a
    dash: [v, v] is read as two option strings and the call is rejected
    for want of v1 and v2. *)
Lemma same_variable_twice_counterexample :
  "-dG" ∈ sample_get_numericals penguins /\
  "-dG" ∈ columns penguins /\
  argparse.parse_args (show_biv_dist_parser sample_get_numericals penguins) ["-dG"; "-dG"]
    = argparse.Error (argparse.RequiredMissing ["v1"; "v2"]) /\
  show_biv_dist sample_get_numericals sample_check_valid_png data0 ["-dG"; "-dG"] world0
    = (Raised (SystemExit 2 (argparse.RequiredMissing ["v1"; "v2"])), world0).
Proof.
  split; [apply (bool_decide_unpack _); vm_compute; exact I|].
  split; [apply (bool_decide_unpack _); vm_compute; exact I|].
  split; vm_compute; reflexivity.
Qed.

Lemma saved_then_shown_witness :
  exists df ns outfile,
    heap world0 !! data0 = Some df /\
    argparse.parse_args (parser_of sample_get_numericals Univariate df)
      ["bill"; "-c"; "species"] = argparse.Ok ns /\
    ns !! "outfile" = Some outfile /\
    ((sample_check_valid_png outfile = (-1)%Z /\
      snd (handle sample_get_numericals sample_check_valid_png Univariate data0
             ["bill"; "-c"; "species"] world0) = world0) \/
     (sample_check_valid_png outfile <> (-1)%Z /\
      exists raw plot path,
        outfile = PStr path /\
        log (snd (handle sample_get_numericals sample_check_valid_png Univariate data0
                    ["bill"; "-c"; "species"] world0))
          = log world0 ++ [EvDisplot raw; EvSavefig path plot; EvOpen path; EvShow plot] /\
        files (snd (handle sample_get_numericals sample_check_valid_png Univariate data0
                      ["bill"; "-c"; "species"] world0)) !! path = Some plot)).
Proof.
  apply (saved_then_shown sample_get_numericals sample_check_valid_png Univariate data0
           ["bill"; "-c"; "species"] world0).
  apply pair_fst_eq. vm_compute. reflexivity.
Defined.

Lemma composite_labels_need_strings_witness :
  (exists w',
     handle sample_get_numericals sample_check_valid_png Bivariate data0
       ["bill"; "mass"; "-c"; "species"; "year"] world0 = (Raised TypeError, w') /\
     files w' = files world0 /\ log w' = log world0 /\ heap w' !! data0 = Some penguins) /\
  (exists labels raw plot w',
     Forall2 (joined_row penguins ["species"; "sex"]) (rows penguins) labels /\
     handle sample_get_numericals sample_check_valid_png Univariate data0
       ["bill"; "-c"; "species"; "sex"] world0 = (Returned tt, w') /\
     log w' = log world0 ++ [EvDisplot raw; EvSavefig "output.png" plot;
                             EvOpen "output.png"; EvShow plot] /\
     fig_col raw = Some (str_labels labels)).
Proof.
  split.
  - destruct (composite_labels_need_strings sample_get_numericals sample_check_valid_png
                Bivariate data0 ["bill"; "mass"; "-c"; "species"; "year"] world0 penguins
                (argparse.from_Ok ∅
                   (argparse.parse_args (parser_of sample_get_numericals Bivariate penguins)
                      ["bill"; "mass"; "-c"; "species"; "year"]))
                ["species"; "year"] (PStr "output.png")) as (_ & Hraises & _).
    + reflexivity.
    + apply from_Ok_eq. vm_compute. reflexivity.
    + vm_compute. reflexivity.
    + cbn. lia.
    + vm_compute. reflexivity.
    + vm_compute. discriminate.
    + apply Hraises. intros Hall.
      destruct (Hall "year" ltac:(right; left) (SInt 2007)) as [s Hs]; [|discriminate Hs].
      apply (bool_decide_unpack _). vm_compute. exact I.
  - destruct (composite_labels_need_strings sample_get_numericals sample_check_valid_png
                Univariate data0 ["bill"; "-c"; "species"; "sex"] world0 penguins
                (argparse.from_Ok ∅
                   (argparse.parse_args (parser_of sample_get_numericals Univariate penguins)
                      ["bill"; "-c"; "species"; "sex"]))
                ["species"; "sex"] (PStr "output.png")) as (Hjoined & _ & _).
    + reflexivity.
    + apply from_Ok_eq. vm_compute. reflexivity.
    + vm_compute. reflexivity.
    + cbn. lia.
    + vm_compute. reflexivity.
    + vm_compute. discriminate.
    + destruct Hjoined as (labels & Hrows & _ & Hruns).
      { apply composite_labels_all_strings; [cbn; lia|]. vm_compute. eauto. }
      destruct (Hruns ltac:(discriminate)) as (raw & plot & w' & Hrun & Hlog & Hcol).
      * intros d v Hd Hv. apply list_elem_of_singleton in Hd as ->.
        vm_compute in Hv. injection Hv as <-.
        exists "bill". split; [reflexivity|].
        split; [apply all_numbers_check; vm_compute; reflexivity|].
        decide_by_computation.
      * reflexivity.
      * exists labels, raw, plot, w'. repeat split; assumption.
Defined.

(** * The further properties on the sample frame *)

Ltac sample_variables :=
  split; [ repeat constructor; vm_compute; reflexivity
         | repeat split; decide_by_computation ].

Ltac sample_arguments := repeat constructor; first [ vm_compute; reflexivity | decide_by_computation ].

Lemma help_option_exits_first_witness :
  handle sample_get_numericals sample_check_valid_png Univariate data0
    ["--help"; "beak"; "-c"; "nope"] world0
  = (Raised (SystemExit 0 argparse.HelpRequested), world0).
Proof.
  exact (help_option_exits_first sample_get_numericals sample_check_valid_png Univariate
           data0 "--help" ["beak"; "-c"; "nope"] world0 penguins eq_refl
           ltac:(right; left)).
Defined.

Lemma missing_variables_rejected_witness :
  handle sample_get_numericals sample_check_valid_png Univariate data0 [] world0
    = (Raised (SystemExit 2 (argparse.RequiredMissing ["var"])), world0) /\
  show_biv_dist sample_get_numericals sample_check_valid_png data0 ["bill"] world0
    = (Raised (SystemExit 2 (argparse.RequiredMissing ["v2"])), world0).
Proof.
  split.
  - apply (missing_variables_rejected sample_get_numericals sample_check_valid_png
             Univariate data0 world0 penguins eq_refl).
  - apply (missing_variables_rejected sample_get_numericals sample_check_valid_png
             Bivariate data0 world0 penguins eq_refl).
    + vm_compute. reflexivity.
    + decide_by_computation.
Defined.

Lemma categoricals_before_the_variables_witness :
  argparse.parse_args (parser_of sample_get_numericals Univariate penguins)
    ["-c"; "species"; "bill"] = argparse.Error (argparse.RequiredMissing ["var"]) /\
  handle sample_get_numericals sample_check_valid_png Univariate data0
    ["-c"; "species"; "bill"] world0
    = (Raised (SystemExit 2 (argparse.RequiredMissing ["var"])), world0).
Proof.
  apply (categoricals_before_the_variables sample_get_numericals sample_check_valid_png
           Univariate data0 "-c" ["species"; "bill"] world0 penguins eq_refl).
  - left.
  - sample_arguments.
  - sample_arguments.
Defined.

Lemma surplus_arguments_rejected_witness :
  argparse.parse_args (parser_of sample_get_numericals Bivariate penguins)
    (["bill"; "mass"; "gaussian"] ++ ["species"])
    = argparse.Error (argparse.UnrecognizedArguments ["species"]) /\
  handle sample_get_numericals sample_check_valid_png Bivariate data0
    (["bill"; "mass"; "gaussian"] ++ ["species"]) world0
    = (Raised (SystemExit 2 (argparse.UnrecognizedArguments ["species"])), world0).
Proof.
  apply (surplus_arguments_rejected sample_get_numericals sample_check_valid_png
           Bivariate data0 ["bill"; "mass"; "gaussian"] ["species"] world0 penguins eq_refl).
  - sample_variables.
  - reflexivity.
  - discriminate.
  - sample_arguments.
Defined.

Lemma plot_type_goes_before_the_options_witness :
  argparse.parse_args (show_biv_dist_parser sample_get_numericals penguins)
    ["bill"; "mass"; "gaussian"; "-o"; "joint.png"]
    = argparse.Ok (<["outfile" := PStr "joint.png"]>
                     (biv_ns sample_get_numericals penguins "bill" "mass" "gaussian")) /\
  argparse.parse_args (show_biv_dist_parser sample_get_numericals penguins)
    ["bill"; "mass"; "-o"; "joint.png"; "gaussian"]
    = argparse.Error (argparse.UnrecognizedArguments ["gaussian"]) /\
  show_biv_dist sample_get_numericals sample_check_valid_png data0
    ["bill"; "mass"; "-o"; "joint.png"; "gaussian"] world0
    = (Raised (SystemExit 2 (argparse.UnrecognizedArguments ["gaussian"])), world0).
Proof.
  apply (plot_type_goes_before_the_options sample_get_numericals sample_check_valid_png
           data0 "bill" "mass" "gaussian" "-o" "joint.png" world0 penguins eq_refl).
  - sample_variables.
  - left.
  - vm_compute. reflexivity.
Defined.

Lemma bare_categoricals_same_as_none_witness :
  argparse.parse_args (parser_of sample_get_numericals Bivariate penguins)
    (["bill"; "mass"] ++ ["-c"])
    = argparse.parse_args (parser_of sample_get_numericals Bivariate penguins) ["bill"; "mass"] /\
  argparse.parse_args (parser_of sample_get_numericals Bivariate penguins) ["bill"; "mass"]
    = argparse.Ok (variables_ns sample_get_numericals Bivariate penguins ["bill"; "mass"]) /\
  handle sample_get_numericals sample_check_valid_png Bivariate data0
    (["bill"; "mass"] ++ ["-c"]) world0
    = handle sample_get_numericals sample_check_valid_png Bivariate data0
        ["bill"; "mass"] world0.
Proof.
  apply (bare_categoricals_same_as_none sample_get_numericals sample_check_valid_png
           Bivariate data0 ["bill"; "mass"] "-c" world0 penguins eq_refl).
  - sample_variables.
  - left.
Defined.

Lemma bare_outfile_is_none_witness :
  argparse.parse_args (parser_of sample_get_numericals Univariate penguins) (["bill"] ++ ["-o"])
    = argparse.Ok (<["outfile" := PNone]>
                     (variables_ns sample_get_numericals Univariate penguins ["bill"])) /\
  variables_ns sample_get_numericals Univariate penguins ["bill"] !! "outfile"
    = Some (PStr "output.png") /\
  (sample_check_valid_png PNone = (-1)%Z ->
   handle sample_get_numericals sample_check_valid_png Univariate data0
     (["bill"] ++ ["-o"]) world0 = (Returned tt, world0)).
Proof.
  apply (bare_outfile_is_none sample_get_numericals sample_check_valid_png
           Univariate data0 ["bill"] "-o" world0 penguins eq_refl).
  - sample_variables.
  - left.
Defined.

Lemma outfile_option_names_the_file_witness :
  argparse.parse_args (parser_of sample_get_numericals Univariate penguins)
    (["bill"] ++ ["--outfile"; "bill.png"])
    = argparse.Ok (<["outfile" := PStr "bill.png"]>
                     (variables_ns sample_get_numericals Univariate penguins ["bill"])) /\
  handle sample_get_numericals sample_check_valid_png Univariate data0 ["bill"] world0
    = save_and_show
        (plot_of Univariate data0
           (variables_ns sample_get_numericals Univariate penguins ["bill"]))
        (PStr "output.png") world0 /\
  handle sample_get_numericals sample_check_valid_png Univariate data0
    (["bill"] ++ ["--outfile"; "bill.png"]) world0
    = save_and_show
        (plot_of Univariate data0
           (variables_ns sample_get_numericals Univariate penguins ["bill"]))
        (PStr "bill.png") world0.
Proof.
  apply (outfile_option_names_the_file sample_get_numericals sample_check_valid_png
           Univariate data0 ["bill"] "--outfile" "bill.png" world0 penguins eq_refl).
  - sample_variables.
  - right. left.
  - vm_compute. reflexivity.
  - vm_compute. discriminate.
  - vm_compute. discriminate.
Defined.

Lemma categoricals_reach_the_builder_witness :
  argparse.parse_args (parser_of sample_get_numericals Univariate penguins)
    (["bill"] ++ "-c" :: ["species"; "sex"])
    = argparse.Ok (<["categoricals" := PList ["species"; "sex"]]>
                     (variables_ns sample_get_numericals Univariate penguins ["bill"])) /\
  handle sample_get_numericals sample_check_valid_png Univariate data0
    (["bill"] ++ "-c" :: ["species"; "sex"]) world0
    = save_and_show
        (grid_of Univariate data0
           (variables_ns sample_get_numericals Univariate penguins ["bill"])
           ["species"; "sex"])
        (PStr "output.png") world0.
Proof.
  apply (categoricals_reach_the_builder sample_get_numericals sample_check_valid_png
           Univariate data0 ["bill"] "-c" ["species"; "sex"] world0 penguins eq_refl).
  - sample_variables.
  - left.
  - discriminate.
  - sample_arguments.
  - sample_arguments.
  - vm_compute. discriminate.
Defined.

Lemma last_categoricals_win_witness :
  argparse.parse_args (parser_of sample_get_numericals Univariate penguins)
    (["bill"] ++ "-c" :: ["species"] ++ "-c" :: ["sex"])
    = argparse.parse_args (parser_of sample_get_numericals Univariate penguins)
        (["bill"] ++ "-c" :: ["sex"]) /\
  handle sample_get_numericals sample_check_valid_png Univariate data0
    (["bill"] ++ "-c" :: ["species"] ++ "-c" :: ["sex"]) world0
    = handle sample_get_numericals sample_check_valid_png Univariate data0
        (["bill"] ++ "-c" :: ["sex"]) world0.
Proof.
  apply (last_categoricals_win sample_get_numericals sample_check_valid_png
           Univariate data0 ["bill"] "-c" ["species"] "-c" ["sex"] world0 penguins eq_refl).
  - sample_variables.
  - left.
  - left.
  - sample_arguments.
  - sample_arguments.
  - sample_arguments.
Defined.

Lemma options_in_either_order_witness :
  argparse.parse_args (parser_of sample_get_numericals Bivariate penguins)
    (["bill"; "mass"] ++ "-o" :: ["joint.png"] ++ "-c" :: ["species"])
    = argparse.parse_args (parser_of sample_get_numericals Bivariate penguins)
        (["bill"; "mass"] ++ "-c" :: ["species"] ++ "-o" :: ["joint.png"]) /\
  handle sample_get_numericals sample_check_valid_png Bivariate data0
    (["bill"; "mass"] ++ "-o" :: ["joint.png"] ++ "-c" :: ["species"]) world0
    = handle sample_get_numericals sample_check_valid_png Bivariate data0
        (["bill"; "mass"] ++ "-c" :: ["species"] ++ "-o" :: ["joint.png"]) world0.
Proof.
  apply (options_in_either_order sample_get_numericals sample_check_valid_png
           Bivariate data0 ["bill"; "mass"] "-o" "joint.png" "-c" ["species"] world0
           penguins eq_refl).
  - sample_variables.
  - left.
  - left.
  - vm_compute. reflexivity.
  - sample_arguments.
Defined.

Lemma no_key_or_index_error_witness :
  fst (handle sample_get_numericals sample_check_valid_png Bivariate data0
         ["bill"; "mass"; "-c"; "species"; "year"] world0) = Raised TypeError /\
  TypeError <> KeyError /\ TypeError <> IndexError.
Proof.
  split; [vm_compute; reflexivity|].
  apply (no_key_or_index_error sample_get_numericals sample_check_valid_png
           Bivariate data0 ["bill"; "mass"; "-c"; "species"; "year"] world0 penguins
           TypeError
           (snd (handle sample_get_numericals sample_check_valid_png Bivariate data0
                   ["bill"; "mass"; "-c"; "species"; "year"] world0))
           eq_refl).
  apply pair_fst_eq. vm_compute. reflexivity.
Defined.

Lemma panels_at_most_combinations_witness :
  exists plot w',
    __plot_biv_dist_by_categoricals data0 (PStr "bill") (PStr "mass") (PStr "heatmap")
      ["species"; "sex"] world0 = (Returned plot, w') /\
    subplots plot <= length (combinations penguins ["species"; "sex"]) /\
    subplots plot = length (combinations penguins ["species"; "sex"]).
Proof.
  eexists _, _. split; [apply pair_fst_eq; vm_compute; reflexivity|].
  destruct panels_at_most_combinations as [Hpanels _].
  destruct (Hpanels data0 (PStr "bill") (PStr "bill") (PStr "mass") (PStr "heatmap")
              ["species"; "sex"] world0 penguins _ _ eq_refl (le_n 2)
              (or_intror (pair_fst_eq _ _ eq_refl))) as [Hle Heq].
  split; [exact Hle|]. apply Heq.
  apply underscore_free_check. vm_compute. reflexivity.
Defined.

Lemma grids_and_their_frames_witness :
  exists plot w',
    __plot_dist_by_categoricals data0 (PStr "bill") ["species"; "sex"] world0
      = (Returned plot, w') /\
    heap w' !! data0 = Some penguins /\
    exists labels,
      composite_labels penguins ["species"; "sex"] = Some labels /\
      fig_data plot = reindexed penguins ["species"; "sex"] labels /\
      index (fig_data plot) = str_labels labels /\
      columns (fig_data plot) = filter (fun c => c ∉ ["species"; "sex"]) (columns penguins) /\
      length (rows (fig_data plot)) = length (rows penguins).
Proof.
  eexists _, _. split; [apply pair_fst_eq; vm_compute; reflexivity|].
  match goal with
  | |- heap ?w1 !! _ = _ /\ (exists labels, _ /\ fig_data ?p = _ /\ _) =>
      destruct (grids_and_their_frames data0 (PStr "bill") (PStr "bill") (PStr "mass")
                  (PStr "heatmap") ["species"; "sex"] world0 penguins p w1 eq_refl)
        as [_ Huni]
  end.
  destruct (Huni (pair_fst_eq _ _ eq_refl)) as (Hheap & _ & Hmany).
  split; [exact Hheap|]. apply Hmany. cbn. lia.
Defined.

Lemma options_can_be_abbreviated_witness :
  argparse.parse_args (parser_of sample_get_numericals Univariate penguins)
    (["bill"] ++ "--cat" :: ["species"; "sex"])
    = argparse.parse_args (parser_of sample_get_numericals Univariate penguins)
        (["bill"] ++ "--categoricals" :: ["species"; "sex"]) /\
  handle sample_get_numericals sample_check_valid_png Univariate data0
    (["bill"] ++ "--cat" :: ["species"; "sex"]) world0
    = handle sample_get_numericals sample_check_valid_png Univariate data0
        (["bill"] ++ "--categoricals" :: ["species"; "sex"]) world0.
Proof.
  apply (options_can_be_abbreviated sample_get_numericals sample_check_valid_png
           Univariate data0 ["bill"] "-c" "--categoricals" "--cat" ["species"; "sex"]
           world0 penguins eq_refl).
  - sample_variables.
  - right. left.
  - decide_by_computation.
  - sample_arguments.
Defined.

Lemma separator_lets_any_name_through_witness :
  argparse.parse_args (parser_of sample_get_numericals Univariate penguins) ("--" :: ["-dG"])
    = argparse.Ok (variables_ns sample_get_numericals Univariate penguins ["-dG"]) /\
  handle sample_get_numericals sample_check_valid_png Univariate data0 ("--" :: ["-dG"]) world0
    = save_and_show
        (plot_of Univariate data0
           (variables_ns sample_get_numericals Univariate penguins ["-dG"]))
        (PStr "output.png") world0.
Proof.
  apply (separator_lets_any_name_through sample_get_numericals sample_check_valid_png
           Univariate data0 ["-dG"] world0 penguins eq_refl).
  - unfold names_variables. decide_by_computation.
  - vm_compute. discriminate.
Defined.

Lemma outfile_before_the_variables_witness :
  argparse.parse_args (parser_of sample_get_numericals Bivariate penguins)
    ("-o" :: "joint.png" :: ["bill"; "mass"; "gaussian"])
    = argparse.Ok (<["outfile" := PStr "joint.png"]>
                     (variables_ns sample_get_numericals Bivariate penguins
                        ["bill"; "mass"; "gaussian"])) /\
  argparse.parse_args (parser_of sample_get_numericals Bivariate penguins)
    ("-o" :: "joint.png" :: ["bill"; "mass"; "gaussian"])
    = argparse.parse_args (parser_of sample_get_numericals Bivariate penguins)
        (["bill"; "mass"; "gaussian"] ++ ["-o"; "joint.png"]) /\
  handle sample_get_numericals sample_check_valid_png Bivariate data0
    ("-o" :: "joint.png" :: ["bill"; "mass"; "gaussian"]) world0
    = handle sample_get_numericals sample_check_valid_png Bivariate data0
        (["bill"; "mass"; "gaussian"] ++ ["-o"; "joint.png"]) world0.
Proof.
  apply (outfile_before_the_variables sample_get_numericals sample_check_valid_png
           Bivariate data0 ["bill"; "mass"; "gaussian"] "-o" "joint.png" world0 penguins
           eq_refl).
  - sample_variables.
  - left.
  - vm_compute. reflexivity.
Defined.
